(** * Sentry-audit: detection and risk-scoring engine

    A shallow embedding of the scoring utilities, the regular-expression
    driven detectors, the code-structure extractors, the static-analysis
    orchestrator, the gas heuristics, the request validator and the
    handling of the external analyzer's response, together with the
    properties the specification states about them and further
    properties read off the code.

    Python [int] is [Z]; Python [str] is a list of characters, each a code
    point below 256; a [dict] keyed by strings is a [gmap string _]. *)

From Stdlib Require Import ZArith Ascii String DecimalString.
From stdpp Require Import gmap strings list fin_maps sorting.

Local Open Scope Z_scope.

(** ** Risk scoring ([app/utils/scoring.py]) *)

Module Scoring.

Definition weights : gmap string Z :=
  <["critical" := 25]> (<["high" := 15]> (<["medium" := 8]>
    (<["low" := 3]> (<["info" := 1]> ∅)))).

(** One iteration of the loop body of [calculate_risk_score]. *)
Definition risk_step (severity : string) (count : Z) (score : Z) : Z :=
  match weights !! severity with
  | Some w => score - w * count
  | None => score
  end.

Definition calculate_risk_score (severity_counts : gmap string Z) : Z :=
  Z.max 0 (map_fold risk_step 100 severity_counts).

Definition calculate_security_rating (risk_score : Z) : string :=
  if 95 <=? risk_score then "A+"
  else if 90 <=? risk_score then "A"
  else if 85 <=? risk_score then "A-"
  else if 80 <=? risk_score then "B+"
  else if 75 <=? risk_score then "B"
  else if 70 <=? risk_score then "B-"
  else if 65 <=? risk_score then "C+"
  else if 60 <=? risk_score then "C"
  else if 55 <=? risk_score then "C-"
  else if 50 <=? risk_score then "D"
  else "F".

(** [severity_counts.get(k, 0)]. *)
Definition count_of (severity_counts : gmap string Z) (k : string) : Z :=
  default 0 (severity_counts !! k).

(** The histogram built by the audit route: the five levels, nothing else. *)
Definition histogram (critical high medium low info : Z) : gmap string Z :=
  <["critical" := critical]> (<["high" := high]> (<["medium" := medium]>
    (<["low" := low]> (<["info" := info]> ∅)))).

Definition penalty (severity_counts : gmap string Z) : Z :=
  25 * count_of severity_counts "critical"
  + 15 * count_of severity_counts "high"
  + 8 * count_of severity_counts "medium"
  + 3 * count_of severity_counts "low"
  + 1 * count_of severity_counts "info".

Definition get_overall_risk_level (risk_score : Z) : string :=
  if 80 <=? risk_score then "Low"
  else if 60 <=? risk_score then "Medium"
  else if 40 <=? risk_score then "High"
  else "Critical".

(** The letters [calculate_security_rating] can return. *)
Definition grades : list string :=
  ["A+"; "A"; "A-"; "B+"; "B"; "B-"; "C+"; "C"; "C-"; "D"; "F"]%string.

(** The place of a letter in [grades], best first. *)
Fixpoint position (g : string) (l : list string) : nat :=
  match l with
  | [] => 0
  | x :: l' => if String.eqb x g then 0 else S (position g l')
  end.

Definition grade_rank (g : string) : nat := position g grades.

End Scoring.

(** ** Python string operations used by the analyzers *)

Module Text.

Abbreviation str := (list ascii).

(** A literal. *)
Definition txt (s : string) : str := list_ascii_of_string s.

Definition nl : ascii := "010"%char.
Definition dq : ascii := "034"%char.

Definition code_of (c : ascii) : nat := nat_of_ascii c.

Definition between (lo hi : nat) (c : ascii) : bool :=
  (lo <=? code_of c)%nat && (code_of c <=? hi)%nat.

(** [\d], [\s] and [\w] of Python's [re] on [str] patterns, and
    [str.isspace], for code points below 256. *)
Definition is_digit (c : ascii) : bool := between 48 57 c.

Definition is_space (c : ascii) : bool :=
  between 9 13 c || between 28 32 c || between 133 133 c || between 160 160 c.

Definition is_word (c : ascii) : bool :=
  between 48 57 c || between 65 90 c || between 95 95 c || between 97 122 c
  || between 170 170 c || between 178 179 c || between 181 181 c
  || between 185 186 c || between 188 190 c || between 192 214 c
  || between 216 246 c || between 248 255 c.

(** [str.lower] on one character. *)
Definition lower_char (c : ascii) : ascii :=
  if between 65 90 c || between 192 214 c || between 216 222 c
  then ascii_of_nat (code_of c + 32) else c.

Definition upper_char (c : ascii) : ascii :=
  if between 97 122 c || between 224 246 c || between 248 254 c
  then ascii_of_nat (code_of c - 32) else c.

Definition lower (s : str) : str := map lower_char s.

Definition is_cased (c : ascii) : bool :=
  negb (Ascii.eqb (lower_char c) c) || negb (Ascii.eqb (upper_char c) c).

(** [str.title]: a cased character is upper-cased after an uncased one
    and lower-cased after a cased one.  The source applies it to the fixed
    names of call kinds and operations, all ASCII letters, and the model
    is exact on ASCII. *)
Fixpoint title_aux (prev_cased : bool) (s : str) : str :=
  match s with
  | [] => []
  | c :: s' =>
      (if prev_cased then lower_char c else upper_char c)
        :: title_aux (is_cased c) s'
  end.

Definition title (s : str) : str := title_aux false s.

(** [s.startswith(p)]. *)
Fixpoint startswith (p s : str) : bool :=
  match p, s with
  | [], _ => true
  | _ :: _, [] => false
  | a :: p', b :: s' => Ascii.eqb a b && startswith p' s'
  end.

(** Leftmost occurrence of [sub] in [s], positions counted from [pos]. *)
Fixpoint find_aux (sub s : str) (pos : nat) : option nat :=
  if startswith sub s then Some pos
  else match s with
       | [] => None
       | _ :: s' => find_aux sub s' (S pos)
       end.

(** [sub in s]. *)
Definition contains (sub s : str) : bool :=
  match find_aux sub s 0 with Some _ => true | None => false end.

(** [s.find(sub, start)], [-1] when there is none. *)
Definition find (sub s : str) (start : nat) : Z :=
  if (length s <? start)%nat then -1
  else match find_aux sub (drop start s) start with
       | Some i => Z.of_nat i
       | None => -1
       end.

(** Rightmost occurrence of [sub] in [s], positions counted from [pos]. *)
Fixpoint rfind_aux (sub s : str) (pos : nat) : option nat :=
  match s with
  | [] => if startswith sub [] then Some pos else None
  | _ :: s' =>
      match rfind_aux sub s' (S pos) with
      | Some i => Some i
      | None => if startswith sub s then Some pos else None
      end
  end.

(** [s.rfind(sub, 0, stop)]. *)
Definition rfind (sub s : str) (stop : nat) : Z :=
  match rfind_aux sub (take stop s) 0 with
  | Some i => Z.of_nat i
  | None => -1
  end.

(** [s.index(sub)] where the caller has checked [sub in s]. *)
Definition index (sub s : str) : nat :=
  match find_aux sub s 0 with Some i => i | None => 0%nat end.

(** [s.count('\n')]. *)
Definition count_nl (s : str) : nat :=
  length (filter (λ c, Ascii.eqb c nl = true) s).

(** [s[start:stop]] with Python's reading of negative bounds. *)
Definition clamp (len : nat) (i : Z) : nat :=
  if i <? 0 then Z.to_nat (Z.max 0 (Z.of_nat len + i))
  else Nat.min len (Z.to_nat i).

Definition slice (s : str) (start stop : Z) : str :=
  let a := clamp (length s) start in
  let b := clamp (length s) stop in
  take (b - a) (drop a s).

(** [s.split(sep)] for a one-character separator. *)
Fixpoint split_on (sep : ascii) (s : str) : list str :=
  match s with
  | [] => [[]]
  | c :: s' =>
      if Ascii.eqb c sep then [] :: split_on sep s'
      else match split_on sep s' with
           | l :: ls => (c :: l) :: ls
           | [] => [[c]]
           end
  end.

(** [s.split('\n')]. *)
Definition split_lines (s : str) : list str := split_on nl s.

(** ['\n'.join(ls)]. *)
Fixpoint join_lines (ls : list str) : str :=
  match ls with
  | [] => []
  | [l] => l
  | l :: ls' => l ++ nl :: join_lines ls'
  end.

Fixpoint lstrip (s : str) : str :=
  match s with
  | c :: s' => if is_space c then lstrip s' else s
  | [] => []
  end.

(** [s.strip()]. *)
Definition strip (s : str) : str := reverse (lstrip (reverse (lstrip s))).

(** [s.replace(old, new)] for a non-empty [old]; [skip] counts the
    characters of an occurrence still to be dropped. *)
Fixpoint replace_aux (old new s : str) (skip : nat) : str :=
  match s with
  | [] => []
  | c :: s' =>
      match skip with
      | S k => replace_aux old new s' k
      | O =>
          if startswith old s
          then new ++ replace_aux old new s' (length old - 1)
          else c :: replace_aux old new s' 0
      end
  end.

Definition replace (old new s : str) : str := replace_aux old new s 0.

(** [str(n)] for a non-negative integer. *)
Definition of_nat (n : nat) : str :=
  txt (NilZero.string_of_uint (Nat.to_uint n)).

(** [str(n)] for an integer. *)
Definition of_Z (n : Z) : str := txt (NilZero.string_of_int (Z.to_int n)).

(** [int(s)] on a run of decimal digits; [None] stands for the
    [ValueError] on anything else. *)
Definition digit_value (c : ascii) : Z := Z.of_nat (code_of c - 48).

Definition int_of_str (s : str) : option Z :=
  match s with
  | [] => None
  | _ => if forallb is_digit s
         then Some (fold_left (λ acc c, 10 * acc + digit_value c) s 0)
         else None
  end.

(** [get_line_context] of [app/utils/ast_utils.py]. *)
Definition get_line_context (code : str) (line_number context_lines : nat) : str :=
  let lines := split_lines code in
  let start := (line_number - context_lines - 1)%nat in
  let stop := Nat.min (length lines) (line_number + context_lines) in
  join_lines (take (stop - start) (drop start lines)).

End Text.

(** ** The fragment of Python's [re] the patterns of the source use *)

Module Regex.
Import Text.

(** Every repetition in the patterns ranges over a one-character item,
    so [Star] takes a character class. *)
Inductive re : Type :=
| Eps
| Chr (c : ascii)
| Cls (p : ascii → bool)
| Star (p : ascii → bool)
| Cat (r1 r2 : re)
| Alt (r1 r2 : re)
| Grp (n : nat) (r : re)
| Bnd.

Definition Plus (p : ascii → bool) : re := Cat (Cls p) (Star p).
Definition Opt (r : re) : re := Alt r Eps.

Fixpoint Lit (s : str) : re :=
  match s with
  | [] => Eps
  | [c] => Chr c
  | c :: s' => Cat (Chr c) (Lit s')
  end.

Fixpoint Seq (rs : list re) : re :=
  match rs with
  | [] => Eps
  | [r] => r
  | r :: rs' => Cat r (Seq rs')
  end.

Definition chr_is (c : ascii) : ascii → bool := λ x, Ascii.eqb x c.
Definition chr_isnt (c : ascii) : ascii → bool := λ x, negb (Ascii.eqb x c).
Definition either (p q : ascii → bool) : ascii → bool := λ x, p x || q x.

(** Captured groups, latest first. *)
Definition captures := list (nat * str).

Definition word_at (c : option ascii) : bool :=
  match c with Some x => is_word x | None => false end.

(** Greedy repetition: take as many characters as possible, give them
    back one at a time while the continuation fails. *)
Fixpoint star_m {R} (p : ascii → bool) (prev : option ascii) (s : str)
    (k : option ascii → str → option R) : option R :=
  match s with
  | c :: s' =>
      if p c then
        match star_m p (Some c) s' k with
        | Some x => Some x
        | None => k prev s
        end
      else k prev s
  | [] => k prev s
  end.

(** The backtracking matcher: [prev] is the character before the
    cursor, [s] the text from the cursor on. *)
Fixpoint m {R} (r : re) (prev : option ascii) (s : str) (caps : captures)
    (k : option ascii → str → captures → option R) : option R :=
  match r with
  | Eps => k prev s caps
  | Chr c =>
      match s with
      | x :: s' => if Ascii.eqb x c then k (Some x) s' caps else None
      | [] => None
      end
  | Cls p =>
      match s with
      | x :: s' => if p x then k (Some x) s' caps else None
      | [] => None
      end
  | Star p => star_m p prev s (λ prev' s', k prev' s' caps)
  | Cat r1 r2 => m r1 prev s caps (λ prev' s' caps', m r2 prev' s' caps' k)
  | Alt r1 r2 =>
      match m r1 prev s caps k with
      | Some x => Some x
      | None => m r2 prev s caps k
      end
  | Grp n r' =>
      m r' prev s caps
        (λ prev' s' caps', k prev' s' ((n, take (length s - length s') s) :: caps'))
  | Bnd =>
      if xorb (word_at prev) (word_at (head s)) then k prev s caps else None
  end.

Record Match := mkMatch { m_start : nat; m_end : nat; m_caps : captures }.

  (** [match.group(n)], [None] for a group that did not take part. *)
Fixpoint lookup_cap (n : nat) (caps : captures) : option str :=
  match caps with
  | [] => None
  | (i, w) :: caps' => if (i =? n)%nat then Some w else lookup_cap n caps'
  end.

Definition group (n : nat) (mt : Match) : option str := lookup_cap n (m_caps mt).

(** Match at the cursor: the length consumed and the groups. *)
Definition match_here (r : re) (prev : option ascii) (s : str) : option (nat * captures) :=
  m r prev s [] (λ _ s' caps, Some ((length s - length s')%nat, caps)).

Fixpoint search_aux (r : re) (prev : option ascii) (s : str) (pos : nat) : option Match :=
  match match_here r prev s with
  | Some (n, caps) => Some (mkMatch pos (pos + n) caps)
  | None =>
      match s with
      | [] => None
      | c :: s' => search_aux r (Some c) s' (S pos)
      end
  end.

(** [re.search(r, s)]. *)
Definition search (r : re) (s : str) : option Match := search_aux r None s 0.

Definition found (r : re) (s : str) : bool :=
  match search r s with Some _ => true | None => false end.

(** [re.finditer(r, s)]: leftmost matches that do not overlap; [skip]
    counts the characters of the last match still to be passed.  No
    pattern of the source matches the empty string. *)
Fixpoint finditer_aux (r : re) (prev : option ascii) (s : str) (pos skip : nat) : list Match :=
  match s with
  | [] =>
      match skip, match_here r prev [] with
      | O, Some (n, caps) => [mkMatch pos (pos + n) caps]
      | _, _ => []
      end
  | c :: s' =>
      match skip with
      | S j => finditer_aux r (Some c) s' (S pos) j
      | O =>
          match match_here r prev s with
          | Some (n, caps) =>
              mkMatch pos (pos + n) caps :: finditer_aux r (Some c) s' (S pos) (n - 1)
          | None => finditer_aux r (Some c) s' (S pos) 0
          end
      end
  end.

Definition finditer (r : re) (s : str) : list Match := finditer_aux r None s 0 0.

(** [re.fullmatch(r, s)] as a truth value. *)
Definition fullmatch (r : re) (s : str) : bool :=
  match m r None s [] (λ _ s' _, match s' with [] => Some tt | _ => None end) with
  | Some _ => true
  | None => false
  end.

(** The words a pattern without [\b] denotes. *)
Fixpoint lang (r : re) (w : str) : Prop :=
  match r with
  | Eps => w = []
  | Chr c => w = [c]
  | Cls p => ∃ c, w = [c] ∧ p c = true
  | Star p => Forall (λ c, p c = true) w
  | Cat r1 r2 => ∃ w1 w2, w = w1 ++ w2 ∧ lang r1 w1 ∧ lang r2 w2
  | Alt r1 r2 => lang r1 w ∨ lang r2 w
  | Grp _ r' => lang r' w
  | Bnd => w = []
  end.

Fixpoint bnd_free (r : re) : bool :=
  match r with
  | Bnd => false
  | Cat r1 r2 | Alt r1 r2 => bnd_free r1 && bnd_free r2
  | Grp _ r' => bnd_free r'
  | _ => true
  end.

Fixpoint group_free (r : re) : bool :=
  match r with
  | Grp _ _ => false
  | Cat r1 r2 | Alt r1 r2 => group_free r1 && group_free r2
  | _ => true
  end.

(** What a successful match of [r] adds to the groups: each group on the
    path taken records the word its pattern consumed. *)
Fixpoint captured (r : re) (caps caps' : captures) : Prop :=
  match r with
  | Cat r1 r2 => ∃ mid, captured r1 caps mid ∧ captured r2 mid caps'
  | Alt r1 r2 => captured r1 caps caps' ∨ captured r2 caps caps'
  | Grp n r' => ∃ w inner, lang r' w ∧ captured r' caps inner ∧ caps' = (n, w) :: inner
  | _ => caps' = caps
  end.

End Regex.

(** ** Findings and the detector base class
    ([app/services/detectors/base_detector.py]) *)

Module Base.
Import Text Regex.

(** A finding dictionary.  The fields [recommendation],
    [exploit_scenario] and [references] hold fixed prose and are left
    out; every other key of [create_finding] is kept. *)
Record Finding := mkFinding {
  rule_id : str;
  title : str;
  severity : str;
  category : str;
  line_number : option nat;
  function_name : option str;
  code_snippet : option str;
  description : str;
  fixed_code : option str;
  cwe_id : option str;
  swc_id : option str;
  detected_by : str;
  confidence : Z
}.

(** The attributes a detector instance carries. *)
Record Self := mkSelf { self_rule_id : str; self_severity : str }.

Definition create_finding (self : Self) (title description : str)
    (line_number : option nat) (function_name code_snippet fixed_code : option str)
    (cwe_id swc_id : option str) : Finding :=
  {| rule_id := self_rule_id self;
     title := title;
     severity := self_severity self;
     category := txt "security";
     line_number := line_number;
     function_name := function_name;
     code_snippet := code_snippet;
     description := description;
     fixed_code := fixed_code;
     cwe_id := cwe_id;
     swc_id := swc_id;
     detected_by := txt "static";
     confidence := 90 |}.

(** [finding["severity"] = s]. *)
Definition set_severity (s : str) (f : Finding) : Finding :=
  {| rule_id := rule_id f; title := title f; severity := s;
     category := category f; line_number := line_number f;
     function_name := function_name f; code_snippet := code_snippet f;
     description := description f; fixed_code := fixed_code f;
     cwe_id := cwe_id f; swc_id := swc_id f;
     detected_by := detected_by f; confidence := confidence f |}.

(** [enumerate(lines)] from index [i]. *)
Fixpoint enumerate_from {A} (i : nat) (l : list A) : list (nat * A) :=
  match l with
  | [] => []
  | x :: l' => (i, x) :: enumerate_from (S i) l'
  end.

Definition enumerate {A} (l : list A) : list (nat * A) := enumerate_from 0 l.

(** [function\s+(\w+)] *)
Definition function_re : re :=
  Seq [Lit (txt "function"); Plus is_space; Grp 1 (Plus is_word)].

(** The backwards scan for the enclosing function: [ls] holds the
    lines [i], [i-1], ..., [0]. *)
Fixpoint first_function_name (ls : list str) : option str :=
  match ls with
  | [] => None
  | l :: ls' =>
      match search function_re l with
      | Some mt => group 1 mt
      | None => first_function_name ls'
      end
  end.

Definition enclosing_function (lines : list str) (i : nat) : option str :=
  first_function_name (reverse (take (S i) lines)).

(** What a call does: return a value or raise an exception (an
    instance of Python's [Exception]). *)
Inductive exn : Type := Exception (kind : string).

Inductive outcome (A : Type) : Type :=
| Return (a : A)
| Raise (e : exn).
Arguments Return {A} a.
Arguments Raise {A} e.

Definition is_solidity (language : str) : bool :=
  bool_decide (language = txt "solidity").

End Base.

(** ** [TxOriginDetector] ([app/services/detectors/tx_origin_detector.py]) *)

Module TxOrigin.
Import Text Regex Base.

Definition self : Self := mkSelf (txt "SEN-005") (txt "high").

Definition guard (kw op : string) : re :=
  Seq [Lit (txt kw); Star is_space; Chr "("; Star is_space;
       Lit (txt "tx.origin"); Star is_space; Lit (txt op)].

Definition compared_to (who : string) : re :=
  Seq [Lit (txt "tx.origin"); Star is_space; Lit (txt "==");
       Star is_space; Lit (txt who)].

Definition tx_origin_patterns : list re :=
  [ guard "require" "=="; guard "require" "!=";
    guard "if" "=="; guard "if" "!=";
    compared_to "owner"; compared_to "admin" ].

Definition describe : str :=
  txt "The contract uses tx.origin for authentication/authorization. tx.origin represents the original external account that started the transaction chain, not the immediate caller (msg.sender). This can be exploited through phishing attacks where a malicious contract tricks a user into calling it, then calls the vulnerable contract with the user's tx.origin.".

Definition report (code : str) (lines : list str) (i : nat) (line : str) : Finding :=
  create_finding self
    (txt "Dangerous Use of tx.origin for Authentication")
    describe
    (Some (i + 1)%nat)
    (enclosing_function lines i)
    (Some (get_line_context code (i + 1) 2))
    (Some (replace (txt "tx.origin") (txt "msg.sender") line))
    (Some (txt "CWE-477")) (Some (txt "SWC-115")).

(** The loop over the patterns: the first one found on the line
    reports and breaks. *)
Fixpoint scan_patterns (ps : list re) (code : str) (lines : list str)
    (i : nat) (line : str) : list Finding :=
  match ps with
  | [] => []
  | p :: ps' =>
      if found p line then [report code lines i line]
      else scan_patterns ps' code lines i line
  end.

Definition detect (code language : str) : list Finding :=
  if negb (is_solidity language) then []
  else
    let lines := split_lines code in
    flat_map (λ '(i, line), scan_patterns tx_origin_patterns code lines i line)
             (enumerate lines).

End TxOrigin.

(** ** [UncheckedCallDetector]
    ([app/services/detectors/unchecked_call_detector.py]) *)

Module UncheckedCall.
Import Text Regex Base.

Definition self : Self := mkSelf (txt "SEN-004") (txt "high").

(** [\.NAME\([^)]*\)] *)
Definition plain_call (name : string) : re :=
  Seq [Lit (txt name); Chr "("; Star (chr_isnt ")"); Chr ")"].

(** [\.call\{[^}]*\}\([^)]*\)] *)
Definition call_with_options : re :=
  Seq [Lit (txt ".call{"); Star (chr_isnt "}"); Chr "}";
       Chr "("; Star (chr_isnt ")"); Chr ")"].

Definition call_patterns : list (re * str) :=
  [ (call_with_options, txt "call");
    (plain_call ".call", txt "call");
    (plain_call ".delegatecall", txt "delegatecall");
    (plain_call ".send", txt "send") ].

(** [\(\s*bool\s+\w+\s*,?\s*\)] *)
Definition bool_tuple_re : re :=
  Seq [Chr "("; Star is_space; Lit (txt "bool"); Plus is_space; Plus is_word;
       Star is_space; Opt (Chr ","); Star is_space; Chr ")"].

(** [bool\s+\w+\s*=] *)
Definition bool_decl_re : re :=
  Seq [Lit (txt "bool"); Plus is_space; Plus is_word; Star is_space; Chr "="].

(** [lines[j] for j in range(lo, hi)]. *)
Definition lines_in_range (lines : list str) (lo hi : nat) : list str :=
  take (hi - lo) (drop lo lines).

Definition has_check (l : str) : bool :=
  contains (txt "require(") l || contains (txt "assert(") l || contains (txt "if(") l.

(** The look-ahead [for j in range(i + 1, min(i + 5, len(lines)))]. *)
Definition checked_below (lines : list str) (i : nat) : bool :=
  existsb has_check
    (lines_in_range lines (i + 1) (Nat.min (i + 5) (length lines))).

Definition is_checked (lines : list str) (i : nat) (line : str) : bool :=
  if found bool_tuple_re line then checked_below lines i
  else if found bool_decl_re line then checked_below lines i
  else contains (txt "require(") line || contains (txt "assert(") line.

Definition describe (call_type : str) : str :=
  txt "The return value of a low-level " ++ call_type
  ++ txt " is not checked. Low-level calls return false on failure instead of reverting. Ignoring this return value means the contract will continue execution even if the call failed, potentially leading to incorrect state changes or loss of funds.".

Definition report (code : str) (lines : list str) (i : nat) (call_type : str) : Finding :=
  create_finding self
    (txt "Unchecked " ++ Text.title call_type ++ txt " Return Value")
    (describe call_type)
    (Some (i + 1)%nat)
    (enclosing_function lines i)
    (Some (get_line_context code (i + 1) 2))
    None
    (Some (txt "CWE-252")) (Some (txt "SWC-104")).

(** The loop over the call patterns: a pattern found on the line with an
    unchecked result reports and breaks; with a checked result the loop
    goes on to the next pattern. *)
Fixpoint scan_patterns (ps : list (re * str)) (code : str) (lines : list str)
    (i : nat) (line : str) : list Finding :=
  match ps with
  | [] => []
  | (p, call_type) :: ps' =>
      if found p line then
        if negb (is_checked lines i line) then [report code lines i call_type]
        else scan_patterns ps' code lines i line
      else scan_patterns ps' code lines i line
  end.

Definition is_comment (line : str) : bool :=
  let stripped_line := strip line in
  startswith (txt "//") stripped_line || startswith (txt "/*") stripped_line.

Definition scan_line (code : str) (lines : list str) (i : nat) (line : str) : list Finding :=
  if is_comment line then []
  else scan_patterns call_patterns code lines i line.

Definition detect (code language : str) : list Finding :=
  if negb (is_solidity language) then []
  else
    let lines := split_lines code in
    flat_map (λ '(i, line), scan_line code lines i line) (enumerate lines).

End UncheckedCall.

(** ** [ReentrancyDetector]
    ([app/services/detectors/reentrancy_detector.py]) *)

Module Reentrancy.
Import Text Regex Base.

Definition self : Self := mkSelf (txt "SEN-001") (txt "critical").

Definition external_call_patterns : list re :=
  [ Lit (txt ".call{"); Lit (txt ".call("); Lit (txt ".delegatecall(");
    Lit (txt ".send("); Lit (txt ".transfer(") ].

(** [\w+\[[\w\.]+\]\s*=] *)
Definition bracket_write_re : re :=
  Seq [Plus is_word; Chr "["; Plus (either is_word (chr_is "."));
       Chr "]"; Star is_space; Chr "="].

(** [\w+\s*=] *)
Definition plain_write_re : re :=
  Seq [Plus is_word; Star is_space; Chr "="].

Definition state_change_pattern : re := Alt bracket_write_re plain_write_re.

Definition has_external_call (line : str) : bool :=
  existsb (λ p, found p line) external_call_patterns.

Definition is_boundary (l : str) : bool :=
  contains (txt "function ") l || startswith (txt "}") (strip l).

(** The look-ahead over [lines[j]], [j] counted from [j0]: stop at a
    function boundary, report the first line with a state change. *)
Fixpoint state_change_after (window : list str) (j : nat) : option nat :=
  match window with
  | [] => None
  | l :: window' =>
      if is_boundary l then None
      else if found state_change_pattern l then Some (j + 1)%nat
      else state_change_after window' (S j)
  end.

Definition look_ahead (lines : list str) (i : nat) : option nat :=
  state_change_after
    (UncheckedCall.lines_in_range lines (i + 1) (Nat.min (i + 11) (length lines)))
    (i + 1).

(** [_extract_function_name]. *)
Definition _extract_function_name (code : str) (line_index : nat) : option str :=
  enclosing_function (split_lines code) line_index.

(** [_generate_fixed_code]. *)
Definition _generate_fixed_code (function_name : option str) : str :=
  let func_name :=
    match function_name with
    | Some ((_ :: _) as n) => n
    | _ => txt "withdraw"
    end in
  txt "// Fixed version following Checks-Effects-Interactions pattern
function " ++ func_name ++ txt "() external nonReentrant {
    uint amount = balances[msg.sender];
    require(amount > 0, " ++ [dq] ++ txt "No balance" ++ [dq] ++ txt ");

    // Effects: Update state BEFORE external call
    balances[msg.sender] = 0;

    // Interactions: External call LAST
    (bool success, ) = msg.sender.call{value: amount}(" ++ [dq; dq] ++ txt ");
    require(success, " ++ [dq] ++ txt "Transfer failed" ++ [dq] ++ txt ");
}".

Definition describe (line_num state_change_line : nat) : str :=
  txt "External call detected before state changes. This allows for potential reentrancy attacks where the called contract can call back into this contract before state changes are applied. The external call on line "
  ++ of_nat line_num ++ txt " occurs before state changes on line "
  ++ of_nat state_change_line ++ txt ".".

Definition scan_line (code : str) (lines : list str) (i : nat) (line : str) : list Finding :=
  if has_external_call line then
    match look_ahead lines i with
    | Some state_change_line =>
        let function_name := _extract_function_name code i in
        [create_finding self
           (txt "Potential Reentrancy Vulnerability")
           (describe (i + 1) state_change_line)
           (Some (i + 1)%nat)
           function_name
           (Some (get_line_context code (i + 1) 3))
           (Some (_generate_fixed_code function_name))
           (Some (txt "CWE-841")) (Some (txt "SWC-107"))]
    | None => []
    end
  else [].

(** [function\s+(\w+)\([^)]*\)\s+.*payable] *)
Definition payable_pattern : re :=
  Seq [Lit (txt "function"); Plus is_space; Grp 1 (Plus is_word);
       Chr "("; Star (chr_isnt ")"); Chr ")"; Plus is_space;
       Star (chr_isnt nl); Lit (txt "payable")].

Definition describe_payable (function_name : str) : str :=
  txt "The payable function '" ++ function_name
  ++ txt "' does not have a reentrancy guard. Payable functions that make external calls or interact with other contracts should be protected against reentrancy attacks.".

Definition payable_report (code : str) (mt : Match) : list Finding :=
  let function_context :=
    slice code (Z.max 0 (Z.of_nat (m_start mt) - 200)) (Z.of_nat (m_end mt) + 500) in
  if negb (contains (txt "nonReentrant") function_context) then
    let line_num := (count_nl (take (m_start mt) code) + 1)%nat in
    let function_name := group 1 mt in
    [set_severity (txt "high")
       (create_finding self
          (txt "Missing Reentrancy Guard on Payable Function")
          (describe_payable (default [] function_name))
          (Some line_num)
          function_name
          (Some (get_line_context code line_num 2))
          None
          (Some (txt "CWE-841")) (Some (txt "SWC-107")))]
  else [].

Definition detect (code language : str) : list Finding :=
  if negb (is_solidity language) then []
  else
    let lines := split_lines code in
    flat_map (λ '(i, line), scan_line code lines i line) (enumerate lines)
    ++ flat_map (payable_report code) (finditer payable_pattern code).

End Reentrancy.

(** ** [IntegerOverflowDetector]
    ([app/services/detectors/integer_overflow_detector.py]) *)

Module IntegerOverflow.
Import Text Regex Base.

Definition self : Self := mkSelf (txt "SEN-003") (txt "high").

(** [pragma\s+solidity\s+[\^~]?(\d+\.\d+\.\d+)] *)
Definition version_pattern : re :=
  Seq [Lit (txt "pragma"); Plus is_space; Lit (txt "solidity"); Plus is_space;
       Opt (Cls (either (chr_is "^") (chr_is "~")));
       Grp 1 (Seq [Plus is_digit; Chr "."; Plus is_digit; Chr "."; Plus is_digit])].

(** [major, minor, _ = map(int, version.split('.'))] *)
Definition parse_version (version : str) : outcome (Z * Z) :=
  match map int_of_str (split_on "." version) with
  | [Some major; Some minor; Some _] => Return (major, minor)
  | _ => Raise (Exception "ValueError")
  end.

(** [unchecked\s*\{] *)
Definition unchecked_pattern : re :=
  Seq [Lit (txt "unchecked"); Star is_space; Chr "{"].

Definition line_of (code : str) (mt : Match) : nat :=
  (count_nl (take (m_start mt) code) + 1)%nat.

Definition unchecked_report (code : str) (mt : Match) : Finding :=
  let line_num := line_of code mt in
  set_severity (txt "medium")
    (create_finding self
       (txt "Unchecked Math Operations")
       (txt "The 'unchecked' block disables Solidity's built-in overflow/underflow protection. Arithmetic operations within this block can overflow or underflow without reverting, potentially leading to incorrect calculations.")
       (Some line_num) None
       (Some (get_line_context code line_num 4))
       None
       (Some (txt "CWE-190")) (Some (txt "SWC-101"))).

(** [\w+\s*OP=\s*\w+] *)
Definition compound (op : string) : re :=
  Seq [Plus is_word; Star is_space; Lit (txt op); Star is_space; Plus is_word].

(** [\w+\s*=\s*\w+\s*OP\s*\w+] *)
Definition binary (op : ascii) : re :=
  Seq [Plus is_word; Star is_space; Chr "="; Star is_space; Plus is_word;
       Star is_space; Chr op; Star is_space; Plus is_word].

Definition arithmetic_patterns : list (re * str) :=
  [ (compound "+=", txt "addition");
    (compound "-=", txt "subtraction");
    (compound "*=", txt "multiplication");
    (binary "+", txt "addition");
    (binary "-", txt "subtraction");
    (binary "*", txt "multiplication") ].

Definition uses_safemath (code : str) : bool :=
  contains (txt "SafeMath") code || contains (txt "using SafeMath for") code.

(** The comment test on a match:
    [line_start = code.rfind('\n', 0, match.start()) + 1],
    [line = code[line_start:code.find('\n', match.start())]],
    ['//' in line and line.index('//') < match.start() - line_start]. *)
Definition in_comment (code : str) (mt : Match) : bool :=
  let line_start := rfind [nl] code (m_start mt) + 1 in
  let line := slice code line_start (find [nl] code (m_start mt)) in
  contains (txt "//") line
  && (Z.of_nat (index (txt "//") line) <? Z.of_nat (m_start mt) - line_start).

Definition describe (operation : str) : str :=
  txt "Arithmetic " ++ operation
  ++ txt " operation detected without SafeMath protection in Solidity version < 0.8.0. This can lead to integer overflow or underflow vulnerabilities where calculations wrap around unexpectedly.".

Definition arith_report (code operation : str) (mt : Match) : Finding :=
  let line_num := line_of code mt in
  create_finding self
    (txt "Potential Integer Overflow in " ++ Text.title operation)
    (describe operation)
    (Some line_num) None
    (Some (get_line_context code line_num 2))
    None
    (Some (txt "CWE-190")) (Some (txt "SWC-101")).

(** The loop over the matches of one pattern: a match in a comment is
    passed over, the first other match reports, and the [break] after
    it leaves the loop over the matches. *)
Fixpoint scan_matches (code operation : str) (ms : list Match) : list Finding :=
  match ms with
  | [] => []
  | mt :: ms' =>
      if in_comment code mt then scan_matches code operation ms'
      else [arith_report code operation mt]
  end.

(** The part of [detect] for Solidity below 0.8.0. *)
Definition detect_arithmetic (code : str) : list Finding :=
  if negb (uses_safemath code) then
    flat_map (λ '(pattern, operation),
                scan_matches code operation (finditer pattern code))
             arithmetic_patterns
  else [].

Definition has_builtin_checks (major minor : Z) : bool :=
  (0 <? major) || ((major =? 0) && (8 <=? minor)).

Definition detect (code language : str) : outcome (list Finding) :=
  if negb (is_solidity language) then Return []
  else
    match search version_pattern code with
    | Some version_match =>
        match parse_version (default [] (group 1 version_match)) with
        | Raise e => Raise e
        | Return (major, minor) =>
            if has_builtin_checks major minor
            then Return (map (unchecked_report code) (finditer unchecked_pattern code))
            else Return (detect_arithmetic code)
        end
    | None => Return (detect_arithmetic code)
    end.

End IntegerOverflow.

(** ** [AccessControlDetector]
    ([app/services/detectors/access_control_detector.py]) *)

Module AccessControl.
Import Text Regex Base.

Definition self : Self := mkSelf (txt "SEN-002") (txt "critical").

Definition critical_keywords : list str :=
  map txt ["selfdestruct"; "suicide"; "delegatecall"; "transferOwnership";
           "withdraw"; "mint"; "burn"; "pause"; "unpause"; "setAdmin"]%string.

(** [function\s+(\w+)\s*\([^)]*\)\s+(public|external|private|internal)?]
    followed by the group [[^{]*] and by [\{]. *)
Definition function_pattern : re :=
  Seq [Lit (txt "function"); Plus is_space; Grp 1 (Plus is_word); Star is_space;
       Chr "("; Star (chr_isnt ")"); Chr ")"; Plus is_space;
       Opt (Grp 2 (Alt (Lit (txt "public")) (Alt (Lit (txt "external"))
                   (Alt (Lit (txt "private")) (Lit (txt "internal"))))));
       Grp 3 (Star (chr_isnt "{")); Chr "{"].

(** [_find_function_end]: [s] is the code from index [i] on. *)
Fixpoint _find_function_end (s : str) (i brace_count : nat) : nat :=
  match brace_count, s with
  | O, _ => i
  | _, [] => i
  | S b, c :: s' =>
      if Ascii.eqb c "{" then _find_function_end s' (S i) (S brace_count)
      else if Ascii.eqb c "}" then _find_function_end s' (S i) b
      else _find_function_end s' (S i) brace_count
  end.

(** [x or d] on a string that may be [None] or empty. *)
Definition or_default (x : option str) (d : str) : str :=
  match x with
  | Some ((_ :: _) as v) => v
  | _ => d
  end.

Definition missing_access_control (code function_name : str) (mt : Match) : Finding :=
  let line_num := (count_nl (take (m_start mt) code) + 1)%nat in
  create_finding self
    (txt "Missing Access Control on Critical Function '" ++ function_name ++ txt "'")
    (txt "The function '" ++ function_name
     ++ txt "' performs critical operations but lacks proper access control. This allows any external caller to execute sensitive functionality that should be restricted to authorized users only.")
    (Some line_num) (Some function_name)
    (Some (get_line_context code line_num 3))
    None
    (Some (txt "CWE-284")) (Some (txt "SWC-105")).

Definition unprotected_initializer (code function_name : str) (mt : Match) : Finding :=
  let line_num := (count_nl (take (m_start mt) code) + 1)%nat in
  set_severity (txt "high")
    (create_finding self
       (txt "Unprotected Initialization Function")
       (txt "The initialization function '" ++ function_name
        ++ txt "' is not protected against re-initialization. An attacker could call this function multiple times to reset contract state or take ownership.")
       (Some line_num) (Some function_name)
       (Some (get_line_context code line_num 3))
       None
       (Some (txt "CWE-665")) (Some (txt "SWC-118"))).

Definition one_of (x : str) (l : list string) : bool :=
  existsb (λ y, bool_decide (x = txt y)) l.

(** The body of the loop over the functions found. *)
Definition scan_function (code : str) (mt : Match) : list Finding :=
  let function_name := default [] (group 1 mt) in
  let visibility := or_default (group 2 mt) (txt "public") in
  let modifiers_section := or_default (group 3 mt) [] in
  if contains (txt "view") modifiers_section || contains (txt "pure") modifiers_section
  then []
  else
    let function_start := m_end mt in
    let function_end := _find_function_end (drop function_start code) function_start 1 in
    let function_body := take (function_end - function_start) (drop function_start code) in
    let has_critical_operation :=
      existsb (λ keyword, contains keyword function_body) critical_keywords in
    let has_access_control :=
      existsb (λ modifier, contains (txt modifier) modifiers_section)
              ["onlyOwner"; "onlyAdmin"; "onlyRole"; "nonReentrant"]%string
      || contains (txt "require(msg.sender ==") function_body
      || contains (txt "require(owner ==") function_body in
    (if has_critical_operation && negb has_access_control
     then [missing_access_control code function_name mt] else [])
    ++
    (if one_of function_name ["initialize"; "init"; "setup"]%string
        && one_of visibility ["public"; "external"]%string
        && negb (contains (txt "initialized") function_body)
        && negb (contains (txt "initializer") modifiers_section)
     then [unprotected_initializer code function_name mt] else []).

Definition detect (code language : str) : list Finding :=
  if negb (is_solidity language) then []
  else flat_map (scan_function code) (finditer function_pattern code).

End AccessControl.

(** ** The code-structure extractor ([app/utils/ast_utils.py]) *)

Module AstUtils.
Import Text Regex Base.

Record FunctionInfo := mkFunctionInfo {
  fn_name : str; fn_visibility : str; fn_line : nat; fn_signature : str }.

Record CallInfo := mkCallInfo {
  call_type : str; call_line : nat; call_context : str }.

(** [function\s+(\w+)\s*\([^)]*\)\s*(public|private|internal|external)?] *)
Definition function_pattern : re :=
  Seq [Lit (txt "function"); Plus is_space; Grp 1 (Plus is_word); Star is_space;
       Chr "("; Star (chr_isnt ")"); Chr ")"; Star is_space;
       Opt (Grp 2 (Alt (Lit (txt "public")) (Alt (Lit (txt "private"))
                   (Alt (Lit (txt "internal")) (Lit (txt "external"))))))].

Definition line_at (code : str) (pos : nat) : nat :=
  (count_nl (take pos code) + 1)%nat.

Definition extract_functions (code language : str) : list FunctionInfo :=
  if is_solidity language then
    map (λ mt,
           mkFunctionInfo (default [] (group 1 mt))
             (AccessControl.or_default (group 2 mt) (txt "public"))
             (line_at code (m_start mt))
             (take (m_end mt - m_start mt) (drop (m_start mt) code)))
        (finditer function_pattern code)
  else [].

Definition call_patterns : list (re * str) :=
  [ (Lit (txt ".call{"), txt "call");
    (Lit (txt ".call("), txt "call");
    (Lit (txt ".delegatecall("), txt "delegatecall");
    (Lit (txt ".send("), txt "send");
    (Lit (txt ".transfer("), txt "transfer") ].

Definition find_external_calls (code language : str) : list CallInfo :=
  if is_solidity language then
    flat_map (λ '(pattern, call_type),
                map (λ mt,
                       let line := line_at code (m_start mt) in
                       mkCallInfo call_type line (get_line_context code line 3))
                    (finditer pattern code))
             call_patterns
  else [].

Record VariableInfo := mkVariableInfo {
  var_name : str; var_type : str; var_visibility : str; var_line : nat }.

(** A type (one of [uint256|uint|int|address|bool|string], or [bytes] and
    digits), then [\s+(public|private|internal)?\s+(\w+)\s*[;=]]. *)
Definition state_variable_pattern : re :=
  Seq [Grp 1 (Alt (Lit (txt "uint256")) (Alt (Lit (txt "uint")) (Alt (Lit (txt "int"))
              (Alt (Lit (txt "address")) (Alt (Lit (txt "bool"))
              (Alt (Lit (txt "string")) (Cat (Lit (txt "bytes")) (Star is_digit))))))));
       Plus is_space;
       Opt (Grp 2 (Alt (Lit (txt "public")) (Alt (Lit (txt "private"))
                                                 (Lit (txt "internal")))));
       Plus is_space; Grp 3 (Plus is_word); Star is_space;
       Cls (either (chr_is ";") (chr_is "="))].

Definition extract_state_variables (code language : str) : list VariableInfo :=
  if is_solidity language then
    map (λ mt,
           mkVariableInfo (default [] (group 3 mt))
             (default [] (group 1 mt))
             (AccessControl.or_default (group 2 mt) (txt "internal"))
             (line_at code (m_start mt)))
        (finditer state_variable_pattern code)
  else [].



End AstUtils.

(** ** The orchestrator ([app/services/analyzers/static_analyzer.py]) *)

Module StaticAnalyzer.
Import Text Regex Base AstUtils.

(** The keyword arguments every detector receives. *)
Record Context := mkContext {
  functions : list FunctionInfo;
  external_calls : list CallInfo }.

(** The detector interface: [detect(code, language, compiler_version,
    **kwargs)] returns findings or raises. *)
Record Detector := mkDetector {
  class_name : string;
  detect : str → str → option str → Context → outcome (list Finding) }.

Definition ReentrancyDetector : Detector :=
  mkDetector "ReentrancyDetector"
    (λ code language _ _, Return (Reentrancy.detect code language)).

Definition AccessControlDetector : Detector :=
  mkDetector "AccessControlDetector"
    (λ code language _ _, Return (AccessControl.detect code language)).

Definition IntegerOverflowDetector : Detector :=
  mkDetector "IntegerOverflowDetector"
    (λ code language _ _, IntegerOverflow.detect code language).

Definition UncheckedCallDetector : Detector :=
  mkDetector "UncheckedCallDetector"
    (λ code language _ _, Return (UncheckedCall.detect code language)).

Definition TxOriginDetector : Detector :=
  mkDetector "TxOriginDetector"
    (λ code language _ _, Return (TxOrigin.detect code language)).

Record Self := mkSelf { detectors : list Detector }.

(** [StaticAnalyzer.__init__]. *)
Definition init : Self :=
  mkSelf [ReentrancyDetector; AccessControlDetector; IntegerOverflowDetector;
          UncheckedCallDetector; TxOriginDetector].

(** [try: body except Exception as e: handler(e)]. *)
Definition try_except {A} (body : outcome A) (handler : exn → outcome A) : outcome A :=
  match body with
  | Return a => Return a
  | Raise e => handler e
  end.

Definition supported (language : str) : bool :=
  bool_decide (language = txt "solidity") || bool_decide (language = txt "vyper").

(** One turn of the loop over [self.detectors]: the inner [try] extends
    [findings] with a non-empty result and passes over a detector that
    raised. *)
Definition run_detector (d : Detector) (code language : str)
    (compiler_version : option str) (ctx : Context) (findings : list Finding)
  : outcome (list Finding) :=
  try_except
    (match detect d code language compiler_version ctx with
     | Return [] => Return findings
     | Return detector_findings => Return (findings ++ detector_findings)
     | Raise e => Raise e
     end)
    (λ _, Return findings).

Fixpoint run_detectors (ds : list Detector) (code language : str)
    (compiler_version : option str) (ctx : Context) (findings : list Finding)
  : outcome (list Finding) :=
  match ds with
  | [] => Return findings
  | d :: ds' =>
      match run_detector d code language compiler_version ctx findings with
      | Return findings' => run_detectors ds' code language compiler_version ctx findings'
      | Raise e => Raise e
      end
  end.

Definition analyze (self : Self) (code language : str) (compiler_version : option str)
  : outcome (list Finding) :=
  if negb (supported language) then Return []
  else
    try_except
      (let functions := extract_functions code language in
       let external_calls := find_external_calls code language in
       run_detectors (detectors self) code language compiler_version
         (mkContext functions external_calls) [])
      (λ _, Return []).

(** What one detector contributes when it is run on its own. *)
Definition contribution (d : Detector) (code language : str)
    (compiler_version : option str) (ctx : Context) : list Finding :=
  match detect d code language compiler_version ctx with
  | Return fs => fs
  | Raise _ => []
  end.

Definition raises (d : Detector) (code language : str)
    (compiler_version : option str) (ctx : Context) : Prop :=
  ∃ e, detect d code language compiler_version ctx = Raise e.

Definition context_of (code language : str) : Context :=
  mkContext (extract_functions code language) (find_external_calls code language).

(** [_map_slither_severity]: [mapping.get(impact, "medium")]. *)
Definition _map_slither_severity (impact : string) : string :=
  let mapping : gmap string string :=
    <["High" := "critical"]> (<["Medium" := "high"]> (<["Low" := "medium"]>
      (<["Informational" := "info"]> ∅)))%string in
  default "medium"%string (mapping !! impact).

(** [_map_slither_confidence]: [mapping.get(confidence, 75)]. *)
Definition _map_slither_confidence (confidence : string) : Z :=
  let mapping : gmap string Z :=
    <["High" := 95]> (<["Medium" := 75]> (<["Low" := 50]> ∅)) in
  default 75 (mapping !! confidence).

(** A detector made to fail on every input. *)
Definition failing_detector : Detector :=
  mkDetector "FailingDetector" (λ _ _ _ _, Raise (Exception "RuntimeError")).

End StaticAnalyzer.

(** ** The gas heuristics ([app/services/gas_analyzer.py]) *)

Module GasAnalyzer.
Import Text Regex Base.

(** An optimization entry; the fixed prose of [recommendation] is left out. *)
Record GasOptimization := mkOpt {
  issue : str;
  line : option nat;
  current_cost : str;
  optimized_cost : str;
  savings : str }.

Record GasReport := mkReport {
  total_estimated_gas : option Z;
  optimizations : list GasOptimization;
  potential_savings : str }.

Definition line_at (code : str) (pos : nat) : nat :=
  (count_nl (take pos code) + 1)%nat.

(** [\w+\[\w+\]] *)
Definition indexed_read_re : re :=
  Seq [Plus is_word; Chr "["; Plus is_word; Chr "]"].

Definition reads_storage (l : str) : bool :=
  found indexed_read_re l || contains (txt "storage") l.

Definition _detect_storage_in_loops (code : str) : list GasOptimization :=
  let lines := split_lines code in
  flat_map
    (λ '(i, line),
       if contains (txt "for(") line || contains (txt "for (") line then
         let loop_body_end := Nat.min (i + 15) (length lines) in
         if existsb reads_storage
              (UncheckedCall.lines_in_range lines (i + 1) loop_body_end)
         then [mkOpt (txt "Storage read inside loop") (Some (i + 1)%nat)
                 (replicate 2100 "n"%char ++ txt " gas (SLOAD per iteration)")
                 (txt "2100 gas (single SLOAD)")
                 (txt "2100 * (n-1) gas")]
         else []
       else [])
    (enumerate lines).

(** [uint256\s+\w+;\s*\n\s*uint8\s+\w+;] *)
Definition packing_re : re :=
  Seq [Lit (txt "uint256"); Plus is_space; Plus is_word; Chr ";"; Star is_space;
       Chr nl; Star is_space; Lit (txt "uint8"); Plus is_space; Plus is_word; Chr ";"].

Definition _detect_poor_storage_packing (code : str) : list GasOptimization :=
  map (λ mt, mkOpt (txt "Inefficient storage packing")
               (Some (line_at code (m_start mt)))
               (txt "2 storage slots (40,000 gas)")
               (txt "1 storage slot (20,000 gas)")
               (txt "20,000 gas on deployment"))
      (finditer packing_re code).

(** [function\s+(\w+)\([^)]*\)\s+public] *)
Definition public_function_re : re :=
  Seq [Lit (txt "function"); Plus is_space; Grp 1 (Plus is_word);
       Chr "("; Star (chr_isnt ")"); Chr ")"; Plus is_space; Lit (txt "public")].

(** [\bNAME\b] *)
Definition whole_word (name : str) : re := Seq [Bnd; Lit name; Bnd].

Definition _detect_public_functions (code : str) : list GasOptimization :=
  flat_map
    (λ mt,
       let function_name := default [] (group 1 mt) in
       let occurrences := length (finditer (whole_word function_name) code) in
       if (occurrences <=? 2)%nat then
         [mkOpt (txt "Function '" ++ function_name
                 ++ txt "' can be external instead of public")
            (Some (line_at code (m_start mt)))
            (txt "Higher gas (copies calldata to memory)")
            (txt "Lower gas (reads directly from calldata)")
            (txt "~200 gas per call")]
       else [])
    (finditer public_function_re code).

(** [TYPE\s+\w+\s*=\s*VALUE;] *)
Definition zero_init_re (ty value : string) : re :=
  Seq [Lit (txt ty); Plus is_space; Plus is_word; Star is_space; Chr "=";
       Star is_space; Lit (txt value); Chr ";"].

Definition _detect_redundant_initialization (code : str) : list GasOptimization :=
  flat_map
    (λ '(pattern, var_type),
       map (λ mt, mkOpt (txt "Redundant initialization of " ++ var_type
                          ++ txt " to default value")
                    (Some (line_at code (m_start mt)))
                    (txt "Extra gas for initialization")
                    (txt "No initialization needed")
                    (txt "~5 gas"))
           (finditer pattern code))
    [(zero_init_re "uint" "0", txt "uint"); (zero_init_re "bool" "false", txt "bool")].

(** [string\s+(public\s+|private\s+|internal\s+)?(\w+)] *)
Definition string_field_re : re :=
  Seq [Lit (txt "string"); Plus is_space;
       Opt (Grp 1 (Alt (Cat (Lit (txt "public")) (Plus is_space))
                  (Alt (Cat (Lit (txt "private")) (Plus is_space))
                       (Cat (Lit (txt "internal")) (Plus is_space)))));
       Grp 2 (Plus is_word)].

Definition _detect_string_usage (code : str) : list GasOptimization :=
  map (λ mt, mkOpt (txt "Consider using bytes32 instead of string for short values")
               (Some (line_at code (m_start mt)))
               (txt "Higher gas (dynamic type)")
               (txt "Lower gas (fixed-size type)")
               (txt "Variable, typically 1000+ gas"))
      (finditer string_field_re code).

(** [for\s*\([^;]*;\s*\w+\s*<\s*(\w+)\.length] *)
Definition length_in_loop_re : re :=
  Seq [Lit (txt "for"); Star is_space; Chr "("; Star (chr_isnt ";"); Chr ";";
       Star is_space; Plus is_word; Star is_space; Chr "<"; Star is_space;
       Grp 1 (Plus is_word); Lit (txt ".length")].

Definition _detect_array_length_in_loops (code : str) : list GasOptimization :=
  map (λ mt, mkOpt (txt "Array length '" ++ default [] (group 1 mt)
                    ++ txt ".length' called repeatedly in loop")
               (Some (line_at code (m_start mt)))
               (txt "SLOAD or MLOAD per iteration")
               (txt "Single read before loop")
               (txt "~100 gas per iteration"))
      (finditer length_in_loop_re code).

(** [_extract_gas_value]: the first run of digits of the string. *)
Definition _extract_gas_value (savings_str : str) : Z :=
  match search (Grp 1 (Plus is_digit)) savings_str with
  | Some mt => default 0 (int_of_str (default [] (group 1 mt)))
  | None => 0
  end.

(** [sum(...)] from the left, starting at 0. *)
Definition sum (l : list Z) : Z := fold_left Z.add l 0.

Definition not_applicable : str := txt "N/A".

Definition analyze (code language : str) : GasReport :=
  if negb (is_solidity language) then mkReport None [] not_applicable
  else
    let optimizations :=
      _detect_storage_in_loops code
      ++ _detect_poor_storage_packing code
      ++ _detect_public_functions code
      ++ _detect_redundant_initialization code
      ++ _detect_string_usage code
      ++ _detect_array_length_in_loops code in
    let total_savings := sum (map (λ opt, _extract_gas_value (savings opt)) optimizations) in
    mkReport None optimizations
      (if 0 <? total_savings then of_Z total_savings ++ txt " gas per transaction"
       else not_applicable).

End GasAnalyzer.

(** ** Normalising the external analyzer's response
    ([app/services/ai/reasoning_engine.py]) *)

Module AIReasoning.
Import Text Base.

(** What [json.loads] returns.  Numbers are integers; floating-point
    numbers are outside the model. *)
#[warnings="-register-all"]
Inductive json : Type :=
| JNull
| JBool (b : bool)
| JInt (n : Z)
| JStr (s : str)
| JArr (l : list json)
| JObj (m : gmap str json).

Definition bind {A B} (x : outcome A) (k : A → outcome B) : outcome B :=
  match x with
  | Return a => k a
  | Raise e => Raise e
  end.

#[global] Instance outcome_bind : MBind outcome := λ A B k x, bind x k.
#[global] Instance outcome_ret : MRet outcome := @Return.

(** [d.get(key, dflt)]: an [AttributeError] on anything but a dict (a
    list, a string, a number and [None] have no [get]). *)
Definition get (d : json) (key : string) (dflt : json) : outcome json :=
  match d with
  | JObj m => Return (default dflt (m !! txt key))
  | _ => Raise (Exception "AttributeError")
  end.

(** [v.lower()]: only a string has it. *)
Definition lower_of (v : json) : outcome str :=
  match v with
  | JStr s => Return (lower s)
  | _ => Raise (Exception "AttributeError")
  end.

(** Truth value of an object. *)
Definition truthy (v : json) : bool :=
  match v with
  | JNull => false
  | JBool b => b
  | JInt n => negb (n =? 0)
  | JStr s => negb (bool_decide (s = []))
  | JArr l => match l with [] => false | _ => true end
  | JObj m => negb (bool_decide (m = ∅))
  end.

(** [a or b]. *)
Definition py_or (a b : json) : json := if truthy a then a else b.

(** The values a [for] loop over [v] visits: the items of a list, the
    keys of a dict, the characters of a string; a [TypeError] otherwise. *)
Definition iterate (v : json) : outcome (list json) :=
  match v with
  | JArr l => Return l
  | JStr s => Return (map (λ c, JStr [c]) s)
  | JObj m => Return (map (λ kv, JStr kv.1) (map_to_list m))
  | _ => Raise (Exception "TypeError")
  end.

Record NormalizedVuln := mkVuln {
  v_rule_id : json;
  v_title : json;
  v_severity : str;
  v_exploitability : str;
  v_category : json;
  v_line_number : json;
  v_function_name : json;
  v_description : json;
  v_exploit_scenario : json;
  v_recommendation : json;
  v_fixed_code : json;
  v_cwe_id : json;
  v_swc_id : json;
  v_detected_by : str;
  v_confidence : json }.

Record Normalized := mkNormalized {
  summary : json;
  overall_risk : str;
  vulnerabilities : list NormalizedVuln;
  gas_optimizations : json;
  code_quality : json;
  architectural_issues : json;
  logic_flaws : json;
  best_practice_violations : json }.

(** The dict built for one [vuln]; [done] is
    [len(normalized['vulnerabilities'])] at that point. *)
Definition normalize_vuln (vuln : json) (done : nat) : outcome NormalizedVuln :=
  rule_id ← get vuln "rule_id" (JStr (txt "AI-" ++ of_nat (done + 1)));
  title ← get vuln "title" (JStr (txt "Unknown Vulnerability"));
  severity ← get vuln "severity" (JStr (txt "info")) ≫= lower_of;
  exploitability ← get vuln "exploitability" (JStr (txt "moderate")) ≫= lower_of;
  category ← get vuln "category" (JStr (txt "security"));
  line_number ← get vuln "line_number" JNull;
  line ← get vuln "line" JNull;
  function_name ← get vuln "function_name" JNull;
  function ← get vuln "function" JNull;
  description ← get vuln "description" (JStr []);
  exploit_scenario ← get vuln "exploit_scenario" JNull;
  recommendation ← get vuln "recommendation" JNull;
  fixed_code ← get vuln "fixed_code" JNull;
  cwe_id ← get vuln "cwe_id" JNull;
  swc_id ← get vuln "swc_id" JNull;
  confidence ← get vuln "confidence" (JInt 85);
  mret (mkVuln rule_id title severity exploitability category
          (py_or line_number line) (py_or function_name function)
          description exploit_scenario recommendation fixed_code
          cwe_id swc_id (txt "ai") confidence).

(** The loop over the vulnerabilities, appending to [acc]. *)
Fixpoint normalize_vulns (vs : list json) (acc : list NormalizedVuln)
  : outcome (list NormalizedVuln) :=
  match vs with
  | [] => Return acc
  | vuln :: vs' =>
      nv ← normalize_vuln vuln (length acc);
      normalize_vulns vs' (acc ++ [nv])
  end.

Definition default_code_quality : json :=
  JObj (<[txt "score" := JInt 0]> (<[txt "issues" := JArr []]> ∅)).

Definition _normalize_response (response : json) : outcome Normalized :=
  summary ← get response "summary" (JStr []);
  overall_risk ← get response "overall_risk" (JStr (txt "unknown")) ≫= lower_of;
  gas_optimizations ← get response "gas_optimizations" (JArr []);
  code_quality ← get response "code_quality" default_code_quality;
  architectural_issues ← get response "architectural_issues" (JArr []);
  logic_flaws ← get response "logic_flaws" (JArr []);
  best_practice_violations ← get response "best_practice_violations" (JArr []);
  raw ← get response "vulnerabilities" (JArr []);
  vs ← iterate raw;
  vulnerabilities ← normalize_vulns vs [];
  mret (mkNormalized summary overall_risk vulnerabilities gas_optimizations
          code_quality architectural_issues logic_flaws best_practice_violations).

(** [_detect_contract_type]. *)
Definition _detect_contract_type (code : str) : str :=
  let code_lower := lower code in
  if contains (txt "erc20") code_lower || contains (txt "totalsupply") code_lower
  then txt "ERC20 Token"
  else if contains (txt "erc721") code_lower || contains (txt "nft") code_lower
  then txt "NFT/ERC721"
  else if contains (txt "erc1155") code_lower
  then txt "ERC1155"
  else if contains (txt "swap") code_lower || contains (txt "liquidity") code_lower
  then txt "DeFi/DEX"
  else if contains (txt "stake") code_lower || contains (txt "reward") code_lower
  then txt "Staking"
  else if contains (txt "governance") code_lower || contains (txt "vote") code_lower
  then txt "Governance"
  else if contains (txt "proxy") code_lower || contains (txt "upgradeable") code_lower
  then txt "Proxy/Upgradeable"
  else txt "Generic Contract".

(** The records of the response the loop visits. *)
Definition records_of (response : json) : outcome (list json) :=
  get response "vulnerabilities" (JArr []) ≫= iterate.

(** The text [analyze] hands to [json.loads]: what stands between the
    first code fence, tagged [json] or plain, and the next one. *)
Definition fence : str := txt "```".
Definition json_fence : str := txt "```json".

Definition between_fences (response_text opening : str) (skip : Z) : str :=
  let json_start := Text.find opening response_text 0 + skip in
  let json_end := Text.find fence response_text (Z.to_nat json_start) in
  strip (slice response_text json_start json_end).

Definition unwrap_response (response_text : str) : str :=
  if contains json_fence response_text then between_fences response_text json_fence 7
  else if contains fence response_text then between_fences response_text fence 3
  else response_text.

End AIReasoning.

(** ** The request validator ([app/schemas/audit.py]) *)

Module Schemas.
Import Text Base.

(** [AuditRequest.validate_code]. *)
Definition validate_code (v : str) : outcome str :=
  if (length (strip v) =? 0)%nat then Raise (Exception "ValueError")
  else if 10 * 1024 * 1024 <? Z.of_nat (length v) then Raise (Exception "ValueError")
  else Return v.

End Schemas.

(** ** Counting and scoring in the audit task ([app/api/routes/audit.py]) *)

Module Pipeline.
Import Scoring.

(** One turn of the loop over the merged findings: [severity] is the
    finding's [severity], a string for every finding the detectors and the
    normaliser produce; a severity that is no key of the dict is passed
    over. *)
Definition count_step (severity_counts : gmap string Z) (severity : string)
  : gmap string Z :=
  match severity_counts !! severity with
  | Some n => <[severity := n + 1]> severity_counts
  | None => severity_counts
  end.

Definition count_severities (severities : list string) : gmap string Z :=
  fold_left count_step severities (histogram 0 0 0 0 0).

(** [audit.risk_score] and [audit.security_rating]. *)
Definition risk_score_of (severities : list string) : Z :=
  calculate_risk_score (count_severities severities).

Definition security_rating_of (severities : list string) : string :=
  calculate_security_rating (risk_score_of severities).

(** [audit.total_lines]. *)
Definition total_lines (contract_code : Text.str) : nat :=
  length (Text.split_lines contract_code).

(** How many of the findings carry the severity [level]. *)
Definition occurrences (level : string) (severities : list string) : Z :=
  Z.of_nat (length (filter (λ s, s = level) severities)).

Definition levels : list string :=
  ["critical"; "high"; "medium"; "low"; "info"]%string.

End Pipeline.

(** ** Source lines and selections the properties speak about *)

Module Samples.
Import Text Regex Base.

Definition solidity : str := txt "solidity".

Definition tx_origin_check : str := txt "require(tx.origin == owner);".

Definition low_level_call : str :=
  txt "(bool success, ) = target.call(" ++ [dq; dq] ++ txt ");".

Definition require_success : str :=
  txt "require(success, " ++ [dq] ++ txt "failed" ++ [dq] ++ txt ");".

(** The findings that reference line [n]. *)
Definition at_line (n : nat) (fs : list Finding) : list Finding :=
  filter (λ f, line_number f = Some n) fs.

(** The source whose line [i] has been replaced by [line]. *)
Definition with_line (code : str) (i : nat) (line : str) : str :=
  join_lines (<[i := line]> (split_lines code)).

(** A line with an assignment to an indexed name: [name[index] =]. *)
Definition bracket_assignment (l : str) : Prop :=
  ∃ pre name idx ws post,
    l = pre ++ name ++ "["%char :: idx ++ "]"%char :: ws ++ "="%char :: post
    ∧ name ≠ [] ∧ Forall (λ c, is_word c = true) name
    ∧ idx ≠ [] ∧ Forall (λ c, is_word c = true ∨ c = "."%char) idx
    ∧ Forall (λ c, is_space c = true) ws.

(** The number a free-text estimate starts its first run of digits with,
    0 when it has no digit. *)
Fixpoint leading_digits (s : str) : str :=
  match s with
  | c :: s' => if is_digit c then c :: leading_digits s' else []
  | [] => []
  end.

Fixpoint first_digits (s : str) : str :=
  match s with
  | c :: s' => if is_digit c then c :: leading_digits s' else first_digits s'
  | [] => []
  end.

Definition decimal (ds : str) : Z :=
  fold_left (λ acc c, 10 * acc + digit_value c) ds 0.

Definition first_number (s : str) : Z := decimal (first_digits s).

(** The sum of the numbers the entries' savings estimates give. *)
Definition total_savings (os : list GasAnalyzer.GasOptimization) : Z :=
  foldr (λ o acc, first_number (GasAnalyzer.savings o) + acc) 0 os.

(** A response of the agreed shape: a dict whose [overall_risk], when
    given, is a string and whose [vulnerabilities], when given, is a list
    of dicts whose [severity] and [exploitability], when given, are
    strings. *)
Definition text_or_absent (m : gmap str AIReasoning.json) (key : string) : Prop :=
  m !! txt key = None ∨ ∃ s, m !! txt key = Some (AIReasoning.JStr s).

Definition well_formed_record (v : AIReasoning.json) : Prop :=
  ∃ m, v = AIReasoning.JObj m
       ∧ text_or_absent m "severity" ∧ text_or_absent m "exploitability".

Definition well_formed_response (response : AIReasoning.json) : Prop :=
  ∃ m, response = AIReasoning.JObj m
       ∧ text_or_absent m "overall_risk"
       ∧ (m !! txt "vulnerabilities" = None
          ∨ ∃ vs, m !! txt "vulnerabilities" = Some (AIReasoning.JArr vs)
                  ∧ Forall well_formed_record vs).

(** The line numbers of a list of findings, in order. *)
Definition line_numbers (fs : list Finding) : list nat := omap line_number fs.

(** The texts the reentrancy detector takes for an external call. *)
Definition call_markers : list str :=
  [txt ".call{"; txt ".call("; txt ".delegatecall("; txt ".send("; txt ".transfer("].

(** Text whose braces are matched. *)
Inductive balanced : str → Prop :=
| balanced_nil : balanced []
| balanced_char (c : ascii) (t : str) :
    c ≠ "{"%char → c ≠ "}"%char → balanced t → balanced (c :: t)
| balanced_block (inner t : str) :
    balanced inner → balanced t → balanced ("{"%char :: inner ++ "}"%char :: t).

(** What the static detectors put in every finding. *)
Definition static_finding (code : str) (f : Finding) : Prop :=
  category f = txt "security" ∧ detected_by f = txt "static" ∧ confidence f = 90
  ∧ rule_id f ∈ [txt "SEN-001"; txt "SEN-002"; txt "SEN-003"; txt "SEN-004";
                 txt "SEN-005"]
  ∧ severity f ∈ [txt "critical"; txt "high"; txt "medium"]
  ∧ ∃ n, line_number f = Some n ∧ (1 ≤ n ≤ length (split_lines code))%nat.

(** The severities the audit task reads off a list of findings. *)
Definition severities_of (fs : list Finding) : list string :=
  map (λ f, string_of_list_ascii (severity f)) fs.

(** A non-empty run of decimal digits. *)
Definition digits_ok (s : str) : Prop := s ≠ [] ∧ Forall (λ c, is_digit c = true) s.

(** The text after the last line break of [a], and the text before the
    first line break of [b]. *)
Definition last_line (a : str) : str := default [] (last (split_lines a)).
Definition first_line (b : str) : str := default [] (head (split_lines b)).

(** The window of lines [get_line_context] shows. *)
Definition context_window (lines : list str) (line_number context_lines : nat)
  : list str :=
  let start := (line_number - context_lines - 1)%nat in
  let stop := Nat.min (length lines) (line_number + context_lines) in
  take (stop - start) (drop start lines).

(** Findings that come one per line, in source order, on lines of the
    source. *)
Definition reported_in_order (code : str) (fs : list Finding) : Prop :=
  StronglySorted lt (line_numbers fs)
  ∧ length (line_numbers fs) = length fs
  ∧ Forall (λ n, 1 ≤ n ≤ length (split_lines code))%nat (line_numbers fs).

(** How many findings carry the severity [level]. *)
Definition severity_count (level : string) (fs : list Finding) : Z :=
  Z.of_nat (length (filter (λ f, severity f = txt level) fs)).

(** The source holds [keyword] in some mix of upper and lower case. *)
Definition mentions (keyword : string) (code : str) : Prop :=
  ∃ pre w post, code = pre ++ w ++ post ∧ lower w = txt keyword.

(** The words [_detect_contract_type] looks for, and its answers. *)
Definition contract_keywords : list string :=
  ["erc20"; "totalsupply"; "erc721"; "nft"; "erc1155"; "swap"; "liquidity";
   "stake"; "reward"; "governance"; "vote"; "proxy"; "upgradeable"]%string.

Definition contract_types : list str :=
  [txt "ERC20 Token"; txt "NFT/ERC721"; txt "ERC1155"; txt "DeFi/DEX";
   txt "Staking"; txt "Governance"; txt "Proxy/Upgradeable"; txt "Generic Contract"].

End Samples.

(** ** Properties of the scoring functions *)

Module ScoringFacts.
Import Scoring.

Lemma weights_cases (k : string) :
  (k = "critical"%string ∧ weights !! k = Some 25)
  ∨ (k = "high"%string ∧ weights !! k = Some 15)
  ∨ (k = "medium"%string ∧ weights !! k = Some 8)
  ∨ (k = "low"%string ∧ weights !! k = Some 3)
  ∨ (k = "info"%string ∧ weights !! k = Some 1)
  ∨ (k ≠ "critical"%string ∧ k ≠ "high"%string ∧ k ≠ "medium"%string
     ∧ k ≠ "low"%string ∧ k ≠ "info"%string ∧ weights !! k = None).
Proof.
  unfold weights.
  destruct (decide (k = "critical"%string)) as [->|?]; [left; by rewrite lookup_insert_eq|].
  destruct (decide (k = "high"%string)) as [->|?]; [right; left; by simplify_map_eq|].
  destruct (decide (k = "medium"%string)) as [->|?]; [do 2 right; left; by simplify_map_eq|].
  destruct (decide (k = "low"%string)) as [->|?]; [do 3 right; left; by simplify_map_eq|].
  destruct (decide (k = "info"%string)) as [->|?]; [do 4 right; left; by simplify_map_eq|].
  do 5 right. repeat split; try done. by simplify_map_eq.
Qed.

Lemma risk_step_comm (j1 j2 : string) (z1 z2 y : Z) :
  risk_step j1 z1 (risk_step j2 z2 y) = risk_step j2 z2 (risk_step j1 z1 y).
Proof.
  unfold risk_step.
  destruct (weights !! j1), (weights !! j2); lia.
Qed.

Lemma count_of_insert_eq (m : gmap string Z) (k : string) (v : Z) :
  count_of (<[k := v]> m) k = v.
Proof. unfold count_of. by rewrite lookup_insert_eq. Qed.

Lemma count_of_insert_ne (m : gmap string Z) (k k' : string) (v : Z) :
  k ≠ k' → count_of (<[k := v]> m) k' = count_of m k'.
Proof. intros. unfold count_of. by rewrite lookup_insert_ne. Qed.

Lemma count_of_fresh (m : gmap string Z) (k : string) :
  m !! k = None → count_of m k = 0.
Proof. unfold count_of. by intros ->. Qed.

(** The loop subtracts, whatever the iteration order of the dict, the
    weighted sum of the five levels; other keys are ignored. *)
Lemma risk_fold_penalty (m : gmap string Z) (b : Z) :
  map_fold risk_step b m = b - penalty m.
Proof.
  induction m as [|k v m Hk IH] using map_ind.
  - rewrite map_fold_empty. unfold penalty, count_of.
    rewrite !lookup_empty. simpl. lia.
  - rewrite map_fold_insert_L; [|intros; apply risk_step_comm|done].
    rewrite IH. unfold risk_step, penalty.
    destruct (weights_cases k) as [[-> ->]|[[-> ->]|[[-> ->]|[[-> ->]|[[-> ->]|(?&?&?&?&?& ->)]]]]];
      rewrite ?count_of_insert_eq, ?count_of_insert_ne by done;
      rewrite ?(count_of_fresh m _ Hk); lia.
Qed.

(** C1: for every severity histogram, [calculate_risk_score] is
    [max(0, 100 - (25*critical + 15*high + 8*medium + 3*low + 1*info))];
    the all-zero histogram scores 100 and four criticals score exactly 0. *)
Theorem calculate_risk_score_formula :
  (∀ severity_counts : gmap string Z,
      calculate_risk_score severity_counts
      = Z.max 0 (100 - (25 * count_of severity_counts "critical"
                        + 15 * count_of severity_counts "high"
                        + 8 * count_of severity_counts "medium"
                        + 3 * count_of severity_counts "low"
                        + 1 * count_of severity_counts "info")))
  ∧ (∀ critical high medium low info : Z,
      calculate_risk_score (histogram critical high medium low info)
      = Z.max 0 (100 - (25 * critical + 15 * high + 8 * medium + 3 * low + 1 * info)))
  ∧ calculate_risk_score (histogram 0 0 0 0 0) = 100
  ∧ calculate_risk_score (histogram 4 0 0 0 0) = 0.
Proof.
  assert (Hgen : ∀ m, calculate_risk_score m = Z.max 0 (100 - penalty m)).
  { intros m. unfold calculate_risk_score. by rewrite risk_fold_penalty. }
  assert (Hhist : ∀ c h m l i, penalty (histogram c h m l i)
                               = 25 * c + 15 * h + 8 * m + 3 * l + 1 * i).
  { intros. unfold penalty, histogram.
    rewrite ?count_of_insert_eq, ?count_of_insert_ne by done.
    rewrite ?count_of_insert_eq, ?count_of_insert_ne by done.
    rewrite ?count_of_insert_eq, ?count_of_insert_ne by done.
    rewrite ?count_of_insert_eq, ?count_of_insert_ne by done.
    rewrite ?count_of_insert_eq, ?count_of_insert_ne by done.
    done. }
  split; [intros m; rewrite Hgen; unfold penalty; done|].
  split; [intros; by rewrite Hgen, Hhist|].
  split; rewrite Hgen, Hhist; lia.
Qed.

(** C2: [calculate_security_rating] is defined on every integer, returns
    one of the eleven grades, follows the band table, and two histograms
    with the same score get the same rating. *)
Theorem calculate_security_rating_bands (risk_score : Z) :
  calculate_security_rating risk_score ∈ grades
  ∧ (95 ≤ risk_score → calculate_security_rating risk_score = "A+"%string)
  ∧ (90 ≤ risk_score < 95 → calculate_security_rating risk_score = "A"%string)
  ∧ (85 ≤ risk_score < 90 → calculate_security_rating risk_score = "A-"%string)
  ∧ (80 ≤ risk_score < 85 → calculate_security_rating risk_score = "B+"%string)
  ∧ (75 ≤ risk_score < 80 → calculate_security_rating risk_score = "B"%string)
  ∧ (70 ≤ risk_score < 75 → calculate_security_rating risk_score = "B-"%string)
  ∧ (65 ≤ risk_score < 70 → calculate_security_rating risk_score = "C+"%string)
  ∧ (60 ≤ risk_score < 65 → calculate_security_rating risk_score = "C"%string)
  ∧ (55 ≤ risk_score < 60 → calculate_security_rating risk_score = "C-"%string)
  ∧ (50 ≤ risk_score < 55 → calculate_security_rating risk_score = "D"%string)
  ∧ (risk_score < 50 → calculate_security_rating risk_score = "F"%string)
  ∧ (∀ h1 h2 : gmap string Z,
        calculate_risk_score h1 = risk_score →
        calculate_risk_score h2 = risk_score →
        calculate_security_rating (calculate_risk_score h1)
        = calculate_security_rating (calculate_risk_score h2)).
Proof.
  unfold calculate_security_rating, grades.
  split; [repeat case_match; set_solver|].
  repeat split; intros; repeat case_match; first [lia | congruence].
Qed.

Lemma calculate_security_rating_bands_witness :
  calculate_security_rating 92 = "A"%string.
Proof.
  apply (proj1 (proj2 (proj2 (calculate_security_rating_bands 92)))). lia.
Defined.

End ScoringFacts.

(** ** The matcher against the words a pattern denotes *)

Module RegexFacts.
Import Text Regex.

Lemma startswith_spec (p s : str) :
  startswith p s = true ↔ ∃ rest, s = p ++ rest.
Proof.
  revert s. induction p as [|a p IH]; intros s; simpl.
  - split; eauto.
  - destruct s as [|b s].
    + split; [done|]. intros [rest H]. discriminate.
    + rewrite andb_true_iff, IH, Ascii.eqb_eq. split.
      * intros [-> [rest ->]]. eauto.
      * intros [rest H]. simplify_eq. eauto.
Qed.

Lemma find_aux_some (sub s : str) (pos : nat) :
  is_Some (find_aux sub s pos) ↔ ∃ pre post, s = pre ++ sub ++ post.
Proof.
  revert pos. induction s as [|c s IH]; intros pos; simpl.
  - destruct (startswith sub []) eqn:E.
    + apply startswith_spec in E as [rest E]. split; [|eauto].
      intros _. exists [], rest. done.
    + split; [intros [? ?]; done|]. intros (pre & post & H).
      destruct pre; simpl in H.
      * assert (startswith sub [] = true) by (apply startswith_spec; eauto). congruence.
      * discriminate.
  - destruct (startswith sub (c :: s)) eqn:E.
    + apply startswith_spec in E as [rest E]. split; [|eauto].
      intros _. exists [], rest. done.
    + rewrite IH. split.
      * intros (pre & post & ->). exists (c :: pre), post. done.
      * intros (pre & post & H). destruct pre as [|c' pre]; simpl in H.
        -- assert (startswith sub (c :: s) = true) by (apply startswith_spec; eauto).
           congruence.
        -- simplify_eq. eauto.
Qed.

Lemma contains_spec (sub s : str) :
  contains sub s = true ↔ ∃ pre post, s = pre ++ sub ++ post.
Proof.
  unfold contains. rewrite <- (find_aux_some sub s 0).
  destruct (find_aux sub s 0); split; try done; eauto.
Qed.

Lemma contains_false (sub s : str) :
  contains sub s = false ↔ ¬ ∃ pre post, s = pre ++ sub ++ post.
Proof. rewrite <- contains_spec. destruct (contains sub s); naive_solver. Qed.

Lemma star_m_sound {R} p prev s (k : option ascii → str → option R) x :
  star_m p prev s k = Some x →
  ∃ w s' prev', s = w ++ s' ∧ Forall (λ c, p c = true) w ∧ k prev' s' = Some x.
Proof.
  revert prev. induction s as [|c s IH]; intros prev H; simpl in H.
  - exists [], [], prev. done.
  - destruct (p c) eqn:Hp; [|exists [], (c :: s), prev; done].
    destruct (star_m p (Some c) s k) eqn:E.
    + simplify_eq. apply IH in E as (w & s' & prev' & -> & Hw & Hk).
      exists (c :: w), s', prev'. split; [done|]. split; [by constructor|done].
    + exists [], (c :: s), prev. done.
Qed.

Lemma star_m_complete {R} p w s' (k : option ascii → str → option R) :
  Forall (λ c, p c = true) w →
  (∀ prev', is_Some (k prev' s')) →
  ∀ prev, is_Some (star_m p prev (w ++ s') k).
Proof.
  intros Hw Hk. induction Hw as [|c w Hc Hw IH]; intros prev; simpl.
  - destruct s' as [|c s']; simpl; [apply Hk|].
    destruct (p c); [|apply Hk].
    destruct (star_m p (Some c) s' k); [eauto|apply Hk].
  - rewrite Hc. destruct (IH (Some c)) as [y ->]. eauto.
Qed.

Lemma m_sound {R} r :
  ∀ prev s caps (k : option ascii → str → captures → option R) x,
    m r prev s caps k = Some x →
    ∃ w s' prev' caps', s = w ++ s' ∧ lang r w ∧ k prev' s' caps' = Some x.
Proof.
  induction r as [|c|p|p|r1 IH1 r2 IH2|r1 IH1 r2 IH2|n r IH|];
    intros prev s caps k x H; simpl in H.
  - exists [], s, prev, caps. done.
  - destruct s as [|a s]; [done|]. destruct (Ascii.eqb a c) eqn:E; [|done].
    apply Ascii.eqb_eq in E as ->. exists [c], s, (Some c), caps. done.
  - destruct s as [|a s]; [done|]. destruct (p a) eqn:E; [|done].
    exists [a], s, (Some a), caps. simpl. eauto.
  - apply star_m_sound in H as (w & s' & prev' & -> & Hw & Hk).
    exists w, s', prev', caps. done.
  - apply IH1 in H as (w1 & s1 & p1 & c1 & -> & L1 & H).
    apply IH2 in H as (w2 & s2 & p2 & c2 & -> & L2 & H).
    exists (w1 ++ w2), s2, p2, c2. rewrite <- app_assoc.
    split; [done|]. split; [|done]. simpl. eauto.
  - destruct (m r1 prev s caps k) eqn:E.
    + simplify_eq. apply IH1 in E as (w & s' & p' & c' & -> & L & H).
      exists w, s', p', c'. simpl. eauto.
    + apply IH2 in H as (w & s' & p' & c' & -> & L & H).
      exists w, s', p', c'. simpl. eauto.
  - apply IH in H as (w & s' & p' & c' & -> & L & H). eauto 10.
  - destruct (xorb _ _); [|done]. exists [], s, prev, caps. done.
Qed.

Lemma m_complete {R} r :
  bnd_free r = true →
  ∀ w s' (k : option ascii → str → captures → option R),
    lang r w →
    (∀ prev' caps', is_Some (k prev' s' caps')) →
    ∀ prev caps, is_Some (m r prev (w ++ s') caps k).
Proof.
  induction r as [|c|p|p|r1 IH1 r2 IH2|r1 IH1 r2 IH2|n r IH|];
    simpl; intros Hb w s' k L Hk prev caps.
  - subst. apply Hk.
  - subst. simpl. rewrite Ascii.eqb_refl. apply Hk.
  - destruct L as (c & -> & Hc). simpl. rewrite Hc. apply Hk.
  - apply star_m_complete; [done|]. intros. apply Hk.
  - apply andb_true_iff in Hb as [Hb1 Hb2].
    destruct L as (w1 & w2 & -> & L1 & L2). rewrite <- app_assoc.
    apply IH1; [done..|]. intros. by apply IH2.
  - apply andb_true_iff in Hb as [Hb1 Hb2]. destruct L as [L|L].
    + destruct (IH1 Hb1 w s' k L Hk prev caps) as [y ->]. eauto.
    + destruct (m r1 prev (w ++ s') caps k); [eauto|]. by apply IH2.
  - apply IH; [done..|]. intros. apply Hk.
  - done.
Qed.

Lemma fullmatch_lang (r : re) (w : str) : fullmatch r w = true → lang r w.
Proof.
  unfold fullmatch. intros H.
  destruct (m r None w [] _) eqn:E; [|done].
  apply m_sound in E as (w' & s' & ? & ? & -> & L & Hk).
  destruct s'; [|done]. by rewrite app_nil_r.
Qed.

Lemma match_here_some (r : re) (prev : option ascii) (s : str) :
  bnd_free r = true →
  is_Some (match_here r prev s) ↔ ∃ w s', s = w ++ s' ∧ lang r w.
Proof.
  intros Hb. unfold match_here. split.
  - intros [x H]. apply m_sound in H as (w & s' & ? & ? & -> & L & _). eauto.
  - intros (w & s' & -> & L). apply m_complete; eauto.
Qed.

Lemma search_aux_some (r : re) (s : str) :
  bnd_free r = true →
  ∀ prev pos,
    is_Some (search_aux r prev s pos) ↔ ∃ pre w post, s = pre ++ w ++ post ∧ lang r w.
Proof.
  intros Hb. induction s as [|c s IH]; intros prev pos; simpl.
  - pose proof (match_here_some r prev [] Hb) as Hm.
    destruct (match_here r prev []) as [[n caps]|].
    + split; [|eauto]. intros _.
      destruct (proj1 Hm) as (w & s' & E & L); [eauto|]. exists [], w, s'. done.
    + split; [intros [? ?]; done|]. intros (pre & w & post & E & L).
      destruct pre; [|done]. simpl in E.
      destruct (proj2 Hm) as [? ?]; [eauto|done].
  - pose proof (match_here_some r prev (c :: s) Hb) as Hm.
    destruct (match_here r prev (c :: s)) as [[n caps]|].
    + split; [|eauto]. intros _.
      destruct (proj1 Hm) as (w & s' & E & L); [eauto|]. exists [], w, s'. done.
    + rewrite IH. split.
      * intros (pre & w & post & -> & L). exists (c :: pre), w, post. done.
      * intros (pre & w & post & E & L). destruct pre as [|c' pre]; simpl in E.
        -- destruct (proj2 Hm) as [? ?]; [eauto|done].
        -- simplify_eq. eauto.
Qed.

(** [re.search] succeeds exactly when some substring is a word of the
    pattern. *)
Lemma found_spec (r : re) (s : str) :
  bnd_free r = true →
  found r s = true ↔ ∃ pre w post, s = pre ++ w ++ post ∧ lang r w.
Proof.
  intros Hb. unfold found, search.
  rewrite <- (search_aux_some r s Hb None 0).
  destruct (search_aux r None s 0); split; try done; eauto.
Qed.

Lemma found_inside (r : re) (pre w post : str) :
  bnd_free r = true → fullmatch r w = true → found r (pre ++ w ++ post) = true.
Proof.
  intros Hb Hw. apply found_spec; [done|].
  exists pre, w, post. eauto using fullmatch_lang.
Qed.

Lemma lang_Lit (s w : str) : lang (Lit s) w ↔ w = s.
Proof.
  revert w. induction s as [|c s IH]; intros w; [done|].
  destruct s as [|c' s]; [done|].
  change (lang (Lit (c :: c' :: s)) w)
    with (∃ w1 w2, w = w1 ++ w2 ∧ w1 = [c] ∧ lang (Lit (c' :: s)) w2).
  split.
  - intros (w1 & w2 & -> & -> & L). apply IH in L as ->. done.
  - intros ->. exists [c], (c' :: s). by rewrite IH.
Qed.

Lemma lang_Plus (p : ascii → bool) (w : str) :
  lang (Plus p) w ↔ w ≠ [] ∧ Forall (λ c, p c = true) w.
Proof.
  simpl. split.
  - intros (w1 & w2 & -> & (c & -> & Hc) & Hw). split; [done|]. by constructor.
  - intros [Hne Hw]. destruct Hw as [|c w Hc Hw]; [done|].
    exists [c], w. eauto 10.
Qed.

Lemma lang_Seq_cons (r : re) (rs : list re) (w : str) :
  lang (Seq (r :: rs)) w ↔ ∃ w1 w2, w = w1 ++ w2 ∧ lang r w1 ∧ lang (Seq rs) w2.
Proof.
  destruct rs as [|r' rs]; [|done]. simpl. split.
  - intros L. exists w, []. by rewrite app_nil_r.
  - intros (w1 & w2 & -> & L & ->). by rewrite app_nil_r.
Qed.

(** A word of a pattern that goes through a literal contains it. *)
Lemma lang_Seq_contains (lit : str) (before after : list re) (w : str) :
  lang (Seq (before ++ Lit lit :: after)) w → contains lit w = true.
Proof.
  revert w. induction before as [|r before IH]; intros w; simpl app.
  - rewrite lang_Seq_cons. intros (w1 & w2 & -> & L & _).
    apply lang_Lit in L as ->. apply contains_spec. exists [], w2. done.
  - rewrite lang_Seq_cons. intros (w1 & w2 & -> & _ & L).
    apply IH, contains_spec in L as (pre & post & ->).
    apply contains_spec. exists (w1 ++ pre), post. by rewrite <- app_assoc.
Qed.

Lemma contains_app_l (a b s : str) :
  contains (a ++ b) s = true → contains a s = true.
Proof.
  rewrite !contains_spec. intros (pre & post & ->).
  exists pre, (b ++ post). by rewrite <- app_assoc.
Qed.

Lemma contains_inside (sub pre w post : str) :
  contains sub w = true → contains sub (pre ++ w ++ post) = true.
Proof.
  rewrite !contains_spec. intros (a & b & ->).
  exists (pre ++ a), (b ++ post). by rewrite <- !app_assoc.
Qed.

End RegexFacts.

(** ** Line-by-line scans *)

Module BaseFacts.
Import Text Regex Base.

Lemma filter_none {A} (P : A → Prop) `{∀ x, Decision (P x)} (l : list A) :
  (∀ x, x ∈ l → ¬ P x) → filter P l = [].
Proof.
  induction l as [|x l IH]; intros Hl; [done|].
  rewrite filter_cons_False by (apply Hl; left).
  apply IH. intros y Hy. apply Hl. by right.
Qed.

Lemma filter_all {A} (P : A → Prop) `{∀ x, Decision (P x)} (l : list A) :
  (∀ x, x ∈ l → P x) → filter P l = l.
Proof.
  induction l as [|x l IH]; intros Hl; [done|].
  rewrite filter_cons_True by (apply Hl; left).
  f_equal. apply IH. intros y Hy. apply Hl. by right.
Qed.

Lemma filter_agree {A} (P Q : A → Prop) `{∀ x, Decision (P x)} `{∀ x, Decision (Q x)}
    (l : list A) :
  (∀ x, x ∈ l → P x ↔ Q x) → filter P l = filter Q l.
Proof.
  induction l as [|x l IH]; intros Hl; [done|].
  assert (filter P l = filter Q l) as IH' by (apply IH; intros; apply Hl; by right).
  destruct (decide (P x)) as [HP|HP].
  - rewrite !filter_cons_True; [by f_equal|by apply Hl; [left|]|done].
  - rewrite !filter_cons_False; [done| |done]. intros HQ. apply HP, Hl; [left|done].
Qed.

Lemma existsb_false {A} (f : A → bool) (l : list A) :
  existsb f l = false ↔ ∀ x, x ∈ l → f x = false.
Proof.
  induction l as [|a l IH]; simpl.
  - split; [intros _ x Hx; by apply elem_of_nil in Hx|done].
  - rewrite orb_false_iff, IH. split.
    + intros [Ha Hl] x [->|Hx]%elem_of_cons; auto.
    + intros H. split; [apply H; left|]. intros x Hx. apply H. by right.
Qed.

Lemma existsb_true {A} (f : A → bool) (l : list A) (x : A) :
  x ∈ l → f x = true → existsb f l = true.
Proof.
  intros Hx Hf. destruct (existsb f l) eqn:E; [done|].
  rewrite existsb_false in E. by rewrite (E x Hx) in Hf.
Qed.

Section PerLine.
(** A scan that reports on line [j + 1] only what it finds at index [j]. *)
Variable g : nat → str → list Finding.
Hypothesis g_line : ∀ j l f, f ∈ g j l → line_number f = Some (j + 1)%nat.

Lemma scan_later_lines (n k : nat) (lines : list str) :
  (n < k)%nat →
  filter (λ f, line_number f = Some (n + 1)%nat)
         (flat_map (λ '(j, l), g j l) (enumerate_from k lines)) = [].
Proof.
  revert k. induction lines as [|l lines IH]; intros k Hk; [done|].
  simpl. rewrite filter_app, IH by lia. rewrite app_nil_r.
  apply filter_none. intros f Hf E. apply g_line in Hf.
  rewrite Hf in E. simplify_eq. lia.
Qed.

Lemma scan_at_line (lines : list str) :
  ∀ k i line,
    lines !! i = Some line →
    filter (λ f, line_number f = Some (k + i + 1)%nat)
           (flat_map (λ '(j, l), g j l) (enumerate_from k lines))
    = g (k + i)%nat line.
Proof.
  induction lines as [|l lines IH]; intros k i line Hi; [done|].
  simpl. rewrite filter_app. destruct i as [|i]; simpl in Hi.
  - simplify_eq. rewrite scan_later_lines by lia.
    rewrite app_nil_r, Nat.add_0_r. apply filter_all. intros f Hf.
    apply g_line in Hf. rewrite Hf. f_equal.
  - rewrite (filter_none _ (g k l)).
    + simpl. replace (k + S i)%nat with (S k + i)%nat by lia. by apply IH.
    + intros f Hf E. apply g_line in Hf. rewrite Hf in E. simplify_eq. lia.
Qed.

(** The findings of the whole scan that carry line number [i + 1] are
    those of the scan of line [i]. *)
Lemma scan_line_findings (lines : list str) (i : nat) (line : str) :
  lines !! i = Some line →
  filter (λ f, line_number f = Some (i + 1)%nat)
         (flat_map (λ '(j, l), g j l) (enumerate lines))
  = g i line.
Proof. intros Hi. apply (scan_at_line lines 0 i line Hi). Qed.
End PerLine.

(** No occurrence of [old] is left by [replace] when the first character
    of [new] is not in [old] and the first of [old] is not in [new]. *)
Section Replace.
Variables (old new : str) (o0 n0 : ascii) (old' new' : str).
Hypothesis old_eq : old = o0 :: old'.
Hypothesis new_eq : new = n0 :: new'.
Hypothesis n0_fresh : n0 ∉ old.
Hypothesis o0_fresh : o0 ∉ new.

Lemma replace_prefix (s : str) :
  ∀ p, n0 ∉ p →
       startswith p (replace_aux old new s 0) = true → startswith p s = true.
Proof.
  induction s as [|c s IH]; intros p Hp; [done|].
  simpl. destruct (startswith old (c :: s)) eqn:E.
  - rewrite new_eq. simpl. destruct p as [|a p]; [done|].
    simpl. intros [->%Ascii.eqb_eq _]%andb_true_iff.
    exfalso. apply Hp. left.
  - destruct p as [|a p]; [done|]. simpl.
    intros [Ha Hrest]%andb_true_iff. rewrite Ha. simpl.
    apply IH; [|done]. intros ?. apply Hp. by right.
Qed.

Lemma replace_aux_clean (s : str) :
  ∀ skip, contains old (replace_aux old new s skip) = false.
Proof.
  induction s as [|c s IH]; intros skip.
  - simpl. rewrite old_eq. done.
  - simpl. destruct skip as [|k]; [|apply IH].
    apply RegexFacts.contains_false. intros (pre & post & E).
    destruct (startswith old (c :: s)) eqn:Hs.
    + apply app_eq_inv in E as [(k & E1 & E2)|(k & E1 & E2)].
      * destruct k as [|a k].
        -- specialize (IH (length old - 1)%nat).
           apply RegexFacts.contains_false in IH. apply IH.
           exists [], post. simpl in E2. by rewrite E2.
        -- rewrite old_eq in E2. simpl in E2. simplify_eq.
           apply o0_fresh. rewrite E1. set_solver.
      * specialize (IH (length old - 1)%nat).
        apply RegexFacts.contains_false in IH. apply IH. eauto.
    + destruct pre as [|a pre]; simpl in E.
      * assert (startswith old (replace_aux old new (c :: s) 0) = true) as H.
        { simpl. rewrite Hs. apply RegexFacts.startswith_spec. eauto. }
        apply replace_prefix in H; [congruence|done].
      * simplify_eq. specialize (IH 0%nat).
        apply RegexFacts.contains_false in IH. apply IH. eauto.
Qed.
End Replace.

Lemma replace_tx_origin_clean (s : str) :
  contains (txt "tx.origin") (replace (txt "tx.origin") (txt "msg.sender") s) = false.
Proof.
  unfold replace.
  eapply (replace_aux_clean _ _ "t"%char "m"%char); try reflexivity.
  - intros H. by repeat (apply elem_of_cons in H as [H|H]; [done|]); apply elem_of_nil in H.
  - intros H. by repeat (apply elem_of_cons in H as [H|H]; [done|]); apply elem_of_nil in H.
Qed.

End BaseFacts.

(** ** The tx.origin detector *)

Module TxOriginFacts.
Import Text Regex Base TxOrigin RegexFacts BaseFacts Samples.

Lemma split_on_no_sep (sep : ascii) (l : str) :
  sep ∉ l → split_on sep l = [l].
Proof.
  induction l as [|c l IH]; intros Hl; [done|]. simpl.
  destruct (Ascii.eqb c sep) eqn:E.
  - apply Ascii.eqb_eq in E as ->. exfalso. apply Hl. left.
  - rewrite IH; [done|]. intros ?. apply Hl. by right.
Qed.

Lemma split_on_app_sep (sep : ascii) (l rest : str) :
  sep ∉ l → split_on sep (l ++ sep :: rest) = l :: split_on sep rest.
Proof.
  induction l as [|c l IH]; intros Hl; simpl.
  - by rewrite Ascii.eqb_refl.
  - destruct (Ascii.eqb c sep) eqn:E.
    + apply Ascii.eqb_eq in E as ->. exfalso. apply Hl. left.
    + rewrite IH; [done|]. intros ?. apply Hl. by right.
Qed.

Lemma split_on_lines (sep : ascii) (s : str) :
  Forall (λ l, sep ∉ l) (split_on sep s) ∧ split_on sep s ≠ [].
Proof.
  induction s as [|c s [IH1 IH2]]; simpl.
  - split; [|done]. repeat constructor. apply not_elem_of_nil.
  - destruct (Ascii.eqb c sep) eqn:E.
    + split; [|done]. constructor; [apply not_elem_of_nil|done].
    + destruct (split_on sep s) as [|l ls]; [done|]. split; [|done].
      apply Forall_cons in IH1 as [Hl Hls]. constructor; [|done].
      intros [->|?]%elem_of_cons; [|done]. by rewrite Ascii.eqb_refl in E.
Qed.

(** Joining lines and splitting again gives the lines back. *)
Lemma split_join (ls : list str) :
  ls ≠ [] → Forall (λ l, nl ∉ l) ls → split_lines (join_lines ls) = ls.
Proof.
  unfold split_lines. induction ls as [|l ls IH]; intros Hne Hls; [done|].
  apply Forall_cons in Hls as [Hl Hls].
  destruct ls as [|l' ls]; simpl.
  - by apply split_on_no_sep.
  - rewrite split_on_app_sep by done. f_equal. by apply IH.
Qed.

Lemma replace_aux_chars (old new s : str) (c : ascii) :
  ∀ skip, c ∈ replace_aux old new s skip → c ∈ s ∨ c ∈ new.
Proof.
  induction s as [|a s IH]; intros skip; simpl; [by left|].
  destruct skip as [|k].
  - destruct (startswith old (a :: s)).
    + intros [?|H]%elem_of_app; [by right|].
      apply IH in H as [?|?]; [left; by right|by right].
    + intros [->|H]%elem_of_cons; [left; left|].
      apply IH in H as [?|?]; [left; by right|by right].
  - intros H. apply IH in H as [?|?]; [left; by right|by right].
Qed.

(** Replacing a line of a source changes that line of it and no other. *)
Lemma split_with_line (code : str) (i : nat) (line : str) :
  nl ∉ line →
  split_lines (with_line code i line) = <[i := line]> (split_lines code).
Proof.
  intros Hl. unfold with_line. apply split_join.
  - destruct (split_on_lines nl code) as [_ Hne]. unfold split_lines.
    destruct (split_on nl code); [done|]. by destruct i.
  - destruct (split_on_lines nl code) as [Hall _]. unfold split_lines.
    apply Forall_insert; done.
Qed.

Lemma tx_scan_patterns_line ps code lines i line f :
  f ∈ scan_patterns ps code lines i line →
  line_number f = Some (i + 1)%nat ∧ rule_id f = txt "SEN-005".
Proof.
  induction ps as [|p ps IH]; simpl; [by intros ?%elem_of_nil|].
  destruct (found p line); [|done]. by intros ->%list_elem_of_singleton.
Qed.

Lemma scan_patterns_none ps code lines i line :
  (∀ p, p ∈ ps → found p line = false) → scan_patterns ps code lines i line = [].
Proof.
  induction ps as [|p ps IH]; intros Hps; [done|]. simpl.
  rewrite (Hps p) by left. apply IH. intros q Hq. apply Hps. by right.
Qed.

Lemma scan_patterns_first p ps code lines i line :
  found p line = true →
  scan_patterns (p :: ps) code lines i line = [report code lines i line].
Proof. intros H. simpl. by rewrite H. Qed.

(** Every pattern of the detector goes through the text [tx.origin]. *)
Lemma pattern_needs_tx_origin p line :
  p ∈ tx_origin_patterns → found p line = true →
  contains (txt "tx.origin") line = true.
Proof.
  intros Hp Hf.
  assert (bnd_free p = true ∧ ∀ w, lang p w → contains (txt "tx.origin") w = true)
    as [Hb Hl].
  { unfold tx_origin_patterns in Hp.
    repeat match goal with
           | H : _ ∈ _ :: _ |- _ => apply elem_of_cons in H as [->|H]
           | H : _ ∈ [] |- _ => by apply elem_of_nil in H
           end;
      (split; [reflexivity|]); intros w;
      first [ apply (lang_Seq_contains (txt "tx.origin") [_; _; _; _] [_; _])
            | apply (lang_Seq_contains (txt "tx.origin") [] [_; _; _; _]) ]. }
  apply found_spec in Hf as (pre & w & post & -> & L); [|done].
  apply contains_inside. auto.
Qed.

Lemma tx_detect_at_line code i line :
  split_lines code !! i = Some line →
  at_line (i + 1) (detect code solidity)
  = scan_patterns tx_origin_patterns code (split_lines code) i line.
Proof.
  intros Hi. unfold at_line, detect. simpl.
  apply (scan_line_findings
           (λ j l, scan_patterns tx_origin_patterns code (split_lines code) j l));
    [|done].
  intros j l f Hf. by apply tx_scan_patterns_line in Hf as [? _].
Qed.

Lemma detect_rule_id code language f :
  f ∈ detect code language → rule_id f = txt "SEN-005".
Proof.
  unfold detect. destruct (negb (is_solidity language)); [by intros ?%elem_of_nil|].
  intros Hf. apply list_elem_of_In, in_flat_map in Hf as ([j l] & _ & Hf).
  apply list_elem_of_In in Hf. by apply tx_scan_patterns_line in Hf as [_ ?].
Qed.

(** C3: a line that contains [require(tx.origin == owner);] gets exactly
    one finding, with rule SEN-005; once [tx.origin] is replaced by
    [msg.sender] on that line, no finding references the line. *)
Theorem tx_origin_line_finding (code : str) (i : nat) (pre post : str) :
  split_lines code !! i = Some (pre ++ tx_origin_check ++ post) →
  (∃ f, filter (λ f, rule_id f = txt "SEN-005" ∧ line_number f = Some (i + 1)%nat)
               (detect code solidity) = [f])
  ∧ at_line (i + 1)
      (detect (with_line code i
                 (replace (txt "tx.origin") (txt "msg.sender")
                          (pre ++ tx_origin_check ++ post)))
              solidity) = [].
Proof.
  intros Hi. split.
  - exists (report code (split_lines code) i (pre ++ tx_origin_check ++ post)).
    rewrite (filter_agree _ (λ f, line_number f = Some (i + 1)%nat)).
    + fold (at_line (i + 1) (detect code solidity)).
      rewrite (tx_detect_at_line _ _ _ Hi).
      apply scan_patterns_first.
      change (pre ++ tx_origin_check ++ post)
        with (pre ++ (txt "require(tx.origin ==" ++ txt " owner);") ++ post).
      rewrite <- app_assoc. by apply found_inside.
    + intros f Hf. apply detect_rule_id in Hf. split; [by intros [_ ?]|done].
  - set (line' := replace _ _ _).
    assert (nl ∉ line') as Hnl.
    { intros H. apply replace_aux_chars in H as [H1|H1].
      - destruct (split_on_lines nl code) as [Hall _].
        rewrite Forall_forall in Hall. apply (Hall _ (list_elem_of_lookup_2 _ _ _ Hi) H1).
      - by repeat (apply elem_of_cons in H1 as [H1|H1]; [done|]); apply elem_of_nil in H1. }
    assert (split_lines (with_line code i line') !! i = Some line') as Hi'.
    { rewrite split_with_line by done. apply list_lookup_insert_eq.
      by apply lookup_lt_Some in Hi. }
    rewrite (tx_detect_at_line _ _ _ Hi').
    apply scan_patterns_none. intros p Hp.
    destruct (found p line') eqn:E; [|done].
    apply (pattern_needs_tx_origin _ _ Hp) in E.
    unfold line' in E. by rewrite replace_tx_origin_clean in E.
Qed.

Lemma tx_origin_line_finding_witness :
  let code := txt "contract Wallet {
  function sweep() public {
    require(tx.origin == owner);
  }
}" in
  (∃ f, filter (λ f, rule_id f = txt "SEN-005" ∧ line_number f = Some 3%nat)
               (detect code solidity) = [f])
  ∧ at_line 3
      (detect (with_line code 2
                 (replace (txt "tx.origin") (txt "msg.sender")
                          (txt "    require(tx.origin == owner);")))
              solidity) = [].
Proof.
  intros code. apply (tx_origin_line_finding code 2 (txt "    ") []). reflexivity.
Defined.

End TxOriginFacts.

(** ** The unchecked-call detector *)

Module UncheckedCallFacts.
Import Text Regex Base UncheckedCall RegexFacts BaseFacts Samples.

(** The lines a look-ahead [range(lo, hi)] visits. *)
Lemma lines_in_range_elem (lines : list str) (lo hi : nat) (l : str) :
  l ∈ lines_in_range lines lo hi ↔
  ∃ j, (lo ≤ j < hi)%nat ∧ lines !! j = Some l.
Proof.
  unfold lines_in_range. rewrite list_elem_of_lookup. split.
  - intros [k Hk]. apply lookup_take_Some in Hk as [Hk Hlt].
    rewrite lookup_drop in Hk. exists (lo + k)%nat. split; [lia|done].
  - intros (j & Hj & Hl). exists (j - lo)%nat.
    apply lookup_take_Some. split; [|lia].
    rewrite lookup_drop. by replace (lo + (j - lo))%nat with j by lia.
Qed.

Lemma lstrip_indent (indent : str) (c : ascii) (rest : str) :
  Forall (λ x, is_space x = true) indent → is_space c = false →
  lstrip (indent ++ c :: rest) = c :: rest.
Proof.
  intros Hi Hc. induction Hi as [|x indent Hx Hi IH]; simpl.
  - by rewrite Hc.
  - by rewrite Hx.
Qed.

Lemma lstrip_keeps_last (l : str) (c : ascii) :
  is_space c = false → ∃ l', lstrip (l ++ [c]) = l' ++ [c].
Proof.
  intros Hc. induction l as [|a l [l' IH]]; simpl.
  - rewrite Hc. by exists [].
  - destruct (is_space a); [eauto|]. by exists (a :: l).
Qed.

(** Stripping an indented line that begins with [c] leaves a text that
    begins with [c]. *)
Lemma strip_indent (indent : str) (c : ascii) (rest : str) :
  Forall (λ x, is_space x = true) indent → is_space c = false →
  ∃ rest', strip (indent ++ c :: rest) = c :: rest'.
Proof.
  intros Hi Hc. unfold strip. rewrite lstrip_indent by done.
  rewrite reverse_cons.
  destruct (lstrip_keeps_last (reverse rest) c Hc) as [l' ->].
  rewrite reverse_app. simpl. eauto.
Qed.

Lemma call_scan_patterns_line ps code lines i line f :
  f ∈ scan_patterns ps code lines i line → line_number f = Some (i + 1)%nat.
Proof.
  induction ps as [|[p ct] ps IH]; simpl; [by intros ?%elem_of_nil|].
  destruct (found p line); [|done].
  destruct (negb (is_checked lines i line)); [|done].
  by intros ->%list_elem_of_singleton.
Qed.

Lemma scan_patterns_checked ps code lines i line :
  is_checked lines i line = true → scan_patterns ps code lines i line = [].
Proof.
  intros H. induction ps as [|[p ct] ps IH]; simpl; [done|].
  rewrite H. simpl. by destruct (found p line).
Qed.

Lemma scan_patterns_unchecked ps code lines i line p ct :
  is_checked lines i line = false → (p, ct) ∈ ps → found p line = true →
  ∃ f, scan_patterns ps code lines i line = [f].
Proof.
  intros H Hin Hf. induction ps as [|[q ct'] ps IH]; [by apply elem_of_nil in Hin|].
  simpl. rewrite H. simpl. destruct (found q line) eqn:E; [eauto|].
  apply elem_of_cons in Hin as [?|Hin]; [simplify_eq; congruence|auto].
Qed.

Lemma call_detect_at_line code i line :
  split_lines code !! i = Some line →
  at_line (i + 1) (detect code solidity) = scan_line code (split_lines code) i line.
Proof.
  intros Hi. unfold at_line, detect. simpl.
  apply (scan_line_findings (λ j l, scan_line code (split_lines code) j l)); [|done].
  intros j l f. unfold scan_line. destruct (is_comment l); [by intros ?%elem_of_nil|].
  apply call_scan_patterns_line.
Qed.

(** The look-ahead visits the four lines after line [i]. *)
Lemma checked_below_false (lines : list str) (i : nat) :
  (∀ j l, (i < j ≤ i + 4)%nat → lines !! j = Some l → has_check l = false) →
  checked_below lines i = false.
Proof.
  intros H. unfold checked_below. apply existsb_false. intros l Hl.
  apply lines_in_range_elem in Hl as (j & Hj & Hl). apply (H j); [lia|done].
Qed.

Lemma checked_below_next (lines : list str) (i : nat) (l : str) :
  lines !! (i + 1)%nat = Some l → has_check l = true → checked_below lines i = true.
Proof.
  intros Hl Hc. unfold checked_below. apply (existsb_true _ _ l); [|done].
  apply lines_in_range_elem. exists (i + 1)%nat. split; [|done].
  apply lookup_lt_Some in Hl. lia.
Qed.

Lemma found_in_statement (r : re) (a w b indent post : str) :
  bnd_free r = true → fullmatch r w = true →
  found r (indent ++ (a ++ w ++ b) ++ post) = true.
Proof.
  intros Hb Hw.
  replace (indent ++ (a ++ w ++ b) ++ post) with ((indent ++ a) ++ w ++ (b ++ post))
    by (by rewrite <- !app_assoc).
  by apply found_inside.
Qed.

Lemma contains_in_statement (sub a b indent post : str) :
  contains sub (indent ++ (a ++ sub ++ b) ++ post) = true.
Proof.
  apply contains_spec. exists (indent ++ a), (b ++ post). by rewrite <- !app_assoc.
Qed.

Lemma has_check_tokens (l : str) :
  contains (txt "require") l = false → contains (txt "assert") l = false →
  contains (txt "if") l = false → has_check l = false.
Proof.
  intros H1 H2 H3. unfold has_check.
  destruct (contains (txt "require(") l) eqn:E1;
    [apply (contains_app_l (txt "require") (txt "(")) in E1; congruence|].
  destruct (contains (txt "assert(") l) eqn:E2;
    [apply (contains_app_l (txt "assert") (txt "(")) in E2; congruence|].
  destruct (contains (txt "if(") l) eqn:E3;
    [apply (contains_app_l (txt "if") (txt "(")) in E3; congruence|].
  done.
Qed.

(** C4: an indented line [(bool success, ) = target.call("");] with no
    [require], [assert] or [if] on the five lines after it gets exactly
    one finding; with [require(success, "failed");] on the next line it
    gets none. *)
Theorem unchecked_call_line_finding (code : str) (i : nat) (indent post : str) :
  split_lines code !! i = Some (indent ++ low_level_call ++ post) →
  Forall (λ c, is_space c = true) indent →
  ((∀ j l, (i < j ≤ i + 5)%nat → split_lines code !! j = Some l →
           contains (txt "require") l = false
           ∧ contains (txt "assert") l = false
           ∧ contains (txt "if") l = false) →
   ∃ f, at_line (i + 1) (detect code solidity) = [f])
  ∧ ((∃ pre' post', split_lines code !! (i + 1)%nat
                    = Some (pre' ++ require_success ++ post')) →
     at_line (i + 1) (detect code solidity) = []).
Proof.
  intros Hi Hindent. rewrite (call_detect_at_line _ _ _ Hi).
  set (line := indent ++ low_level_call ++ post).
  assert (is_comment line = false) as Hcomment.
  { unfold is_comment, line.
    change (low_level_call ++ post) with ("("%char :: (tail low_level_call ++ post)).
    destruct (strip_indent indent "(" (tail low_level_call ++ post) Hindent)
      as [rest' ->]; done. }
  assert (found bool_tuple_re line = true) as Htuple.
  { apply (found_in_statement _ [] (txt "(bool success, )")
             (txt " = target.call(" ++ [dq; dq] ++ txt ");")); done. }
  assert (found (plain_call ".call") line = true) as Hcall.
  { apply (found_in_statement _ (txt "(bool success, ) = target")
             (txt ".call(" ++ [dq; dq] ++ txt ")") (txt ";")); done. }
  assert (is_checked (split_lines code) i line = checked_below (split_lines code) i)
    as Hchecked.
  { unfold is_checked. by rewrite Htuple. }
  unfold scan_line. rewrite Hcomment. split.
  - intros Hnone.
    apply (scan_patterns_unchecked _ _ _ _ _ (plain_call ".call") (txt "call"));
      [|right; left|done].
    rewrite Hchecked. apply checked_below_false. intros j l Hj Hl.
    destruct (Hnone j l) as (?&?&?); [lia|done|]. by apply has_check_tokens.
  - intros (pre' & post' & Hnext). apply scan_patterns_checked.
    rewrite Hchecked. apply (checked_below_next _ _ _ Hnext).
    unfold has_check.
    rewrite (contains_in_statement (txt "require(") []
               (txt "success, " ++ [dq] ++ txt "failed" ++ [dq] ++ txt ");")); done.
Qed.

Lemma unchecked_call_line_finding_witness :
  let unchecked := txt "contract Pay {
  function pay(address target) public {
    (bool success, ) = target.call(" ++ [dq; dq] ++ txt ");
    emit Paid(target);
  }
}" in
  let checked := txt "contract Pay {
  function pay(address target) public {
    (bool success, ) = target.call(" ++ [dq; dq] ++ txt ");
    require(success, " ++ [dq] ++ txt "failed" ++ [dq] ++ txt ");
  }
}" in
  (∃ f, at_line 3 (detect unchecked solidity) = [f])
  ∧ at_line 3 (detect checked solidity) = [].
Proof.
  intros unchecked checked. split.
  - apply (unchecked_call_line_finding unchecked 2 (txt "    ") []).
    + reflexivity.
    + repeat constructor.
    + intros j l Hj Hl.
      assert (j = 3 ∨ j = 4 ∨ j = 5 ∨ j = 6 ∨ j = 7)%nat as Hcases by lia.
      destruct Hcases as [->|[->|[->|[->| ->]]]]; vm_compute in Hl; by simplify_eq.
  - apply (unchecked_call_line_finding checked 2 (txt "    ") []).
    + reflexivity.
    + repeat constructor.
    + exists (txt "    "), []. reflexivity.
Defined.

End UncheckedCallFacts.

(** ** The reentrancy detector *)

Module ReentrancyFacts.
Import Text Regex Base Reentrancy RegexFacts BaseFacts Samples.
Import UncheckedCallFacts.

Lemma scan_line_finding code lines i line f :
  f ∈ scan_line code lines i line →
  line_number f = Some (i + 1)%nat ∧ severity f = txt "critical".
Proof.
  unfold scan_line. destruct (has_external_call line); [|by intros ?%elem_of_nil].
  destruct (look_ahead lines i); [|by intros ?%elem_of_nil].
  by intros ->%list_elem_of_singleton.
Qed.

Lemma payable_report_severity code mt f :
  f ∈ payable_report code mt → severity f = txt "high".
Proof.
  unfold payable_report. destruct (negb _); [|by intros ?%elem_of_nil].
  by intros ->%list_elem_of_singleton.
Qed.

(** The critical findings on line [i + 1] are those of the scan of
    line [i]: the findings on payable functions have severity [high]. *)
Lemma critical_at_line code i line :
  split_lines code !! i = Some line →
  filter (λ f, severity f = txt "critical" ∧ line_number f = Some (i + 1)%nat)
         (detect code solidity)
  = scan_line code (split_lines code) i line.
Proof.
  intros Hi. unfold detect. simpl. rewrite filter_app.
  rewrite (filter_none _ (flat_map _ (finditer _ _))).
  - rewrite app_nil_r.
    rewrite (filter_agree _ (λ f, line_number f = Some (i + 1)%nat)).
    + apply (scan_line_findings (λ j l, scan_line code (split_lines code) j l)); [|done].
      intros j l f Hf. by apply scan_line_finding in Hf as [? _].
    + intros f Hf. apply list_elem_of_In, in_flat_map in Hf as ([j l] & _ & Hf).
      apply list_elem_of_In, scan_line_finding in Hf as [_ ?].
      split; [by intros [_ ?]|done].
  - intros f Hf [Hsev _].
    apply list_elem_of_In, in_flat_map in Hf as (mt & _ & Hf).
    apply list_elem_of_In, payable_report_severity in Hf.
    rewrite Hf in Hsev. discriminate.
Qed.

Lemma has_external_call_dot_call (pre post : str) :
  has_external_call (pre ++ txt ".call(" ++ post) = true.
Proof.
  unfold has_external_call, external_call_patterns.
  apply (existsb_true _ _ (Lit (txt ".call("))); [right; left|].
  by apply found_inside.
Qed.

(** A bracketed assignment is a state change for the detector. *)
Lemma bracket_assignment_found (l : str) :
  bracket_assignment l → found state_change_pattern l = true.
Proof.
  intros (pre & name & idx & ws & post & -> & Hn & Hname & Hi & Hidx & Hws).
  apply found_spec; [done|].
  exists pre, (name ++ "["%char :: idx ++ "]"%char :: ws ++ ["="%char]), post.
  split.
  { f_equal. rewrite <- app_assoc. f_equal. simpl. f_equal.
    rewrite <- app_assoc. f_equal. simpl. f_equal. by rewrite <- app_assoc. }
  left. unfold bracket_write_re.
  apply lang_Seq_cons. exists name, ("["%char :: idx ++ "]"%char :: ws ++ ["="%char]).
  split; [done|]. split; [by apply lang_Plus|].
  apply lang_Seq_cons. exists ["["%char], (idx ++ "]"%char :: ws ++ ["="%char]).
  split; [done|]. split; [done|].
  apply lang_Seq_cons. exists idx, ("]"%char :: ws ++ ["="%char]).
  split; [done|]. split.
  { apply lang_Plus. split; [done|]. eapply Forall_impl; [exact Hidx|].
    intros c [Hc| ->]; unfold either; [by rewrite Hc|]. by rewrite orb_true_r. }
  apply lang_Seq_cons. exists ["]"%char], (ws ++ ["="%char]).
  split; [done|]. split; [done|].
  apply lang_Seq_cons. exists ws, ["="%char]. done.
Qed.

Lemma state_change_after_some (window : list str) :
  ∀ j idx l,
    window !! idx = Some l →
    found state_change_pattern l = true →
    (∀ idx' l', (idx' ≤ idx)%nat → window !! idx' = Some l' → is_boundary l' = false) →
    is_Some (state_change_after window j).
Proof.
  induction window as [|w window IH]; intros j idx l Hl Hf Hb; [done|].
  simpl. rewrite (Hb 0%nat w) by (done || lia).
  destruct (found state_change_pattern w) eqn:E; [eauto|].
  destruct idx as [|idx]; simpl in Hl; [simplify_eq; congruence|].
  apply (IH _ idx l); [done..|]. intros idx' l' Hle Hl'.
  apply (Hb (S idx')); [lia|done].
Qed.

Lemma look_ahead_some (lines : list str) (n k : nat) (write_line : str) :
  (1 ≤ k ≤ 10)%nat →
  lines !! (n + k)%nat = Some write_line →
  found state_change_pattern write_line = true →
  (∀ j l, (n < j ≤ n + k)%nat → lines !! j = Some l → is_boundary l = false) →
  is_Some (look_ahead lines n).
Proof.
  intros Hk Hw Hf Hb. unfold look_ahead, UncheckedCall.lines_in_range.
  pose proof (lookup_lt_Some _ _ _ Hw) as Hlen.
  apply (state_change_after_some _ _ (k - 1)%nat write_line); [|done|].
  - apply lookup_take_Some. split; [|lia].
    rewrite lookup_drop. by replace (n + 1 + (k - 1))%nat with (n + k)%nat by lia.
  - intros idx' l' Hle [Hl' _]%lookup_take_Some. rewrite lookup_drop in Hl'.
    apply (Hb (n + 1 + idx')%nat); [lia|done].
Qed.

(** C5, amended: an external call [.call(] on a line, a bracketed
    assignment at most ten lines below it, and no boundary line from the
    line after the call down to the line of the assignment itself, give
    exactly one critical finding on the line of the call. *)
Theorem reentrancy_call_then_write (code : str) (n k : nat)
    (pre post write_line : str) :
  split_lines code !! n = Some (pre ++ txt ".call(" ++ post) →
  (1 ≤ k ≤ 10)%nat →
  split_lines code !! (n + k)%nat = Some write_line →
  bracket_assignment write_line →
  (∀ j l, (n < j ≤ n + k)%nat → split_lines code !! j = Some l →
          is_boundary l = false) →
  ∃ f, filter (λ f, severity f = txt "critical" ∧ line_number f = Some (n + 1)%nat)
              (detect code solidity) = [f].
Proof.
  intros Hn Hk Hw Hbr Hb. rewrite (critical_at_line _ _ _ Hn).
  unfold scan_line. rewrite has_external_call_dot_call.
  destruct (look_ahead_some (split_lines code) n k write_line) as [scl ->];
    eauto using bracket_assignment_found.
Qed.

Lemma reentrancy_call_then_write_witness :
  let code := txt "contract Bank {
  function withdraw() public {
    msg.sender.call(data);
    balances[msg.sender] = 0;
  }
}" in
  ∃ f, filter (λ f, severity f = txt "critical" ∧ line_number f = Some 3%nat)
              (detect code solidity) = [f].
Proof.
  intros code.
  apply (reentrancy_call_then_write code 2 1 (txt "    msg.sender") (txt "data);")
           (txt "    balances[msg.sender] = 0;")).
  - reflexivity.
  - lia.
  - reflexivity.
  - exists (txt "    "), (txt "balances"), (txt "msg.sender"), (txt " "), (txt " 0;").
    repeat split; try done.
    + repeat constructor.
    + repeat (constructor; [first [by left | by right]|]). constructor.
    + repeat constructor.
  - intros j l Hj Hl. assert (j = 3%nat) as -> by lia.
    vm_compute in Hl. by simplify_eq.
Defined.

(** C5 as stated fails: with no line at all between the call and
    the assignment, a boundary mark on the line of the assignment itself
    (here the text [function ] in its comment) ends the look-ahead before
    the assignment is seen, and nothing is reported. *)
Lemma reentrancy_boundary_on_write_line :
  let code := txt "contract Bank {
  function withdraw() public {
    msg.sender.call(data);
    balances[msg.sender] = 0; // function done
  }
}" in
  let write_line := txt "    balances[msg.sender] = 0; // function done" in
  split_lines code !! 2%nat = Some (txt "    msg.sender" ++ txt ".call(" ++ txt "data);")
  ∧ split_lines code !! (2 + 1)%nat = Some write_line
  ∧ bracket_assignment write_line
  ∧ (∀ j l, (2 < j < 2 + 1)%nat → split_lines code !! j = Some l →
            is_boundary l = false)
  ∧ filter (λ f, severity f = txt "critical" ∧ line_number f = Some 3%nat)
           (detect code solidity) = [].
Proof.
  intros code write_line. split; [reflexivity|]. split; [reflexivity|]. split.
  - exists (txt "    "), (txt "balances"), (txt "msg.sender"), (txt " "),
      (txt " 0; // function done").
    repeat split; try done.
    + repeat constructor.
    + repeat (constructor; [first [by left | by right]|]). constructor.
    + repeat constructor.
  - split; [intros; lia|]. vm_compute. reflexivity.
Qed.

End ReentrancyFacts.

(** ** The integer-overflow detector *)

Module IntegerOverflowFacts.
Import Text Regex Base IntegerOverflow RegexFacts BaseFacts Samples.

(** What the loop over the matches of one pattern reports comes from a
    match outside a comment. *)
Lemma scan_matches_reported code operation ms f :
  f ∈ scan_matches code operation ms →
  ∃ mt, mt ∈ ms ∧ in_comment code mt = false ∧ f = arith_report code operation mt.
Proof.
  induction ms as [|mt ms IH]; simpl; [by intros ?%elem_of_nil|].
  destruct (in_comment code mt) eqn:E.
  - intros (mt' & ? & ? & ?)%IH. exists mt'. split; [by right|done].
  - intros ->%list_elem_of_singleton. exists mt. split; [left|done].
Qed.

(** A pattern with a match outside a comment reports once. *)
Lemma scan_matches_some code operation ms mt :
  mt ∈ ms → in_comment code mt = false →
  ∃ mt', scan_matches code operation ms = [arith_report code operation mt'].
Proof.
  induction ms as [|mt0 ms IH]; [by intros ?%elem_of_nil|].
  intros Hin Hc. simpl. destruct (in_comment code mt0) eqn:E; [|eauto].
  apply elem_of_cons in Hin as [->|Hin]; [congruence|auto].
Qed.

Lemma detect_arithmetic_finding code f :
  f ∈ detect_arithmetic code →
  ∃ operation mt, f = arith_report code operation mt.
Proof.
  unfold detect_arithmetic. destruct (negb (uses_safemath code));
    [|by intros ?%elem_of_nil].
  intros Hf. apply list_elem_of_In, in_flat_map in Hf as ([p op] & _ & Hf).
  apply list_elem_of_In, scan_matches_reported in Hf as (mt & _ & _ & ->). eauto.
Qed.

(** C10: a source with no [pragma solidity X.Y.Z] the detector can read
    is treated as one for a compiler below 0.8.0: the result is that of
    the arithmetic scan, no finding is about an [unchecked] block, a
    SafeMath marker anywhere silences the scan, and without one every
    arithmetic pattern that has a match outside a comment is reported. *)
Theorem overflow_without_pragma (code : str) :
  search version_pattern code = None →
  detect code solidity = Return (detect_arithmetic code)
  ∧ (∀ f, f ∈ detect_arithmetic code →
          title f ≠ txt "Unchecked Math Operations"
          ∧ severity f = txt "high")
  ∧ (contains (txt "SafeMath") code = true → detect code solidity = Return [])
  ∧ (uses_safemath code = false →
     ∀ pattern operation mt,
       (pattern, operation) ∈ arithmetic_patterns →
       mt ∈ finditer pattern code → in_comment code mt = false →
       ∃ f, f ∈ detect_arithmetic code
            ∧ title f = txt "Potential Integer Overflow in " ++ Text.title operation)
  ∧ (∀ code' version_match major minor,
       search version_pattern code' = Some version_match →
       parse_version (default [] (group 1 version_match)) = Return (major, minor) →
       has_builtin_checks major minor = false →
       detect code' solidity = Return (detect_arithmetic code')).
Proof.
  intros Hnone.
  assert (detect code solidity = Return (detect_arithmetic code)) as Hdetect.
  { unfold detect. simpl. by rewrite Hnone. }
  split; [done|]. split; [|split; [|split]].
  - intros f (operation & mt & ->)%detect_arithmetic_finding. done.
  - intros Hsafe. rewrite Hdetect. unfold detect_arithmetic, uses_safemath.
    by rewrite Hsafe.
  - intros Hsafe pattern operation mt Hp Hmt Hc.
    unfold detect_arithmetic. rewrite Hsafe. simpl negb. cbv iota.
    destruct (scan_matches_some code operation _ mt Hmt Hc) as [mt' Hscan].
    exists (arith_report code operation mt'). split; [|done].
    apply list_elem_of_In, in_flat_map. exists (pattern, operation).
    split; [by apply list_elem_of_In|]. rewrite Hscan. by left.
  - intros code' vm major minor Hvm Hparse Hchecks.
    unfold detect. simpl. by rewrite Hvm, Hparse, Hchecks.
Qed.

Lemma overflow_without_pragma_witness :
  let code := txt "contract Counter {
  uint total;
  function bump(uint fee) public {
    unchecked { total += fee; }
  }
}" in
  detect code solidity = Return (detect_arithmetic code).
Proof.
  intros code. apply (overflow_without_pragma code). reflexivity.
Defined.

(** C6 fails on the code: the [break] after a report leaves the loop
    over the matches of one pattern, so each pattern reports once for
    the whole source, and two patterns can report the same line.  Here
    the addition and the subtraction of line 4 are both reported. *)
Theorem overflow_same_line_twice :
  let code := txt "pragma solidity ^0.7.0;
contract Counter {
  function bump(uint fee) public {
    total += fee; count -= 1;
  }
}" in
  ∃ f1 f2,
    detect code solidity = Return [f1; f2]
    ∧ line_number f1 = Some 4%nat ∧ line_number f2 = Some 4%nat
    ∧ title f1 = txt "Potential Integer Overflow in Addition"
    ∧ title f2 = txt "Potential Integer Overflow in Subtraction".
Proof.
  intros code. eexists _, _. split; [vm_compute; reflexivity|]. done.
Qed.

(** An addition that stands in a [//] comment is passed over. *)
Example overflow_comment_skipped :
  let code := txt "pragma solidity ^0.7.0;
contract Counter {
  uint total; // total += fee;
}" in
  detect code solidity = Return [].
Proof. vm_compute. reflexivity. Qed.

End IntegerOverflowFacts.

(** ** The orchestrator *)

Module StaticAnalyzerFacts.
Import Text Regex Base AstUtils StaticAnalyzer Samples.

Lemma run_detector_result d code language cv ctx findings :
  run_detector d code language cv ctx findings
  = Return (findings ++ contribution d code language cv ctx).
Proof.
  unfold run_detector, contribution.
  destruct (detect d code language cv ctx) as [[|f fs]|e]; simpl;
    by rewrite ?app_nil_r.
Qed.

Lemma run_detectors_result ds code language cv ctx :
  ∀ findings,
    run_detectors ds code language cv ctx findings
    = Return (findings ++ flat_map (λ d, contribution d code language cv ctx) ds).
Proof.
  induction ds as [|d ds IH]; intros findings; simpl.
  - by rewrite app_nil_r.
  - rewrite run_detector_result, IH. by rewrite <- app_assoc.
Qed.

Lemma analyze_result self code language cv :
  analyze self code language cv
  = Return (if supported language
            then flat_map (λ d, contribution d code language cv (context_of code language))
                          (detectors self)
            else []).
Proof.
  unfold analyze. destruct (supported language); simpl; [|done].
  by rewrite run_detectors_result.
Qed.

Lemma contribution_raises d code language cv ctx :
  raises d code language cv ctx → contribution d code language cv ctx = [].
Proof. intros [e He]. unfold contribution. by rewrite He. Qed.

Lemma unsupported_not_solidity language :
  supported language = false → is_solidity language = false.
Proof. unfold supported, is_solidity. by intros [? _]%orb_false_iff. Qed.

Lemma flat_map_nil_all {A B} (f : A → list B) (l : list A) :
  (∀ x, x ∈ l → f x = []) → flat_map f l = [].
Proof.
  induction l as [|x l IH]; intros H; [done|]. simpl.
  rewrite (H x) by left. apply IH. intros y Hy. apply H. by right.
Qed.

Lemma flat_map_nil_inv {A B} (f : A → list B) (l : list A) :
  flat_map f l = [] → ∀ x, x ∈ l → f x = [].
Proof.
  induction l as [|x l IH]; intros H y Hy; [by apply elem_of_nil in Hy|].
  simpl in H. apply app_eq_nil in H as [Hx Hl].
  apply elem_of_cons in Hy as [->|Hy]; auto.
Qed.

(** On a language that is not Solidity the registered detectors return
    nothing. *)
Lemma registry_other_language code language cv ctx :
  is_solidity language = false →
  flat_map (λ d, contribution d code language cv ctx) (detectors init) = [].
Proof.
  intros H. unfold init, contribution. simpl.
  unfold Reentrancy.detect, AccessControl.detect, IntegerOverflow.detect,
    UncheckedCall.detect, TxOrigin.detect.
  by rewrite H.
Qed.

(** C7: [analyze] always returns.  On a supported language, and on any
    language when the detectors give nothing there, the result is the
    findings of the detectors that did not raise, in registration order;
    so a detector that raises can be struck from the registry without
    changing the result.  The built-in detectors give nothing on a
    language that is not Solidity. *)
Theorem static_analyzer_fault_isolation (self : Self) (code language : str)
    (compiler_version : option str) :
  let ctx := context_of code language in
  (∃ findings, analyze self code language compiler_version = Return findings)
  ∧ (supported language = true
     ∨ (∀ d, d ∈ detectors self →
             contribution d code language compiler_version ctx = []) →
     analyze self code language compiler_version
     = Return (flat_map (λ d, contribution d code language compiler_version ctx)
                        (detectors self)))
  ∧ (supported language = false →
     analyze self code language compiler_version = Return [])
  ∧ (∀ before failing after,
       detectors self = before ++ failing :: after →
       raises failing code language compiler_version ctx →
       analyze self code language compiler_version
       = analyze (mkSelf (before ++ after)) code language compiler_version)
  ∧ (is_solidity language = false →
     ∀ d, d ∈ detectors init →
          contribution d code language compiler_version ctx = []).
Proof.
  intros ctx. subst ctx. rewrite !analyze_result. split; [eauto|].
  split; [|split; [by intros ->|split]].
  - intros [->|Hnone]; [done|]. destruct (supported language); [done|].
    f_equal. symmetry. apply flat_map_nil_all. exact Hnone.
  - intros before failing after Hds Hraise. rewrite analyze_result. f_equal.
    destruct (supported language); [|done]. rewrite Hds. simpl.
    rewrite !flat_map_app. simpl.
    by rewrite (contribution_raises _ _ _ _ _ Hraise).
  - intros Hlang d Hd.
    pose proof (registry_other_language code language compiler_version
                  (context_of code language) Hlang) as Hall.
    exact (flat_map_nil_inv _ _ Hall d Hd).
Qed.

Lemma static_analyzer_fault_isolation_witness :
  let code := txt "contract Wallet {
  function sweep() public {
    require(tx.origin == owner);
  }
}" in
  analyze (mkSelf [TxOriginDetector; failing_detector; UncheckedCallDetector])
          code solidity None
  = analyze (mkSelf ([TxOriginDetector] ++ [UncheckedCallDetector])) code solidity None.
Proof.
  intros code.
  apply (proj1 (proj2 (proj2 (proj2
           (static_analyzer_fault_isolation
              (mkSelf [TxOriginDetector; failing_detector; UncheckedCallDetector])
              code solidity None))))
           [TxOriginDetector] failing_detector [UncheckedCallDetector]).
  - reflexivity.
  - exists (Exception "RuntimeError"). reflexivity.
Defined.

End StaticAnalyzerFacts.

(** ** The gas heuristics *)

Module GasAnalyzerFacts.
Import Text Regex Base GasAnalyzer RegexFacts BaseFacts Samples.

Lemma leading_digits_take (s : str) :
  take (length (leading_digits s)) s = leading_digits s
  ∧ (length (leading_digits s) ≤ length s)%nat
  ∧ forallb is_digit (leading_digits s) = true.
Proof.
  induction s as [|c s (IH1 & IH2 & IH3)]; simpl; [done|].
  destruct (is_digit c) eqn:E; simpl; [|split; [done|split; [lia|done]]].
  rewrite IH1, E, IH3. split; [done|]. split; [lia|done].
Qed.

(** A repetition whose continuation cannot fail takes the longest run. *)
Lemma star_m_digits {R} (g : str → R) (s : str) :
  ∀ prev, star_m is_digit prev s (λ _ s', Some (g s'))
          = Some (g (drop (length (leading_digits s)) s)).
Proof.
  induction s as [|c s IH]; intros prev; simpl; [done|].
  destruct (is_digit c); [|done]. by rewrite IH.
Qed.

Lemma match_here_digits (prev : option ascii) (s : str) :
  match_here (Grp 1 (Plus is_digit)) prev s
  = match s with
    | c :: s' =>
        if is_digit c
        then Some (S (length (leading_digits s')), [(1%nat, c :: leading_digits s')])
        else None
    | [] => None
    end.
Proof.
  unfold match_here. destruct s as [|c s]; [done|].
  cbn [m Plus]. destruct (is_digit c); [|done].
  rewrite (star_m_digits
             (λ s', ((length (c :: s) - length s')%nat,
                     [(1%nat, take (length (c :: s) - length s') (c :: s))]))).
  destruct (leading_digits_take s) as (Htake & Hlen & _).
  rewrite length_drop. simpl length.
  replace (S (length s) - (length s - length (leading_digits s)))%nat
    with (S (length (leading_digits s))) by lia.
  simpl take. by rewrite Htake.
Qed.

Lemma int_of_digits (c : ascii) (s : str) :
  is_digit c = true →
  int_of_str (c :: leading_digits s) = Some (decimal (c :: leading_digits s)).
Proof.
  intros Hc. unfold int_of_str. simpl forallb.
  destruct (leading_digits_take s) as (_ & _ & ->). by rewrite Hc.
Qed.

Lemma search_digits (s : str) :
  ∀ prev pos,
    match search_aux (Grp 1 (Plus is_digit)) prev s pos with
    | Some mt => default 0 (int_of_str (default [] (group 1 mt)))
    | None => 0
    end = first_number s.
Proof.
  unfold first_number.
  induction s as [|c s IH]; intros prev pos; cbn [search_aux].
  - by rewrite match_here_digits.
  - rewrite match_here_digits. cbn [first_digits].
    destruct (is_digit c) eqn:E; [|apply IH].
    unfold group. cbn [m_caps lookup_cap Nat.eqb default id].
    by rewrite int_of_digits.
Qed.

(** [_extract_gas_value] reads the first run of digits, and gives 0 when
    there is none. *)
Lemma extract_gas_value_first_number (savings_str : str) :
  _extract_gas_value savings_str = first_number savings_str.
Proof. apply search_digits. Qed.

Lemma first_digits_none (s : str) :
  Forall (λ c, is_digit c = false) s → first_digits s = [].
Proof. induction 1 as [|c s Hc _ IH]; simpl; [done|]. by rewrite Hc. Qed.

Lemma fold_left_add (l : list Z) :
  ∀ a, fold_left Z.add l a = a + foldr Z.add 0 l.
Proof.
  induction l as [|x l IH]; intros a; simpl; [lia|]. rewrite IH. lia.
Qed.

Lemma sum_extracted (os : list GasOptimization) :
  sum (map (λ opt, _extract_gas_value (savings opt)) os) = total_savings os.
Proof.
  unfold sum. rewrite fold_left_add, Z.add_0_l.
  induction os as [|o os IH]; [done|].
  cbn [map foldr total_savings].
  rewrite extract_gas_value_first_number. f_equal. exact IH.
Qed.

Lemma decimal_nonneg (ds : str) : 0 ≤ decimal ds.
Proof.
  unfold decimal. assert (∀ a, 0 ≤ a →
    0 ≤ fold_left (λ acc c, 10 * acc + digit_value c) ds a) as H; [|by apply H].
  induction ds as [|c ds IH]; intros a Ha; [done|]. simpl. apply IH.
  unfold digit_value. lia.
Qed.

Lemma total_savings_nonneg (os : list GasOptimization) : 0 ≤ total_savings os.
Proof.
  induction os as [|o os IH]; simpl; [done|].
  pose proof (decimal_nonneg (first_digits (savings o))). unfold first_number. lia.
Qed.

(** C8: the potential savings of a report are the sum, over its
    optimization entries, of the first number of each savings estimate (0
    for an estimate without a digit), written [<sum> gas per transaction]
    when the sum is positive and [N/A] when it is zero. *)
Theorem gas_potential_savings (code language : str) :
  let report := analyze code language in
  let total := total_savings (optimizations report) in
  potential_savings report
  = (if 0 <? total then of_Z total ++ txt " gas per transaction" else txt "N/A")
  ∧ 0 ≤ total
  ∧ (∀ opt, _extract_gas_value (savings opt) = first_number (savings opt))
  ∧ (∀ estimate, Forall (λ c, is_digit c = false) estimate →
                 _extract_gas_value estimate = 0).
Proof.
  simpl. split; [|split; [|split]].
  - unfold analyze. destruct (negb (is_solidity language)); [done|].
    cbn [potential_savings optimizations]. by rewrite sum_extracted.
  - apply total_savings_nonneg.
  - intros opt. apply extract_gas_value_first_number.
  - intros estimate H. rewrite extract_gas_value_first_number.
    unfold first_number. by rewrite first_digits_none.
Qed.

Lemma gas_potential_savings_witness :
  _extract_gas_value (txt "no estimate") = 0.
Proof.
  apply (proj2 (proj2 (proj2 (gas_potential_savings [] []))) (txt "no estimate")).
  repeat constructor.
Defined.

End GasAnalyzerFacts.

(** ** The normalised response *)

Module AIReasoningFacts.
Import Text Base AIReasoning Samples.

Lemma lower_char_fixed (c : ascii) : lower_char (lower_char c) = lower_char c.
Proof. destruct c as [[] [] [] [] [] [] [] []]; reflexivity. Qed.

(** A lower-cased text has no upper-case letter left. *)
Lemma lower_is_lower (s : str) : Forall (λ c, lower_char c = c) (lower s).
Proof.
  unfold lower. induction s as [|c s IH]; simpl; constructor; [|done].
  apply lower_char_fixed.
Qed.

(** What one normalised record owes to the record it comes from. *)
Lemma normalize_vuln_fields (vuln : json) (done : nat) (nv : NormalizedVuln) :
  normalize_vuln vuln done = Return nv →
  ∃ m, vuln = JObj m
       ∧ lower_of (default (JStr (txt "info")) (m !! txt "severity"))
         = Return (v_severity nv)
       ∧ v_confidence nv = default (JInt 85) (m !! txt "confidence")
       ∧ v_detected_by nv = txt "ai".
Proof.
  destruct vuln as [| | | | |m]; try discriminate.
  intros H. exists m. split; [done|].
  unfold normalize_vuln in H. cbv [get mbind outcome_bind bind] in H.
  destruct (lower_of (default (JStr (txt "info")) (m !! txt "severity")))
    as [severity|]; [|discriminate].
  destruct (lower_of (default (JStr (txt "moderate")) (m !! txt "exploitability")))
    as [exploitability|]; [|discriminate].
  cbv [mbind outcome_bind bind mret outcome_ret] in H. by simplify_eq.
Qed.

Lemma normalize_vulns_fields (vs : list json) :
  ∀ acc out,
    normalize_vulns vs acc = Return out →
    ∃ nvs, out = acc ++ nvs
           ∧ Forall2 (λ vuln nv, ∃ done, normalize_vuln vuln done = Return nv) vs nvs.
Proof.
  induction vs as [|vuln vs IH]; intros acc out H; simpl in H.
  - simplify_eq. exists []. by rewrite app_nil_r.
  - cbv [mbind outcome_bind bind] in H.
    destruct (normalize_vuln vuln (length acc)) as [nv|] eqn:E; [|discriminate].
    apply IH in H as (nvs & -> & Hall).
    exists (nv :: nvs). rewrite <- app_assoc. split; [done|].
    constructor; eauto.
Qed.

Lemma normalize_vuln_total (vuln : json) (done : nat) :
  well_formed_record vuln → ∃ nv, normalize_vuln vuln done = Return nv.
Proof.
  intros (m & -> & Hsev & Hexp).
  unfold normalize_vuln. cbv [get mbind outcome_bind bind mret outcome_ret].
  destruct Hsev as [->|[s ->]], Hexp as [->|[e ->]];
    cbn [default lower_of]; eauto.
Qed.

Lemma normalize_vulns_total (vs : list json) :
  Forall well_formed_record vs →
  ∀ acc, ∃ out, normalize_vulns vs acc = Return out.
Proof.
  induction 1 as [|vuln vs Hv _ IH]; intros acc; simpl; [eauto|].
  destruct (normalize_vuln_total vuln (length acc) Hv) as [nv ->].
  cbv [mbind outcome_bind bind]. apply IH.
Qed.

Lemma lower_of_lower (v : json) (out : str) :
  lower_of v = Return out → ∃ s, v = JStr s ∧ out = lower s.
Proof. destruct v; simpl; intros H; simplify_eq; eauto. Qed.

(** C9: every record of the normalised output comes, in order, from a
    record of the response; its severity is the given one in lower case,
    [info] when none is given, and has no upper-case letter; its
    confidence is the given one, 85 when none is given; it is tagged
    [detected_by = ai].  A response of the agreed shape is normalised
    without an exception. *)
Theorem normalize_response_records (response : json) :
  (well_formed_response response → ∃ n, _normalize_response response = Return n)
  ∧ (∀ n, _normalize_response response = Return n →
       ∃ records,
         records_of response = Return records
         ∧ Forall2
             (λ vuln nv,
                ∃ m, vuln = JObj m
                     ∧ (∀ s, m !! txt "severity" = Some (JStr s) →
                             v_severity nv = lower s)
                     ∧ (m !! txt "severity" = None → v_severity nv = txt "info")
                     ∧ Forall (λ c, lower_char c = c) (v_severity nv)
                     ∧ (m !! txt "confidence" = None → v_confidence nv = JInt 85)
                     ∧ (∀ c, m !! txt "confidence" = Some c → v_confidence nv = c)
                     ∧ v_detected_by nv = txt "ai")
             records (vulnerabilities n)).
Proof.
  split.
  - intros (m & -> & Hrisk & Hvulns).
    unfold _normalize_response. cbv [get mbind outcome_bind bind mret outcome_ret].
    assert (∃ risk, lower_of (default (JStr (txt "unknown")) (m !! txt "overall_risk"))
                    = Return risk) as [risk ->].
    { destruct Hrisk as [->|[s ->]]; simpl; eauto. }
    destruct Hvulns as [->|(vs & -> & Hvs)]; cbn [default iterate id].
    + simpl. eauto.
    + destruct (normalize_vulns_total vs Hvs []) as [out ->]. eauto.
  - intros n H. destruct response as [| | | | |m]; try discriminate.
    unfold _normalize_response in H.
    cbv [get mbind outcome_bind bind mret outcome_ret] in H.
    destruct (lower_of (default (JStr (txt "unknown")) (m !! txt "overall_risk")))
      as [risk|]; [|discriminate].
    destruct (iterate (default (JArr []) (m !! txt "vulnerabilities")))
      as [records|] eqn:Hrec; [|discriminate].
    destruct (normalize_vulns records []) as [out|] eqn:Hout; [|discriminate].
    simplify_eq. exists records. split.
    { unfold records_of. by cbv [get mbind outcome_bind bind]. }
    apply normalize_vulns_fields in Hout as (nvs & -> & Hall).
    cbn [app vulnerabilities].
    eapply Forall2_impl; [exact Hall|].
    intros vuln nv [done (mv & -> & Hsev & Hconf & Htag)%normalize_vuln_fields].
    exists mv. split; [done|].
    apply lower_of_lower in Hsev as (s0 & Hs0 & Hlow).
    repeat split.
    + intros s Hs. rewrite Hs in Hs0. simpl in Hs0. by simplify_eq.
    + intros Hs. rewrite Hs in Hs0. simpl in Hs0. by simplify_eq.
    + rewrite Hlow. apply lower_is_lower.
    + intros Hc. by rewrite Hconf, Hc.
    + intros c Hc. by rewrite Hconf, Hc.
    + done.
Qed.

Lemma normalize_response_records_witness :
  let response :=
    JObj (<[txt "vulnerabilities" :=
              JArr [JObj (<[txt "severity" := JStr (txt "HIGH")]> ∅); JObj ∅]]> ∅) in
  ∃ n, _normalize_response response = Return n.
Proof.
  intros response. apply (proj1 (normalize_response_records response)).
  eexists. split; [reflexivity|]. split; [by left|].
  right. eexists. split; [reflexivity|].
  constructor; [|constructor; [|constructor]].
  - eexists. split; [reflexivity|]. split; [right; by eexists|by left].
  - eexists. split; [reflexivity|]. split; by left.
Defined.

End AIReasoningFacts.

(** ** More on scoring: range, monotonicity, risk level *)

Module ScoringMore.
Import Scoring ScoringFacts.

Lemma count_of_nonneg (m : gmap string Z) (level : string) :
  (∀ k v, m !! k = Some v → 0 ≤ v) → 0 ≤ count_of m level.
Proof.
  intros H. unfold count_of. destruct (m !! level) as [v|] eqn:E; simpl; [|done].
  by apply (H level).
Qed.

Lemma score_penalty (m : gmap string Z) :
  calculate_risk_score m = Z.max 0 (100 - penalty m).
Proof. unfold calculate_risk_score. by rewrite risk_fold_penalty. Qed.

(** With counts that are not negative the score lies between 0 and 100. *)
Theorem risk_score_in_range (severity_counts : gmap string Z) :
  (∀ k v, severity_counts !! k = Some v → 0 ≤ v) →
  0 ≤ calculate_risk_score severity_counts ≤ 100.
Proof.
  intros H. rewrite score_penalty. unfold penalty.
  pose proof (count_of_nonneg _ "critical" H).
  pose proof (count_of_nonneg _ "high" H).
  pose proof (count_of_nonneg _ "medium" H).
  pose proof (count_of_nonneg _ "low" H).
  pose proof (count_of_nonneg _ "info" H). lia.
Qed.

Lemma risk_score_in_range_witness :
  0 ≤ calculate_risk_score (histogram 1 2 0 3 0) ≤ 100.
Proof.
  apply risk_score_in_range. intros k v. unfold histogram.
  repeat (rewrite lookup_insert; case_decide; [intros ?; simplify_eq; lia|]).
  by rewrite lookup_empty.
Defined.

(** X1: more findings of any level never give a better score. *)
Theorem risk_score_antitone (m1 m2 : gmap string Z) :
  count_of m1 "critical" ≤ count_of m2 "critical" →
  count_of m1 "high" ≤ count_of m2 "high" →
  count_of m1 "medium" ≤ count_of m2 "medium" →
  count_of m1 "low" ≤ count_of m2 "low" →
  count_of m1 "info" ≤ count_of m2 "info" →
  calculate_risk_score m2 ≤ calculate_risk_score m1.
Proof. intros. rewrite !score_penalty. unfold penalty. lia. Qed.

Lemma risk_score_antitone_witness :
  calculate_risk_score (histogram 1 1 0 0 0) ≤ calculate_risk_score (histogram 0 1 0 0 0).
Proof. apply risk_score_antitone; vm_compute; discriminate. Defined.

(** X2: the risk level and the letter grade of one score agree: Low is A+ to
    B+, Medium is B to C, and High or Critical is C- and below; a Critical
    level always comes with an F. *)
Theorem risk_level_agrees_with_rating (risk_score : Z) :
  (get_overall_risk_level risk_score = "Low"%string
   ↔ calculate_security_rating risk_score ∈ ["A+"; "A"; "A-"; "B+"]%string)
  ∧ (get_overall_risk_level risk_score = "Medium"%string
     ↔ calculate_security_rating risk_score ∈ ["B"; "B-"; "C+"; "C"]%string)
  ∧ (get_overall_risk_level risk_score ∈ ["High"; "Critical"]%string
     ↔ calculate_security_rating risk_score ∈ ["C-"; "D"; "F"]%string)
  ∧ (get_overall_risk_level risk_score = "Critical"%string →
     calculate_security_rating risk_score = "F"%string).
Proof.
  unfold get_overall_risk_level, calculate_security_rating.
  repeat case_match; try lia;
    repeat split; intros; try done;
    repeat match goal with
           | H : _ ∈ _ :: _ |- _ => apply elem_of_cons in H as [H|H]; try done
           | H : _ ∈ [] |- _ => by apply elem_of_nil in H
           end;
    repeat constructor.
Qed.

(** X3: a higher score never gets a worse letter. *)
Theorem rating_monotone (s1 s2 : Z) :
  s1 ≤ s2 →
  (grade_rank (calculate_security_rating s2)
   ≤ grade_rank (calculate_security_rating s1))%nat.
Proof.
  intros H. unfold calculate_security_rating.
  repeat case_match; try lia; vm_compute; lia.
Qed.

Lemma rating_monotone_witness :
  (grade_rank (calculate_security_rating 91)
   ≤ grade_rank (calculate_security_rating 62))%nat.
Proof. apply rating_monotone. lia. Defined.

End ScoringMore.

(** ** The counts and the score of an audit *)

Module PipelineFacts.
Import Scoring ScoringFacts ScoringMore Pipeline.

Lemma occurrences_cons (level s : string) (severities : list string) :
  occurrences level (s :: severities)
  = (if decide (s = level) then 1 else 0) + occurrences level severities.
Proof.
  unfold occurrences. destruct (decide (s = level)) as [E|E].
  - rewrite filter_cons_True by done. simpl length. lia.
  - rewrite filter_cons_False by done. lia.
Qed.

(** A level the dict has keeps being a key and gains one per finding of
    that level; whatever is no key is never added. *)
Lemma count_fold (severities : list string) :
  ∀ (m : gmap string Z) (level : string),
    (is_Some (m !! level) →
     is_Some (fold_left count_step severities m !! level)
     ∧ count_of (fold_left count_step severities m) level
       = count_of m level + occurrences level severities)
    ∧ (m !! level = None → fold_left count_step severities m !! level = None).
Proof.
  induction severities as [|s severities IH]; intros m level.
  - simpl. unfold occurrences. simpl. split; [|done]. intros H. split; [done|lia].
  - cbn [fold_left]. rewrite occurrences_cons. unfold count_step at 2 4 6.
    destruct (m !! s) as [n|] eqn:Es.
    + destruct (IH (<[s := n + 1]> m) level) as [IHs IHn]. split.
      * intros Hl. destruct IHs as [Hk Hc].
        { rewrite lookup_insert. case_decide; [eauto|done]. }
        split; [done|]. rewrite Hc. unfold count_of at 1 2.
        destruct (decide (s = level)) as [->|Hne].
        -- rewrite lookup_insert_eq, Es. simpl. lia.
        -- rewrite lookup_insert_ne by done. lia.
      * intros Hl. apply IHn. rewrite lookup_insert_ne; [done|]. congruence.
    + destruct (IH m level) as [IHs IHn]. split; [|done].
      intros Hl. destruct (IHs Hl) as [Hk Hc]. split; [done|].
      rewrite Hc. rewrite decide_False; [lia|]. intros ->.
      rewrite Es in Hl. by destruct Hl.
Qed.

Lemma histogram_keys (level : string) :
  level ∈ levels → is_Some (histogram 0 0 0 0 0 !! level)
                   ∧ count_of (histogram 0 0 0 0 0) level = 0.
Proof.
  unfold levels. intros H.
  repeat match goal with
         | H : _ ∈ _ :: _ |- _ => apply elem_of_cons in H as [->|H]
         | H : _ ∈ [] |- _ => by apply elem_of_nil in H
         end; vm_compute; eauto.
Qed.

Lemma count_severities_level (severities : list string) (level : string) :
  level ∈ levels →
  count_of (count_severities severities) level = occurrences level severities.
Proof.
  intros Hl. destruct (histogram_keys level Hl) as [Hk H0].
  destruct (count_fold severities (histogram 0 0 0 0 0) level) as [Hs _].
  destruct (Hs Hk) as [_ Hc]. unfold count_severities. rewrite Hc. lia.
Qed.

(** X4: the count the task stores for each of the five levels is the number
    of findings of that level (findings of any other severity are counted
    nowhere), the score is [max(0, 100 - weighted sum of these numbers)],
    it lies between 0 and 100, and it does not depend on the order of the
    findings. *)
Theorem audit_score_from_findings (severities : list string) :
  (∀ level, level ∈ levels →
            count_of (count_severities severities) level
            = occurrences level severities)
  ∧ (∀ other, other ∉ levels → count_severities severities !! other = None)
  ∧ risk_score_of severities
    = Z.max 0 (100 - (25 * occurrences "critical" severities
                      + 15 * occurrences "high" severities
                      + 8 * occurrences "medium" severities
                      + 3 * occurrences "low" severities
                      + 1 * occurrences "info" severities))
  ∧ 0 ≤ risk_score_of severities ≤ 100
  ∧ (∀ severities', severities ≡ₚ severities' →
                    risk_score_of severities' = risk_score_of severities).
Proof.
  assert (Hform : ∀ l, risk_score_of l
    = Z.max 0 (100 - (25 * occurrences "critical" l + 15 * occurrences "high" l
                      + 8 * occurrences "medium" l + 3 * occurrences "low" l
                      + 1 * occurrences "info" l))).
  { intros l. unfold risk_score_of. rewrite score_penalty. unfold penalty.
    rewrite !count_severities_level by (unfold levels; repeat constructor). done. }
  split; [intros; by apply count_severities_level|]. split.
  { intros other Hother.
    destruct (count_fold severities (histogram 0 0 0 0 0) other) as [_ Hn].
    apply Hn. unfold histogram, levels in *.
    repeat (rewrite lookup_insert_ne; [|intros <-; apply Hother; repeat constructor]).
    apply lookup_empty. }
  split; [apply Hform|]. split.
  - rewrite Hform. unfold occurrences. lia.
  - intros l' Hp. rewrite !Hform. unfold occurrences. by rewrite Hp.
Qed.

End PipelineFacts.

(** ** Matches, their positions and their groups *)

Module RegexMore.
Import Text Regex RegexFacts.

Lemma m_sound_caps {R} r :
  ∀ prev s caps (k : option ascii → str → captures → option R) x,
    m r prev s caps k = Some x →
    ∃ w s' prev' caps',
      s = w ++ s' ∧ lang r w ∧ captured r caps caps' ∧ k prev' s' caps' = Some x.
Proof.
  induction r as [|c|p|p|r1 IH1 r2 IH2|r1 IH1 r2 IH2|n r IH|];
    intros prev s caps k x H; simpl in H.
  - exists [], s, prev, caps. done.
  - destruct s as [|a s]; [done|]. destruct (Ascii.eqb a c) eqn:E; [|done].
    apply Ascii.eqb_eq in E as ->. exists [c], s, (Some c), caps. done.
  - destruct s as [|a s]; [done|]. destruct (p a) eqn:E; [|done].
    exists [a], s, (Some a), caps. simpl. repeat split; eauto.
  - apply star_m_sound in H as (w & s' & prev' & -> & Hw & Hk).
    exists w, s', prev', caps. done.
  - apply IH1 in H as (w1 & s1 & p1 & c1 & -> & L1 & C1 & H).
    apply IH2 in H as (w2 & s2 & p2 & c2 & -> & L2 & C2 & H).
    exists (w1 ++ w2), s2, p2, c2. rewrite <- app_assoc.
    split; [done|]. simpl. repeat split; eauto 10.
  - destruct (m r1 prev s caps k) eqn:E.
    + simplify_eq. apply IH1 in E as (w & s' & p' & c' & -> & L & C & H).
      exists w, s', p', c'. simpl. repeat split; eauto.
    + apply IH2 in H as (w & s' & p' & c' & -> & L & C & H).
      exists w, s', p', c'. simpl. repeat split; eauto.
  - apply IH in H as (w & s' & p' & c' & -> & L & C & H).
    rewrite length_app in H.
    replace (length w + length s' - length s')%nat with (length w) in H by lia.
    rewrite take_app_length in H.
    exists w, s', p', ((n, w) :: c'). simpl. repeat split; eauto 10.
  - destruct (xorb _ _); [|done]. exists [], s, prev, caps. done.
Qed.

Lemma match_here_sound r prev s n caps :
  match_here r prev s = Some (n, caps) →
  ∃ w s', s = w ++ s' ∧ lang r w ∧ captured r [] caps ∧ n = length w.
Proof.
  unfold match_here. intros H.
  apply m_sound_caps in H as (w & s' & ? & caps' & -> & L & C & H).
  simplify_eq. exists w, s'. rewrite length_app.
  split; [done|]. split; [done|]. split; [done|]. lia.
Qed.

(** What [re.search] returns is a word of the pattern, at the position
    given, with the groups of that match. *)
Lemma search_aux_sound r s :
  ∀ prev pos mt,
    search_aux r prev s pos = Some mt →
    ∃ pre w post,
      s = pre ++ w ++ post ∧ lang r w ∧ captured r [] (m_caps mt)
      ∧ m_start mt = (pos + length pre)%nat
      ∧ m_end mt = (m_start mt + length w)%nat.
Proof.
  induction s as [|c s IH]; intros prev pos mt H; simpl in H.
  - destruct (match_here r prev []) as [[n caps]|] eqn:E; [|done].
    simplify_eq. apply match_here_sound in E as (w & s' & E & L & C & ->).
    exists [], w, s'. simpl. repeat split; first [done | lia].
  - destruct (match_here r prev (c :: s)) as [[n caps]|] eqn:E.
    + simplify_eq. apply match_here_sound in E as (w & s' & E & L & C & ->).
      exists [], w, s'. simpl. repeat split; first [done | lia].
    + apply IH in H as (pre & w & post & -> & L & C & Hs & He).
      exists (c :: pre), w, post. simpl. repeat split; first [done | lia].
Qed.

Lemma search_sound r s mt :
  search r s = Some mt →
  ∃ pre w post,
    s = pre ++ w ++ post ∧ lang r w ∧ captured r [] (m_caps mt)
    ∧ m_start mt = length pre ∧ m_end mt = (length pre + length w)%nat.
Proof.
  intros H. apply search_aux_sound in H as (pre & w & post & ? & ? & ? & Hs & He).
  exists pre, w, post. rewrite He, Hs. done.
Qed.

(** Every match [re.finditer] yields is a word of the pattern, at the
    position given. *)
Lemma finditer_aux_sound r s :
  ∀ prev pos skip mt,
    mt ∈ finditer_aux r prev s pos skip →
    ∃ pre w post,
      s = pre ++ w ++ post ∧ lang r w ∧ captured r [] (m_caps mt)
      ∧ m_start mt = (pos + length pre)%nat
      ∧ m_end mt = (m_start mt + length w)%nat.
Proof.
  induction s as [|c s IH]; intros prev pos skip mt H; simpl in H.
  - destruct skip; [|by apply elem_of_nil in H].
    destruct (match_here r prev []) as [[n caps]|] eqn:E;
      [|by apply elem_of_nil in H].
    apply list_elem_of_singleton in H as ->.
    apply match_here_sound in E as (w & s' & E & L & C & ->).
    exists [], w, s'. simpl. repeat split; first [done | lia].
  - assert (Hrest : ∀ prev' skip',
               mt ∈ finditer_aux r prev' s (S pos) skip' →
               ∃ pre w post,
                 c :: s = pre ++ w ++ post ∧ lang r w ∧ captured r [] (m_caps mt)
                 ∧ m_start mt = (pos + length pre)%nat
                 ∧ m_end mt = (m_start mt + length w)%nat).
    { intros prev' skip' H'.
      apply IH in H' as (pre & w & post & -> & L & C & Hs & He).
      exists (c :: pre), w, post. simpl. repeat split; first [done | lia]. }
    destruct skip as [|j]; [|by eapply Hrest].
    destruct (match_here r prev (c :: s)) as [[n caps]|] eqn:E; [|by eapply Hrest].
    apply elem_of_cons in H as [->|H]; [|by eapply Hrest].
    apply match_here_sound in E as (w & s' & E & L & C & ->).
    exists [], w, s'. simpl. repeat split; first [done | lia].
Qed.

Lemma finditer_sound r s mt :
  mt ∈ finditer r s →
  ∃ pre w post,
    s = pre ++ w ++ post ∧ lang r w ∧ captured r [] (m_caps mt)
    ∧ m_start mt = length pre ∧ m_end mt = (length pre + length w)%nat.
Proof.
  intros H. apply finditer_aux_sound in H as (pre & w & post & ? & ? & ? & Hs & He).
  exists pre, w, post. rewrite He, Hs. done.
Qed.

Lemma finditer_start_le r s mt : mt ∈ finditer r s → (m_start mt ≤ length s)%nat.
Proof.
  intros (pre & w & post & -> & _ & _ & -> & _)%finditer_sound.
  rewrite length_app. lia.
Qed.

Lemma captured_group_free r :
  group_free r = true → ∀ caps caps', captured r caps caps' → caps' = caps.
Proof.
  induction r as [|c|p|p|r1 IH1 r2 IH2|r1 IH1 r2 IH2|n r IH|]; simpl; try done.
  - intros [H1 H2]%andb_true_iff caps caps' (mid & C1 & C2).
    apply IH1 in C1; [|done]. apply IH2 in C2; [|done]. congruence.
  - intros [H1 H2]%andb_true_iff caps caps' [C|C]; auto.
Qed.

Lemma captured_Seq_cons r rs caps caps' :
  captured (Seq (r :: rs)) caps caps' →
  ∃ mid, captured r caps mid ∧ captured (Seq rs) mid caps'.
Proof.
  destruct rs as [|r' rs]; [|done]. simpl. intros H. by exists caps'.
Qed.

Lemma bnd_free_Lit s : bnd_free (Lit s) = true.
Proof.
  induction s as [|c s IH]; [done|]. destruct s as [|c' s]; [done|].
  change (Lit (c :: c' :: s)) with (Cat (Chr c) (Lit (c' :: s))). simpl. exact IH.
Qed.

Lemma group_free_Lit s : group_free (Lit s) = true.
Proof.
  induction s as [|c s IH]; [done|]. destruct s as [|c' s]; [done|].
  change (Lit (c :: c' :: s)) with (Cat (Chr c) (Lit (c' :: s))). simpl. exact IH.
Qed.

End RegexMore.

(** ** The integer-overflow detector always returns *)

Module IntegerOverflowMore.
Import Text Regex Base IntegerOverflow RegexFacts RegexMore BaseFacts Samples.
Import IntegerOverflowFacts.

Lemma digits_no_dot (s : str) : Forall (λ c, is_digit c = true) s → "."%char ∉ s.
Proof.
  intros H Hin. rewrite Forall_forall in H. by specialize (H _ Hin).
Qed.

Lemma int_of_str_digits (s : str) : digits_ok s → is_Some (int_of_str s).
Proof.
  intros [Hne Hd]. unfold int_of_str. destruct s as [|c s]; [done|].
  assert (forallb is_digit (c :: s) = true) as ->; [|eauto].
  apply forallb_forall. intros x Hx. rewrite Forall_forall in Hd.
  apply Hd. by apply list_elem_of_In.
Qed.

(** A version the pattern has captured always splits into three numbers. *)
Lemma parse_version_digits (a b c : str) :
  digits_ok a → digits_ok b → digits_ok c →
  ∃ major minor, parse_version (a ++ "."%char :: b ++ "."%char :: c)
                 = Return (major, minor).
Proof.
  intros Ha Hb Hc. unfold parse_version.
  rewrite (TxOriginFacts.split_on_app_sep "." a) by (apply digits_no_dot, Ha).
  rewrite (TxOriginFacts.split_on_app_sep "." b) by (apply digits_no_dot, Hb).
  rewrite (TxOriginFacts.split_on_no_sep "." c) by (apply digits_no_dot, Hc).
  destruct (int_of_str_digits a Ha) as [za Hza].
  destruct (int_of_str_digits b Hb) as [zb Hzb].
  destruct (int_of_str_digits c Hc) as [zc Hzc].
  cbn [map]. rewrite Hza, Hzb, Hzc. eauto.
Qed.

Lemma version_group code version_match :
  search version_pattern code = Some version_match →
  ∃ a b c, digits_ok a ∧ digits_ok b ∧ digits_ok c
           ∧ group 1 version_match = Some (a ++ "."%char :: b ++ "."%char :: c).
Proof.
  intros (pre & w & post & _ & _ & C & _)%search_sound.
  unfold version_pattern in C.
  apply captured_Seq_cons in C as (c1 & C1 & C).
  apply captured_group_free in C1 as ->; [|apply group_free_Lit].
  apply captured_Seq_cons in C as (c2 & C2 & C).
  apply captured_group_free in C2 as ->; [|done].
  apply captured_Seq_cons in C as (c3 & C3 & C).
  apply captured_group_free in C3 as ->; [|apply group_free_Lit].
  apply captured_Seq_cons in C as (c4 & C4 & C).
  apply captured_group_free in C4 as ->; [|done].
  apply captured_Seq_cons in C as (c5 & C5 & C).
  apply captured_group_free in C5 as ->; [|done].
  destruct C as (v & inner & L & Ci & E).
  apply captured_group_free in Ci as ->; [|done].
  apply lang_Seq_cons in L as (a & v1 & -> & [Ha1 Ha2]%lang_Plus & L).
  apply lang_Seq_cons in L as (d1 & v2 & -> & -> & L).
  apply lang_Seq_cons in L as (b & v3 & -> & [Hb1 Hb2]%lang_Plus & L).
  apply lang_Seq_cons in L as (d2 & v4 & -> & -> & L).
  apply lang_Plus in L as [Hc1 Hc2].
  exists a, b, v4. unfold digits_ok, group. rewrite E. done.
Qed.

End IntegerOverflowMore.

(** ** Lines, line numbers and context snippets *)

Module TextMore.
Import Text Regex Base Samples TxOriginFacts.

Lemma split_lines_cons (s : str) : ∃ l ls, split_lines s = l :: ls.
Proof.
  destruct (split_on_lines nl s) as [_ Hne]. unfold split_lines.
  destruct (split_on nl s); [done|eauto].
Qed.

Lemma count_nl_cons (c : ascii) (s : str) :
  count_nl (c :: s) = ((if Ascii.eqb c nl then 1 else 0) + count_nl s)%nat.
Proof.
  unfold count_nl. destruct (Ascii.eqb c nl) eqn:E.
  - by rewrite filter_cons_True.
  - rewrite filter_cons_False; [done|]. by rewrite E.
Qed.

(** [len(code.split('\n'))] is one more than the number of line breaks. *)
Lemma length_split_lines (s : str) :
  length (split_lines s) = (count_nl s + 1)%nat.
Proof.
  induction s as [|c s IH]; [done|]. rewrite count_nl_cons.
  unfold split_lines in *. simpl. destruct (Ascii.eqb c nl).
  - simpl. rewrite IH. lia.
  - destruct (split_on nl s); simpl in *; lia.
Qed.

Lemma count_nl_take (n : nat) (s : str) : (count_nl (take n s) ≤ count_nl s)%nat.
Proof.
  revert n. induction s as [|c s IH]; intros [|n]; simpl; try (unfold count_nl; simpl; lia).
  rewrite !count_nl_cons. specialize (IH n). lia.
Qed.

(** Splitting into lines and joining them gives the text back. *)
Lemma join_split (s : str) : join_lines (split_lines s) = s.
Proof.
  unfold split_lines. induction s as [|c s IH]; [done|]. simpl.
  destruct (Ascii.eqb c nl) eqn:E.
  - apply Ascii.eqb_eq in E as ->.
    destruct (split_on_lines nl s) as [_ Hne].
    destruct (split_on nl s) as [|l ls] eqn:Es; [done|].
    simpl in *. by rewrite IH.
  - destruct (split_on nl s) as [|l ls] eqn:Es; simpl in *; [by subst|].
    destruct ls; simpl in *; by rewrite <- IH.
Qed.

Lemma split_lines_at_offset (a b : str) :
  split_lines (a ++ b) !! count_nl a = Some (last_line a ++ first_line b).
Proof.
  unfold last_line, first_line. induction a as [|c a IH].
  - destruct (split_lines_cons b) as (l & ls & E). simpl. by rewrite E.
  - rewrite count_nl_cons. pose proof (length_split_lines a) as Hlen.
    destruct (split_lines_cons a) as (l' & ls' & Ea).
    destruct (split_lines_cons (a ++ b)) as (l & ls & Eab).
    unfold split_lines in *. simpl. rewrite Ea, Eab in *.
    destruct (Ascii.eqb c nl); simpl; [exact IH|].
    destruct ls' as [|x ls']; simpl in *.
    + replace (count_nl a) with 0%nat in * by lia. simpl in *.
      by simplify_eq.
    + replace (count_nl a) with (S (length ls')) in * by lia. exact IH.
Qed.

(** Text without a line break in front of [b] stays on [b]'s first line. *)
Lemma first_line_app (a b : str) :
  nl ∉ a → first_line (a ++ b) = a ++ first_line b.
Proof.
  unfold first_line. induction a as [|c a IH]; intros Hnl; [done|].
  assert (Ascii.eqb c nl = false) as Hc.
  { apply Ascii.eqb_neq. intros ->. apply Hnl. left. }
  assert (nl ∉ a) as Ha by (intros ?; apply Hnl; by right).
  specialize (IH Ha).
  destruct (split_lines_cons (a ++ b)) as (l & ls & E).
  unfold split_lines in *. simpl. rewrite Hc, E in *. simpl in *. by rewrite IH.
Qed.

(** The line number the detectors compute from an offset,
    [code[:pos].count('\n') + 1], is the number of the line of
    [code.split('\n')] that holds the offset: that line is the text around
    the offset up to the nearest line breaks. *)
Theorem line_of_offset (a b : str) :
  split_lines (a ++ b) !! count_nl a = Some (last_line a ++ first_line b)
  ∧ (count_nl a + 1 ≤ length (split_lines (a ++ b)))%nat.
Proof.
  split; [apply split_lines_at_offset|].
  rewrite length_split_lines. unfold count_nl. rewrite filter_app, length_app. lia.
Qed.

Lemma context_window_lines (lines : list str) (n c : nat) :
  (1 ≤ n ≤ length lines)%nat →
  context_window lines n c ≠ []
  ∧ (length (context_window lines n c) ≤ 2 * c + 1)%nat
  ∧ context_window lines n c !! (n - 1 - (n - c - 1))%nat = lines !! (n - 1)%nat.
Proof.
  intros Hn. unfold context_window.
  set (start := (n - c - 1)%nat). set (stop := Nat.min (length lines) (n + c)).
  assert (start ≤ n - 1 < stop)%nat by (unfold start, stop; lia).
  split; [|split].
  - intros E. apply (f_equal length) in E. rewrite length_take, length_drop in E.
    simpl in E. lia.
  - rewrite length_take, length_drop. unfold start, stop. lia.
  - rewrite lookup_take_lt by lia. rewrite lookup_drop. f_equal. lia.
Qed.

(** X5: for a line number of the source, the snippet [get_line_context]
    returns splits back into the window of lines around it: the window is
    not empty, has at most [2 * context_lines + 1] lines and holds the line
    asked for; a window that covers every line gives the source itself. *)
Theorem get_line_context_window (code : str) (line_number context_lines : nat) :
  (1 ≤ line_number ≤ length (split_lines code))%nat →
  let window := context_window (split_lines code) line_number context_lines in
  split_lines (get_line_context code line_number context_lines) = window
  ∧ (1 ≤ length window ≤ 2 * context_lines + 1)%nat
  ∧ (∃ l, split_lines code !! (line_number - 1)%nat = Some l ∧ l ∈ window)
  ∧ (line_number ≤ context_lines + 1 →
     length (split_lines code) ≤ line_number + context_lines →
     get_line_context code line_number context_lines = code)%nat.
Proof.
  intros Hn window.
  destruct (context_window_lines (split_lines code) line_number context_lines Hn)
    as (Hne & Hlen & Hat).
  fold window in Hne, Hlen, Hat.
  assert (split_lines (get_line_context code line_number context_lines) = window)
    as Hsplit.
  { unfold get_line_context. apply split_join; [exact Hne|].
    destruct (split_on_lines nl code) as [Hall _].
    apply Forall_take, Forall_drop. exact Hall. }
  split; [done|]. split; [|split].
  - destruct window; [done|]. simpl in *. lia.
  - destruct (lookup_lt_is_Some_2 (split_lines code) (line_number - 1)) as [l Hl];
      [lia|].
    exists l. split; [done|]. apply list_elem_of_lookup.
    eexists. rewrite Hat. exact Hl.
  - intros H1 H2. unfold get_line_context.
    replace (line_number - context_lines - 1)%nat with 0%nat by lia.
    rewrite Nat.min_l by lia. rewrite Nat.sub_0_r. simpl drop.
    rewrite firstn_all. apply join_split.
Qed.

Lemma get_line_context_window_witness :
  let code := txt "a
b
c
d" in
  split_lines (get_line_context code 2 1) = context_window (split_lines code) 2 1.
Proof.
  intros code. apply (get_line_context_window code 2 1). vm_compute. lia.
Defined.

End TextMore.

(** ** What the line-by-line detectors report, and in which order *)

Module DetectorsMore.
Import Text Regex Base RegexFacts RegexMore BaseFacts Samples TextMore.

Section LineScan.
(** A scan that reports at most once per line, on line [j + 1] for index [j]. *)
Variable g : nat → str → list Finding.
Hypothesis g_line : ∀ j l f, f ∈ g j l → line_number f = Some (j + 1)%nat.
Hypothesis g_single : ∀ j l, (length (g j l) ≤ 1)%nat.

Lemma scan_elem (lines : list str) :
  ∀ k f,
    f ∈ flat_map (λ '(j, l), g j l) (enumerate_from k lines) →
    ∃ i line, lines !! i = Some line ∧ f ∈ g (k + i)%nat line.
Proof.
  induction lines as [|l lines IH]; intros k f; simpl; [by intros ?%elem_of_nil|].
  intros [H|H]%elem_of_app.
  - exists 0%nat, l. by rewrite Nat.add_0_r.
  - apply IH in H as (i & line & Hi & Hf). exists (S i), line.
    split; [done|]. by replace (k + S i)%nat with (S k + i)%nat by lia.
Qed.

Lemma scan_sorted (lines : list str) :
  ∀ k,
    let fs := flat_map (λ '(j, l), g j l) (enumerate_from k lines) in
    StronglySorted lt (line_numbers fs)
    ∧ Forall (λ n, k < n ≤ k + length lines)%nat (line_numbers fs)
    ∧ length (line_numbers fs) = length fs.
Proof.
  unfold line_numbers.
  induction lines as [|l lines IH]; intros k; simpl.
  - repeat split; constructor.
  - destruct (IH (S k)) as (Hs & Hb & Hl). rewrite omap_app, length_app, length_app.
    pose proof (g_single k l) as Hone. pose proof (g_line k l) as Hline.
    destruct (g k l) as [|f [|f' rest]]; simpl in *; [| |lia].
    + split; [done|]. split; [|done]. eapply Forall_impl; [exact Hb|].
      intros n ?. simpl in *. lia.
    + rewrite (Hline f) by left. simpl. split; [|split].
      * constructor; [done|]. eapply Forall_impl; [exact Hb|].
        intros n ?. simpl in *. lia.
      * constructor; [lia|]. eapply Forall_impl; [exact Hb|].
        intros n ?. simpl in *. lia.
      * by rewrite Hl.
Qed.
End LineScan.

Lemma enumerate_scan_bounds (g : nat → str → list Finding) (code : str) :
  (∀ j l f, f ∈ g j l → line_number f = Some (j + 1)%nat) →
  (∀ j l, (length (g j l) ≤ 1)%nat) →
  let fs := flat_map (λ '(j, l), g j l) (enumerate (split_lines code)) in
  StronglySorted lt (line_numbers fs)
  ∧ length (line_numbers fs) = length fs
  ∧ Forall (λ n, 1 ≤ n ≤ length (split_lines code))%nat (line_numbers fs).
Proof.
  intros Hline Hone.
  destruct (scan_sorted g Hline Hone (split_lines code) 0) as (Hs & Hb & Hl).
  split; [done|]. split; [done|].
  eapply Forall_impl; [exact Hb|]. intros n ?. simpl in *. lia.
Qed.

Lemma tx_scan_single ps code lines i line :
  (length (TxOrigin.scan_patterns ps code lines i line) ≤ 1)%nat.
Proof.
  induction ps as [|p ps IH]; simpl; [lia|]. destruct (found p line); simpl; lia.
Qed.

Lemma tx_scan_reported ps code lines i line f :
  f ∈ TxOrigin.scan_patterns ps code lines i line →
  f = TxOrigin.report code lines i line ∧ ∃ p, p ∈ ps ∧ found p line = true.
Proof.
  induction ps as [|p ps IH]; simpl; [by intros ?%elem_of_nil|].
  destruct (found p line) eqn:E.
  - intros ->%list_elem_of_singleton. split; [done|]. exists p. split; [left|done].
  - intros [-> (q & Hq & Hf)]%IH. split; [done|]. exists q. split; [by right|done].
Qed.

(** The tx.origin detector reports each line at most once, in source
    order, and only lines of the source. *)
Lemma tx_origin_order (code language : str) :
  let fs := TxOrigin.detect code language in
  StronglySorted lt (line_numbers fs)
  ∧ length (line_numbers fs) = length fs
  ∧ Forall (λ n, 1 ≤ n ≤ length (split_lines code))%nat (line_numbers fs).
Proof.
  unfold TxOrigin.detect. destruct (negb (is_solidity language)).
  - simpl. repeat split; constructor.
  - apply (enumerate_scan_bounds
             (λ j l, TxOrigin.scan_patterns TxOrigin.tx_origin_patterns code
                       (split_lines code) j l)).
    + intros j l f Hf. by apply TxOriginFacts.tx_scan_patterns_line in Hf as [? _].
    + intros j l. apply tx_scan_single.
Qed.

(** X7: every finding of the tx.origin detector is on a line that contains
    [tx.origin]; the fix it proposes is that line with [tx.origin] replaced,
    contains no [tx.origin] any more, and matches none of the detector's
    patterns. *)
Theorem tx_origin_report_sound (code language : str) (f : Finding) :
  f ∈ TxOrigin.detect code language →
  ∃ i line,
    split_lines code !! i = Some line
    ∧ line_number f = Some (i + 1)%nat
    ∧ contains (txt "tx.origin") line = true
    ∧ fixed_code f = Some (replace (txt "tx.origin") (txt "msg.sender") line)
    ∧ contains (txt "tx.origin")
        (replace (txt "tx.origin") (txt "msg.sender") line) = false
    ∧ (∀ p, p ∈ TxOrigin.tx_origin_patterns →
            found p (replace (txt "tx.origin") (txt "msg.sender") line) = false).
Proof.
  unfold TxOrigin.detect. destruct (negb (is_solidity language));
    [by intros ?%elem_of_nil|].
  intros Hf.
  apply (scan_elem (λ j l, TxOrigin.scan_patterns TxOrigin.tx_origin_patterns code
                             (split_lines code) j l)) in Hf
    as (i & line & Hi & Hf).
  apply tx_scan_reported in Hf as [-> (p & Hp & Hfound)].
  exists i, line. split; [done|]. split; [done|].
  split; [by eapply TxOriginFacts.pattern_needs_tx_origin|].
  split; [done|]. split; [apply replace_tx_origin_clean|].
  intros q Hq. destruct (found q _) eqn:E; [|done].
  apply (TxOriginFacts.pattern_needs_tx_origin _ _ Hq) in E.
  by rewrite replace_tx_origin_clean in E.
Qed.

Lemma tx_origin_report_sound_witness :
  let code := txt "if (tx.origin != admin) revert();" in
  let f := TxOrigin.report code (split_lines code) 0 code in
  ∃ i line,
    split_lines code !! i = Some line
    ∧ line_number f = Some (i + 1)%nat
    ∧ contains (txt "tx.origin") line = true
    ∧ fixed_code f = Some (replace (txt "tx.origin") (txt "msg.sender") line)
    ∧ contains (txt "tx.origin")
        (replace (txt "tx.origin") (txt "msg.sender") line) = false
    ∧ (∀ p, p ∈ TxOrigin.tx_origin_patterns →
            found p (replace (txt "tx.origin") (txt "msg.sender") line) = false).
Proof.
  intros code f. apply (tx_origin_report_sound code solidity f).
  vm_compute. left.
Defined.

Lemma call_scan_single ps code lines i line :
  (length (UncheckedCall.scan_patterns ps code lines i line) ≤ 1)%nat.
Proof.
  induction ps as [|[p ct] ps IH]; simpl; [lia|].
  destruct (found p line); [|done].
  destruct (negb (UncheckedCall.is_checked lines i line)); simpl; lia.
Qed.

Lemma call_scan_reported ps code lines i line f :
  f ∈ UncheckedCall.scan_patterns ps code lines i line →
  UncheckedCall.is_checked lines i line = false
  ∧ ∃ p ct, (p, ct) ∈ ps ∧ found p line = true
            ∧ f = UncheckedCall.report code lines i ct.
Proof.
  induction ps as [|[p ct] ps IH]; simpl; [by intros ?%elem_of_nil|].
  assert (Hrest : f ∈ UncheckedCall.scan_patterns ps code lines i line →
                  UncheckedCall.is_checked lines i line = false
                  ∧ ∃ p0 ct0, (p0, ct0) ∈ (p, ct) :: ps ∧ found p0 line = true
                              ∧ f = UncheckedCall.report code lines i ct0).
  { intros [Hc (q & ct' & Hq & Hf & ->)]%IH. split; [done|].
    exists q, ct'. split; [by right|done]. }
  destruct (found p line) eqn:E; [|done].
  destruct (UncheckedCall.is_checked lines i line) eqn:Ec; simpl; [done|].
  intros ->%list_elem_of_singleton. split; [done|].
  exists p, ct. split; [left|done].
Qed.

(** Each call pattern goes through the text [.call], [.delegatecall] or
    [.send] it is named after. *)
Lemma call_pattern_text p ct line :
  (p, ct) ∈ UncheckedCall.call_patterns → found p line = true →
  ct ∈ [txt "call"; txt "delegatecall"; txt "send"]
  ∧ contains ("."%char :: ct) line = true.
Proof.
  intros Hp Hf. unfold UncheckedCall.call_patterns in Hp.
  assert (ct ∈ [txt "call"; txt "delegatecall"; txt "send"]
          ∧ bnd_free p = true
          ∧ ∀ w, lang p w → contains ("."%char :: ct) w = true) as (Hct & Hb & Hl).
  { repeat match goal with
           | H : _ ∈ _ :: _ |- _ => apply elem_of_cons in H as [H|H]
           | H : _ ∈ [] |- _ => by apply elem_of_nil in H
           end; simplify_eq; (split; [repeat constructor|]); (split; [done|]);
      intros w Hw.
    - apply (contains_app_l (txt ".call") (txt "{")).
      revert Hw. apply (lang_Seq_contains (txt ".call{") [] [_; _; _; _; _]).
    - revert Hw. apply (lang_Seq_contains (txt ".call") [] [_; _; _]).
    - revert Hw. apply (lang_Seq_contains (txt ".delegatecall") [] [_; _; _]).
    - revert Hw. apply (lang_Seq_contains (txt ".send") [] [_; _; _]). }
  split; [done|].
  apply found_spec in Hf as (pre & w & post & -> & L); [|done].
  apply contains_inside. auto.
Qed.

(** The unchecked-call detector reports each line at most once, in source
    order, and only lines of the source. *)
Lemma unchecked_call_order (code language : str) :
  let fs := UncheckedCall.detect code language in
  StronglySorted lt (line_numbers fs)
  ∧ length (line_numbers fs) = length fs
  ∧ Forall (λ n, 1 ≤ n ≤ length (split_lines code))%nat (line_numbers fs).
Proof.
  unfold UncheckedCall.detect. destruct (negb (is_solidity language)).
  - simpl. repeat split; constructor.
  - apply (enumerate_scan_bounds
             (λ j l, UncheckedCall.scan_line code (split_lines code) j l)).
    + intros j l f. unfold UncheckedCall.scan_line.
      destruct (UncheckedCall.is_comment l); [by intros ?%elem_of_nil|].
      apply UncheckedCallFacts.call_scan_patterns_line.
    + intros j l. unfold UncheckedCall.scan_line.
      destruct (UncheckedCall.is_comment l); [simpl; lia|]. apply call_scan_single.
Qed.

(** X6: the two line-by-line detectors, for tx.origin and for unchecked calls,
    report each line at most once, in source order, and only lines of the
    source. *)
Theorem line_detectors_report_order (code language : str) :
  reported_in_order code (TxOrigin.detect code language)
  ∧ reported_in_order code (UncheckedCall.detect code language).
Proof.
  split; [apply tx_origin_order|apply unchecked_call_order].
Qed.

(** X8: every finding of the unchecked-call detector is on a line that is not
    a comment line, holds the text of the call kind its title names, and
    whose result the detector found unchecked. *)
Theorem unchecked_call_report_sound (code language : str) (f : Finding) :
  f ∈ UncheckedCall.detect code language →
  ∃ i line call_type,
    split_lines code !! i = Some line
    ∧ line_number f = Some (i + 1)%nat
    ∧ UncheckedCall.is_comment line = false
    ∧ UncheckedCall.is_checked (split_lines code) i line = false
    ∧ call_type ∈ [txt "call"; txt "delegatecall"; txt "send"]
    ∧ contains ("."%char :: call_type) line = true
    ∧ title f = txt "Unchecked " ++ Text.title call_type ++ txt " Return Value".
Proof.
  unfold UncheckedCall.detect. destruct (negb (is_solidity language));
    [by intros ?%elem_of_nil|].
  intros Hf.
  apply (scan_elem (λ j l, UncheckedCall.scan_line code (split_lines code) j l)) in Hf
    as (i & line & Hi & Hf).
  unfold UncheckedCall.scan_line in Hf.
  destruct (UncheckedCall.is_comment line) eqn:Ec; [by apply elem_of_nil in Hf|].
  apply call_scan_reported in Hf as [Hchecked (p & ct & Hp & Hfound & ->)].
  destruct (call_pattern_text p ct line Hp Hfound) as [Hct Htext].
  exists i, line, ct. done.
Qed.

Lemma unchecked_call_report_sound_witness :
  let code := txt "target.send(1);" in
  let f := UncheckedCall.report code (split_lines code) 0 (txt "send") in
  ∃ i line call_type,
    split_lines code !! i = Some line
    ∧ line_number f = Some (i + 1)%nat
    ∧ UncheckedCall.is_comment line = false
    ∧ UncheckedCall.is_checked (split_lines code) i line = false
    ∧ call_type ∈ [txt "call"; txt "delegatecall"; txt "send"]
    ∧ contains ("."%char :: call_type) line = true
    ∧ title f = txt "Unchecked " ++ Text.title call_type ++ txt " Return Value".
Proof.
  intros code f. apply (unchecked_call_report_sound code solidity f).
  vm_compute. left.
Defined.

Lemma has_external_call_marker (line : str) :
  Reentrancy.has_external_call line = true ↔
  ∃ marker, marker ∈ call_markers ∧ contains marker line = true.
Proof.
  assert (Hlit : ∀ marker, found (Lit marker) line = true ↔ contains marker line = true).
  { intros marker. rewrite found_spec by (rewrite <- (bnd_free_Lit marker); done).
    rewrite contains_spec. split.
    - intros (pre & w & post & -> & ->%lang_Lit). eauto.
    - intros (pre & post & ->). exists pre, marker, post. by rewrite lang_Lit. }
  unfold Reentrancy.has_external_call, Reentrancy.external_call_patterns, call_markers.
  cbn [existsb]. rewrite !orb_true_iff, !Hlit. split.
  - intros [H|[H|[H|[H|[H|H]]]]]; [| | | | |done]; eexists; (split; [|exact H]);
      repeat constructor.
  - intros (marker & Hm & Hc).
    repeat match goal with
           | H : _ ∈ _ :: _ |- _ => apply elem_of_cons in H as [->|H]
           | H : _ ∈ [] |- _ => by apply elem_of_nil in H
           end; tauto.
Qed.

Lemma state_change_after_sound (window : list str) :
  ∀ j n,
    Reentrancy.state_change_after window j = Some n →
    ∃ idx l,
      window !! idx = Some l ∧ n = (j + idx + 1)%nat
      ∧ found Reentrancy.state_change_pattern l = true
      ∧ ∀ idx' l', (idx' ≤ idx)%nat → window !! idx' = Some l' →
                   Reentrancy.is_boundary l' = false.
Proof.
  induction window as [|w window IH]; intros j n H; simpl in H; [done|].
  destruct (Reentrancy.is_boundary w) eqn:Eb; [done|].
  destruct (found Reentrancy.state_change_pattern w) eqn:Ef.
  - simplify_eq. exists 0%nat, w. split; [done|]. split; [lia|]. split; [done|].
    intros idx' l' Hle Hl'. assert (idx' = 0%nat) as -> by lia.
    simpl in Hl'. by simplify_eq.
  - apply IH in H as (idx & l & Hl & -> & Hf & Hb).
    exists (S idx), l. split; [done|]. split; [lia|]. split; [done|].
    intros [|idx'] l' Hle Hl'; simpl in Hl'; [by simplify_eq|].
    apply (Hb idx'); [lia|done].
Qed.

(** The look-ahead finds a state change exactly on a line at most ten
    lines below the call with no boundary line from the line after the
    call down to it. *)
Lemma look_ahead_sound (lines : list str) (i n : nat) :
  Reentrancy.look_ahead lines i = Some n →
  ∃ k write_line,
    (1 ≤ k ≤ 10)%nat ∧ n = (i + k + 1)%nat
    ∧ lines !! (i + k)%nat = Some write_line
    ∧ found Reentrancy.state_change_pattern write_line = true
    ∧ ∀ j l, (i < j ≤ i + k)%nat → lines !! j = Some l →
             Reentrancy.is_boundary l = false.
Proof.
  unfold Reentrancy.look_ahead, UncheckedCall.lines_in_range. intros H.
  apply state_change_after_sound in H as (idx & l & Hl & -> & Hf & Hb).
  apply lookup_take_Some in Hl as [Hl Hlt]. rewrite lookup_drop in Hl.
  exists (S idx), l. split; [lia|]. split; [lia|].
  replace (i + S idx)%nat with (i + 1 + idx)%nat by lia. split; [done|].
  split; [done|]. intros j l' Hj Hl'.
  apply (Hb (j - (i + 1))%nat); [lia|].
  apply lookup_take_Some. split; [|lia].
  rewrite lookup_drop. by replace (i + 1 + (j - (i + 1)))%nat with j by lia.
Qed.

Lemma payable_needs_text code mt :
  mt ∈ finditer Reentrancy.payable_pattern code →
  contains (txt "payable") code = true ∧ (m_start mt ≤ length code)%nat.
Proof.
  intros H. split; [|by eapply finditer_start_le].
  apply finditer_sound in H as (pre & w & post & -> & L & _).
  apply contains_inside. revert L.
  apply (lang_Seq_contains (txt "payable") [_; _; _; _; _; _; _; _] []).
Qed.

Lemma line_at_bounds (code : str) (pos : nat) :
  (1 ≤ count_nl (take pos code) + 1 ≤ length (split_lines code))%nat.
Proof. rewrite length_split_lines. pose proof (count_nl_take pos code). lia. Qed.

(** What a finding of the reentrancy detector is: a critical one for a
    call line with a state change below it, or a high one for a payable
    function. *)
Lemma reentrancy_finding_cases (code language : str) (f : Finding) :
  f ∈ Reentrancy.detect code language →
  rule_id f = txt "SEN-001"
  ∧ ((severity f = txt "critical"
      ∧ ∃ i line marker k write_line,
          split_lines code !! i = Some line
          ∧ line_number f = Some (i + 1)%nat
          ∧ marker ∈ call_markers ∧ contains marker line = true
          ∧ (1 ≤ k ≤ 10)%nat
          ∧ split_lines code !! (i + k)%nat = Some write_line
          ∧ found Reentrancy.state_change_pattern write_line = true
          ∧ ∀ j l, (i < j ≤ i + k)%nat → split_lines code !! j = Some l →
                   Reentrancy.is_boundary l = false)
     ∨ (severity f = txt "high"
        ∧ contains (txt "payable") code = true
        ∧ ∃ n, line_number f = Some n ∧ (1 ≤ n ≤ length (split_lines code))%nat)).
Proof.
  unfold Reentrancy.detect. destruct (negb (is_solidity language));
    [by intros ?%elem_of_nil|].
  intros [Hf|Hf]%elem_of_app.
  - apply (scan_elem (λ j l, Reentrancy.scan_line code (split_lines code) j l)) in Hf
      as (i & line & Hi & Hf).
    unfold Reentrancy.scan_line in Hf. simpl in Hf.
    destruct (Reentrancy.has_external_call line) eqn:Ec; [|by apply elem_of_nil in Hf].
    destruct (Reentrancy.look_ahead (split_lines code) i) as [n|] eqn:El;
      [|by apply elem_of_nil in Hf].
    apply list_elem_of_singleton in Hf as ->. split; [done|]. left. split; [done|].
    apply has_external_call_marker in Ec as (marker & Hm & Hc).
    apply look_ahead_sound in El as (k & wl & Hk & _ & Hw & Hfound & Hb).
    exists i, line, marker, k, wl. done.
  - apply list_elem_of_In, in_flat_map in Hf as (mt & Hmt & Hf).
    apply list_elem_of_In in Hmt, Hf.
    apply payable_needs_text in Hmt as [Hp Hs].
    unfold Reentrancy.payable_report in Hf.
    destruct (negb _); [|by apply elem_of_nil in Hf].
    apply list_elem_of_singleton in Hf as ->. split; [done|]. right.
    split; [done|]. split; [done|]. eexists. split; [done|]. apply line_at_bounds.
Qed.

(** X9: every finding of the reentrancy detector is either critical, on a line
    with an external-call text that has a state change at most ten lines
    below it and no boundary line down to that change, or high, for a
    payable function, and then the source contains the text [payable]. *)
Theorem reentrancy_report_sound (code language : str) (f : Finding) :
  f ∈ Reentrancy.detect code language →
  rule_id f = txt "SEN-001"
  ∧ ((severity f = txt "critical"
      ∧ ∃ i line marker k write_line,
          split_lines code !! i = Some line
          ∧ line_number f = Some (i + 1)%nat
          ∧ marker ∈ call_markers ∧ contains marker line = true
          ∧ (1 ≤ k ≤ 10)%nat
          ∧ split_lines code !! (i + k)%nat = Some write_line
          ∧ found Reentrancy.state_change_pattern write_line = true
          ∧ ∀ j l, (i < j ≤ i + k)%nat → split_lines code !! j = Some l →
                   Reentrancy.is_boundary l = false)
     ∨ (severity f = txt "high"
        ∧ contains (txt "payable") code = true
        ∧ ∃ n, line_number f = Some n ∧ (1 ≤ n ≤ length (split_lines code))%nat)).
Proof. apply reentrancy_finding_cases. Qed.

Lemma reentrancy_report_sound_witness :
  let code := txt "function pay() external payable {}" in
  ∃ f, f ∈ Reentrancy.detect code solidity ∧ rule_id f = txt "SEN-001".
Proof.
  intros code.
  assert (∃ f, f ∈ Reentrancy.detect code solidity) as [f Hf].
  { eexists. vm_compute. left. }
  exists f. split; [done|].
  exact (proj1 (reentrancy_report_sound code solidity f Hf)).
Defined.

(** X10: a source with none of the external-call texts on any line and without
    the text [payable] gets no reentrancy finding. *)
Theorem reentrancy_silent (code language : str) :
  (∀ line marker, line ∈ split_lines code → marker ∈ call_markers →
                  contains marker line = false) →
  contains (txt "payable") code = false →
  Reentrancy.detect code language = [].
Proof.
  intros Hcalls Hpay.
  destruct (Reentrancy.detect code language) as [|f fs] eqn:E; [done|].
  assert (f ∈ Reentrancy.detect code language) as Hf by (rewrite E; left).
  apply reentrancy_finding_cases in Hf
    as [_ [(_ & i & line & marker & _ & _ & Hi & _ & Hm & Hc & _)|(_ & Hp & _)]].
  - rewrite (Hcalls line marker) in Hc; [done| |done].
    by eapply list_elem_of_lookup_2.
  - congruence.
Qed.

Lemma reentrancy_silent_witness :
  Reentrancy.detect (txt "contract Empty {
  uint total;
}") solidity = [].
Proof.
  apply reentrancy_silent; [|reflexivity].
  intros line marker Hl Hm. unfold call_markers in Hm.
  change (line ∈ [txt "contract Empty {"; txt "  uint total;"; txt "}"]) in Hl.
  repeat match goal with
         | H : _ ∈ _ :: _ |- _ => apply elem_of_cons in H as [->|H]
         | H : _ ∈ [] |- _ => by apply elem_of_nil in H
         end; reflexivity.
Defined.

(** X11: line [i + 1] gets a critical finding exactly when line [i] holds an
    external-call text and a line at most ten lines below matches the
    state-change pattern with no boundary line from line [i + 1] down to
    it. *)
Theorem reentrancy_critical_iff (code : str) (i : nat) (line : str) :
  split_lines code !! i = Some line →
  (∃ f, f ∈ Reentrancy.detect code solidity
        ∧ severity f = txt "critical" ∧ line_number f = Some (i + 1)%nat)
  ↔ ((∃ marker, marker ∈ call_markers ∧ contains marker line = true)
     ∧ ∃ k write_line,
         (1 ≤ k ≤ 10)%nat
         ∧ split_lines code !! (i + k)%nat = Some write_line
         ∧ found Reentrancy.state_change_pattern write_line = true
         ∧ ∀ j l, (i < j ≤ i + k)%nat → split_lines code !! j = Some l →
                  Reentrancy.is_boundary l = false).
Proof.
  intros Hi.
  assert (Hscan : ∀ f, (f ∈ Reentrancy.detect code solidity
                        ∧ severity f = txt "critical"
                        ∧ line_number f = Some (i + 1)%nat)
                       ↔ f ∈ Reentrancy.scan_line code (split_lines code) i line).
  { intros f. rewrite <- (ReentrancyFacts.critical_at_line code i line Hi).
    rewrite list_elem_of_filter. tauto. }
  rewrite <- has_external_call_marker. split.
  - intros (f & Hf). apply Hscan in Hf. unfold Reentrancy.scan_line in Hf.
    destruct (Reentrancy.has_external_call line); [|by apply elem_of_nil in Hf].
    destruct (Reentrancy.look_ahead (split_lines code) i) as [n|] eqn:El;
      [|by apply elem_of_nil in Hf].
    split; [done|].
    apply look_ahead_sound in El as (k & wl & Hk & _ & Hw & Hfound & Hb). eauto 10.
  - intros (Hc & k & wl & Hk & Hw & Hfound & Hb).
    destruct (ReentrancyFacts.look_ahead_some (split_lines code) i k wl Hk Hw Hfound Hb)
      as [n Hn].
    eexists. apply Hscan. unfold Reentrancy.scan_line. rewrite Hc, Hn. left.
Qed.

Lemma reentrancy_critical_iff_witness :
  let code := txt "x.send(1);
total = 0;" in
  (∃ f, f ∈ Reentrancy.detect code solidity
        ∧ severity f = txt "critical" ∧ line_number f = Some 1%nat)
  ↔ ((∃ marker, marker ∈ call_markers ∧ contains marker (txt "x.send(1);") = true)
     ∧ ∃ k write_line,
         (1 ≤ k ≤ 10)%nat
         ∧ split_lines code !! (0 + k)%nat = Some write_line
         ∧ found Reentrancy.state_change_pattern write_line = true
         ∧ ∀ j l, (0 < j ≤ 0 + k)%nat → split_lines code !! j = Some l →
                  Reentrancy.is_boundary l = false).
Proof.
  intros code. apply (reentrancy_critical_iff code 0 (txt "x.send(1);")). reflexivity.
Defined.

End DetectorsMore.

(** ** The integer-overflow detector: totality and size of the result *)

Module IntegerOverflowTotal.
Import Text Regex Base IntegerOverflow RegexFacts RegexMore BaseFacts Samples TextMore.
Import IntegerOverflowFacts IntegerOverflowMore DetectorsMore.

Lemma scan_matches_single code operation ms :
  (length (scan_matches code operation ms) ≤ 1)%nat.
Proof.
  induction ms as [|mt ms IH]; simpl; [lia|]. destruct (in_comment code mt); simpl; lia.
Qed.

Lemma flat_map_length_le {A B} (f : A → list B) (l : list A) (n : nat) :
  (∀ x, length (f x) ≤ n)%nat → (length (flat_map f l) ≤ n * length l)%nat.
Proof.
  intros H. induction l as [|x l IH]; simpl; [lia|].
  rewrite length_app. specialize (H x). lia.
Qed.

(** X12: however long the source and however many arithmetic statements it
    has, the scan for Solidity below 0.8.0 reports at most six findings:
    at most one for each of its six patterns. *)
Theorem overflow_at_most_six (code : str) :
  (length (detect_arithmetic code) ≤ 6)%nat
  ∧ ∀ pattern operation,
      (length (scan_matches code operation (finditer pattern code)) ≤ 1)%nat.
Proof.
  split; [|intros; apply scan_matches_single].
  unfold detect_arithmetic. destruct (negb (uses_safemath code)); [|simpl; lia].
  change 6%nat with (1 * length arithmetic_patterns)%nat.
  apply flat_map_length_le. intros [p op]. apply scan_matches_single.
Qed.

Lemma arith_report_fields code operation mt :
  let f := arith_report code operation mt in
  rule_id f = txt "SEN-003" ∧ severity f = txt "high"
  ∧ ∃ n, line_number f = Some n ∧ (1 ≤ n ≤ length (split_lines code))%nat.
Proof.
  simpl. split; [done|]. split; [done|]. eexists. split; [done|]. apply line_at_bounds.
Qed.

Lemma unchecked_report_fields code mt :
  let f := unchecked_report code mt in
  rule_id f = txt "SEN-003" ∧ severity f = txt "medium"
  ∧ ∃ n, line_number f = Some n ∧ (1 ≤ n ≤ length (split_lines code))%nat.
Proof.
  simpl. split; [done|]. split; [done|]. eexists. split; [done|]. apply line_at_bounds.
Qed.

Lemma overflow_detect_cases (code language : str) :
  ∃ findings,
    detect code language = Return findings
    ∧ (findings = []
       ∨ findings = detect_arithmetic code
       ∨ findings = map (unchecked_report code) (finditer unchecked_pattern code)).
Proof.
  unfold detect. destruct (negb (is_solidity language)); [eauto|].
  destruct (search version_pattern code) as [vm|] eqn:E; [|eauto].
  destruct (version_group code vm E) as (a & b & c & Ha & Hb & Hc & ->).
  destruct (parse_version_digits a b c Ha Hb Hc) as (major & minor & Hp).
  cbn [default]. unfold id. rewrite Hp.
  destruct (has_builtin_checks major minor); eauto.
Qed.

Lemma overflow_findings_fields (code language : str) :
  ∃ findings,
    IntegerOverflow.detect code language = Return findings
    ∧ ∀ f, f ∈ findings →
           rule_id f = txt "SEN-003"
           ∧ (severity f = txt "high" ∨ severity f = txt "medium")
           ∧ category f = txt "security" ∧ detected_by f = txt "static"
           ∧ confidence f = 90
           ∧ ∃ n, line_number f = Some n
                  ∧ (1 ≤ n ≤ length (split_lines code))%nat.
Proof.
  destruct (overflow_detect_cases code language) as (fs & Hd & Hcases).
  exists fs. split; [done|]. intros f Hf.
  destruct Hcases as [->|[->| ->]].
  - by apply elem_of_nil in Hf.
  - apply detect_arithmetic_finding in Hf as (op & mt & ->).
    destruct (arith_report_fields code op mt) as (? & ? & ?). eauto 10.
  - apply list_elem_of_fmap in Hf as (mt & -> & _).
    destruct (unchecked_report_fields code mt) as (? & ? & ?). eauto 10.
Qed.

(** The detector never raises: the version the pragma pattern captures
    always parses.  Every finding carries rule SEN-003, severity [high]
    (arithmetic) or [medium] (unchecked block), and the number of a line
    of the source. *)
Theorem overflow_detect_returns (code language : str) :
  ∃ findings,
    detect code language = Return findings
    ∧ ∀ f, f ∈ findings →
           rule_id f = txt "SEN-003"
           ∧ (severity f = txt "high" ∨ severity f = txt "medium")
           ∧ ∃ n, line_number f = Some n
                  ∧ (1 ≤ n ≤ length (split_lines code))%nat.
Proof.
  destruct (overflow_detect_cases code language) as (fs & Hd & Hcases).
  exists fs. split; [done|]. intros f Hf.
  destruct Hcases as [->|[->| ->]].
  - by apply elem_of_nil in Hf.
  - apply detect_arithmetic_finding in Hf as (op & mt & ->).
    destruct (arith_report_fields code op mt) as (? & ? & ?). eauto.
  - apply list_elem_of_fmap in Hf as (mt & -> & _).
    destruct (unchecked_report_fields code mt) as (? & ? & ?). eauto.
Qed.

End IntegerOverflowTotal.

(** ** The access-control detector: where a function ends *)

Module AccessControlMore.
Import Text Regex Base AccessControl RegexFacts RegexMore BaseFacts Samples TextMore.
Import DetectorsMore.

Lemma find_function_end_bounds (s : str) :
  ∀ i brace_count,
    (i ≤ _find_function_end s i brace_count ≤ i + length s)%nat.
Proof.
  induction s as [|c s IH]; intros i [|b]; simpl; try lia.
  destruct (Ascii.eqb c "{"); [specialize (IH (S i) (S (S b))); lia|].
  destruct (Ascii.eqb c "}"); [specialize (IH (S i) b); lia|].
  specialize (IH (S i) (S b)). lia.
Qed.

Lemma find_function_end_balanced (body : str) :
  balanced body →
  ∀ rest i b,
    _find_function_end (body ++ rest) i (S b)
    = _find_function_end rest (i + length body) (S b).
Proof.
  induction 1 as [|c t Ho Hc _ IH|inner t _ IHi _ IHt]; intros rest i b.
  - simpl. by rewrite Nat.add_0_r.
  - cbn [app _find_function_end length].
    apply Ascii.eqb_neq in Ho, Hc. rewrite Ho, Hc, IH. f_equal. lia.
  - cbn [app _find_function_end length]. rewrite Ascii.eqb_refl.
    rewrite <- app_assoc. rewrite IHi.
    cbn [app _find_function_end]. rewrite Ascii.eqb_refl.
    assert (Ascii.eqb "}" "{" = false) as -> by done.
    rewrite IHt. f_equal. rewrite length_app. simpl. lia.
Qed.

(** X13: [_find_function_end] stays within the source; on a body with matched
    braces it stops right after the brace that closes the function, and
    when that brace is missing it runs to the end of the source. *)
Theorem find_function_end_matching (body rest : str) (start : nat) :
  balanced body →
  _find_function_end (body ++ "}"%char :: rest) start 1
  = (start + length body + 1)%nat
  ∧ _find_function_end body start 1 = (start + length body)%nat
  ∧ ∀ s i brace_count,
      (i ≤ _find_function_end s i brace_count ≤ i + length s)%nat.
Proof.
  intros Hb. split; [|split].
  - rewrite (find_function_end_balanced body Hb).
    cbn [_find_function_end]. rewrite Ascii.eqb_refl.
    assert (Ascii.eqb "}" "{" = false) as -> by done.
    destruct rest; simpl; lia.
  - rewrite <- (app_nil_r body) at 1.
    by rewrite (find_function_end_balanced body Hb).
  - apply find_function_end_bounds.
Qed.

Lemma find_function_end_matching_witness :
  _find_function_end (txt "if (a) { b; } c;" ++ "}"%char :: txt " uint x;") 5 1
  = (5 + length (txt "if (a) { b; } c;") + 1)%nat.
Proof.
  apply (find_function_end_matching (txt "if (a) { b; } c;") (txt " uint x;") 5).
  do 7 (apply balanced_char; [done|done|]).
  apply (balanced_block (txt " b; ") (txt " c;"));
    repeat (apply balanced_char; [done|done|]); constructor.
Defined.

Lemma scan_function_fields code mt f :
  (m_start mt ≤ length code)%nat →
  f ∈ scan_function code mt →
  rule_id f = txt "SEN-002"
  ∧ (severity f = txt "critical" ∨ severity f = txt "high")
  ∧ category f = txt "security" ∧ detected_by f = txt "static" ∧ confidence f = 90
  ∧ ∃ n, line_number f = Some n ∧ (1 ≤ n ≤ length (split_lines code))%nat.
Proof.
  intros Hs. unfold scan_function.
  destruct (_ || _); [by intros ?%elem_of_nil|].
  intros [Hf|Hf]%elem_of_app.
  - destruct (_ && _); [|by apply elem_of_nil in Hf].
    apply list_elem_of_singleton in Hf as ->.
    repeat split; eauto. eexists. split; [done|]. apply line_at_bounds.
  - destruct (_ && _); [|by apply elem_of_nil in Hf].
    apply list_elem_of_singleton in Hf as ->.
    repeat split; eauto. eexists. split; [done|]. apply line_at_bounds.
Qed.

Lemma access_control_fields code language f :
  f ∈ AccessControl.detect code language →
  rule_id f = txt "SEN-002"
  ∧ (severity f = txt "critical" ∨ severity f = txt "high")
  ∧ category f = txt "security" ∧ detected_by f = txt "static" ∧ confidence f = 90
  ∧ ∃ n, line_number f = Some n ∧ (1 ≤ n ≤ length (split_lines code))%nat.
Proof.
  unfold AccessControl.detect. destruct (negb (is_solidity language));
    [by intros ?%elem_of_nil|].
  intros Hf. apply list_elem_of_In, in_flat_map in Hf as (mt & Hmt & Hf).
  apply list_elem_of_In in Hmt, Hf.
  eapply scan_function_fields; [|exact Hf]. by eapply finditer_start_le.
Qed.

End AccessControlMore.

(** ** The orchestrator on the built-in registry *)

Module OrchestratorMore.
Import Text Regex Base AstUtils StaticAnalyzer Samples TextMore DetectorsMore.
Import StaticAnalyzerFacts IntegerOverflowTotal AccessControlMore.

Lemma line_scan_in_range (g : nat → str → list Finding) (code : str) (f : Finding) :
  (∀ j l f, f ∈ g j l → line_number f = Some (j + 1)%nat) →
  f ∈ flat_map (λ '(j, l), g j l) (enumerate (split_lines code)) →
  ∃ n, line_number f = Some n ∧ (1 ≤ n ≤ length (split_lines code))%nat.
Proof.
  intros Hline Hf. apply (scan_elem g) in Hf as (i & line & Hi & Hf).
  apply Hline in Hf. apply lookup_lt_Some in Hi. eexists. split; [done|]. lia.
Qed.

Lemma tx_origin_static code language f :
  f ∈ TxOrigin.detect code language → static_finding code f.
Proof.
  intros Hf. pose proof (TxOriginFacts.detect_rule_id _ _ _ Hf) as Hr.
  revert Hf. unfold TxOrigin.detect. destruct (negb (is_solidity language));
    [by intros ?%elem_of_nil|].
  intros Hf.
  assert (Hn : ∃ n, line_number f = Some n
                    ∧ (1 ≤ n ≤ length (split_lines code))%nat).
  { eapply (line_scan_in_range
              (λ j l, TxOrigin.scan_patterns TxOrigin.tx_origin_patterns code
                        (split_lines code) j l)); [|exact Hf].
    intros j l f' Hf'. by apply TxOriginFacts.tx_scan_patterns_line in Hf' as [? _]. }
  apply (scan_elem (λ j l, TxOrigin.scan_patterns TxOrigin.tx_origin_patterns code
                             (split_lines code) j l)) in Hf as (i & line & _ & Hf).
  apply tx_scan_reported in Hf as [-> _].
  unfold static_finding. repeat split; try done; repeat constructor.
Qed.

Lemma unchecked_call_static code language f :
  f ∈ UncheckedCall.detect code language → static_finding code f.
Proof.
  unfold UncheckedCall.detect. destruct (negb (is_solidity language));
    [by intros ?%elem_of_nil|].
  intros Hf.
  assert (Hn : ∃ n, line_number f = Some n
                    ∧ (1 ≤ n ≤ length (split_lines code))%nat).
  { eapply (line_scan_in_range
              (λ j l, UncheckedCall.scan_line code (split_lines code) j l));
      [|exact Hf].
    intros j l f'. unfold UncheckedCall.scan_line.
    destruct (UncheckedCall.is_comment l); [by intros ?%elem_of_nil|].
    apply UncheckedCallFacts.call_scan_patterns_line. }
  apply (scan_elem (λ j l, UncheckedCall.scan_line code (split_lines code) j l)) in Hf
    as (i & line & _ & Hf).
  unfold UncheckedCall.scan_line in Hf.
  destruct (UncheckedCall.is_comment line); [by apply elem_of_nil in Hf|].
  apply call_scan_reported in Hf as [_ (p & ct & _ & _ & ->)].
  unfold static_finding. repeat split; try done; repeat constructor.
Qed.

Lemma reentrancy_static code language f :
  f ∈ Reentrancy.detect code language → static_finding code f.
Proof.
  intros Hf. pose proof (reentrancy_finding_cases code language f Hf) as [Hr Hcases].
  assert (category f = txt "security" ∧ detected_by f = txt "static"
          ∧ confidence f = 90) as (Hc & Hd & Hconf).
  { revert Hf. unfold Reentrancy.detect. destruct (negb (is_solidity language));
      [by intros ?%elem_of_nil|].
    intros [Hf|Hf]%elem_of_app.
    - apply (scan_elem (λ j l, Reentrancy.scan_line code (split_lines code) j l)) in Hf
        as (i & line & _ & Hf).
      unfold Reentrancy.scan_line in Hf.
      destruct (Reentrancy.has_external_call line); [|by apply elem_of_nil in Hf].
      destruct (Reentrancy.look_ahead _ _); [|by apply elem_of_nil in Hf].
      by apply list_elem_of_singleton in Hf as ->.
    - apply list_elem_of_In, in_flat_map in Hf as (mt & _ & Hf).
      apply list_elem_of_In in Hf. unfold Reentrancy.payable_report in Hf.
      destruct (negb _); [|by apply elem_of_nil in Hf].
      by apply list_elem_of_singleton in Hf as ->. }
  unfold static_finding. rewrite Hr.
  split; [done|]. split; [done|]. split; [done|]. split; [repeat constructor|].
  destruct Hcases as [(Hs & i & line & _ & _ & _ & Hi & Hn & _)|(Hs & _ & Hn)];
    rewrite Hs; (split; [repeat constructor|]); [|done].
  apply lookup_lt_Some in Hi. eexists. split; [done|]. lia.
Qed.

Lemma access_control_static code language f :
  f ∈ AccessControl.detect code language → static_finding code f.
Proof.
  intros (Hr & Hs & ? & ? & ? & ?)%access_control_fields.
  unfold static_finding. rewrite Hr.
  repeat split; try done; [repeat constructor|].
  destruct Hs as [-> | ->]; repeat constructor.
Qed.

Lemma overflow_static code language :
  ∃ findings,
    IntegerOverflow.detect code language = Return findings
    ∧ ∀ f, f ∈ findings → static_finding code f.
Proof.
  destruct (overflow_findings_fields code language) as (fs & Hd & Hall).
  exists fs. split; [done|]. intros f (Hr & Hs & ? & ? & ? & ?)%Hall.
  unfold static_finding. rewrite Hr.
  repeat split; try done; [repeat constructor|].
  destruct Hs as [-> | ->]; repeat constructor.
Qed.

Lemma analyze_builtin_parts (code language : str) (compiler_version : option str) :
  ∃ overflow,
    IntegerOverflow.detect code language = Return overflow
    ∧ (∀ f, f ∈ overflow → static_finding code f)
    ∧ analyze init code language compiler_version
      = Return (if supported language
                then Reentrancy.detect code language
                     ++ AccessControl.detect code language
                     ++ overflow
                     ++ UncheckedCall.detect code language
                     ++ TxOrigin.detect code language
                else []).
Proof.
  destruct (overflow_static code language) as (overflow & Hd & Hall).
  exists overflow. split; [done|]. split; [done|].
  rewrite analyze_result. unfold init, contribution. cbn [detectors flat_map detect
    ReentrancyDetector AccessControlDetector IntegerOverflowDetector
    UncheckedCallDetector TxOriginDetector].
  rewrite Hd. by rewrite app_nil_r.
Qed.


Lemma analyze_builtin_static (code language : str) (compiler_version : option str) :
  ∃ findings,
    analyze init code language compiler_version = Return findings
    ∧ ∀ f, f ∈ findings → static_finding code f.
Proof.
  destruct (analyze_builtin_parts code language compiler_version)
    as (overflow & Hd & Hall & Ha).
  eexists. split; [exact Ha|]. destruct (supported language);
    [|by intros f ?%elem_of_nil].
  intros f Hf. rewrite !elem_of_app in Hf.
  destruct Hf as [Hf|[Hf|[Hf|[Hf|Hf]]]];
    eauto using reentrancy_static, access_control_static, unchecked_call_static,
      tx_origin_static.
Qed.

(** X15: every finding [analyze] returns with the built-in registry has
    category [security], [detected_by = static], confidence 90, a rule id
    from SEN-001 to SEN-005, severity critical, high or medium, and the
    number of a line of the source. *)
Theorem analyze_builtin_schema (code language : str) (compiler_version : option str) :
  ∃ findings,
    analyze init code language compiler_version = Return findings
    ∧ ∀ f, f ∈ findings → static_finding code f.
Proof. apply analyze_builtin_static. Qed.

(** X16: on any language but Solidity, Vyper included, the built-in registry
    finds nothing. *)
Theorem analyze_other_language (code language : str) (compiler_version : option str) :
  is_solidity language = false →
  analyze init code language compiler_version = Return [].
Proof.
  intros H. rewrite analyze_result. destruct (supported language); [|done].
  by rewrite registry_other_language.
Qed.

Lemma analyze_other_language_witness :
  analyze init (txt "owner: address") (txt "vyper") None = Return [].
Proof. apply analyze_other_language. reflexivity. Defined.

End OrchestratorMore.

(** ** What the gas report adds up *)

Module GasAnalyzerMore.
Import Text Regex Base GasAnalyzer RegexFacts BaseFacts Samples GasAnalyzerFacts.

Lemma total_savings_app (os1 os2 : list GasOptimization) :
  total_savings (os1 ++ os2) = total_savings os1 + total_savings os2.
Proof.
  unfold total_savings. induction os1 as [|o os1 IH]; simpl; [done|].
  rewrite IH. lia.
Qed.

Lemma total_savings_const (v : Z) (os : list GasOptimization) :
  Forall (λ o, first_number (savings o) = v) os →
  total_savings os = v * Z.of_nat (length os).
Proof.
  unfold total_savings. induction 1 as [|o os Ho _ IH]; [simpl; lia|].
  cbn [foldr length]. rewrite Ho, IH. lia.
Qed.

Lemma Forall_flat_map_all {A B} (P : B → Prop) (f : A → list B) (l : list A) :
  (∀ x, Forall P (f x)) → Forall P (flat_map f l).
Proof.
  intros H. induction l as [|x l IH]; simpl; [done|].
  apply Forall_app. split; [apply H|exact IH].
Qed.

Lemma Forall_map_all {A B} (P : B → Prop) (f : A → B) (l : list A) :
  (∀ x, P (f x)) → Forall P (map f l).
Proof. intros H. induction l as [|x l IH]; simpl; constructor; auto. Qed.

Lemma storage_savings code :
  Forall (λ o, first_number (savings o) = 2100) (_detect_storage_in_loops code).
Proof.
  unfold _detect_storage_in_loops. apply Forall_flat_map_all. intros [i text].
  destruct (_ || _); [|done]. destruct (existsb _ _); [|done].
  constructor; [|done]. cbn [savings]. by vm_compute.
Qed.

Lemma packing_savings code :
  Forall (λ o, first_number (savings o) = 20) (_detect_poor_storage_packing code).
Proof.
  unfold _detect_poor_storage_packing. apply Forall_map_all. intros mt.
  cbn [savings]. by vm_compute.
Qed.

Lemma public_savings code :
  Forall (λ o, first_number (savings o) = 200) (_detect_public_functions code).
Proof.
  unfold _detect_public_functions. apply Forall_flat_map_all. intros mt.
  cbv zeta. destruct (_ <=? _)%nat; [|done].
  constructor; [|done]. cbn [savings]. by vm_compute.
Qed.

Lemma redundant_savings code :
  Forall (λ o, first_number (savings o) = 5) (_detect_redundant_initialization code).
Proof.
  unfold _detect_redundant_initialization. apply Forall_flat_map_all.
  intros [pattern var_type]. apply Forall_map_all. intros mt.
  cbn [savings]. by vm_compute.
Qed.

Lemma string_savings code :
  Forall (λ o, first_number (savings o) = 1000) (_detect_string_usage code).
Proof.
  unfold _detect_string_usage. apply Forall_map_all. intros mt.
  cbn [savings]. by vm_compute.
Qed.

Lemma length_savings code :
  Forall (λ o, first_number (savings o) = 100) (_detect_array_length_in_loops code).
Proof.
  unfold _detect_array_length_in_loops. apply Forall_map_all. intros mt.
  cbn [savings]. by vm_compute.
Qed.

Lemma analyze_solidity (code : str) :
  analyze code solidity
  = let os := _detect_storage_in_loops code
              ++ _detect_poor_storage_packing code
              ++ _detect_public_functions code
              ++ _detect_redundant_initialization code
              ++ _detect_string_usage code
              ++ _detect_array_length_in_loops code in
    mkReport None os
      (if 0 <? total_savings os
       then of_Z (total_savings os) ++ txt " gas per transaction"
       else not_applicable).
Proof.
  unfold analyze. change (negb (is_solidity solidity)) with false. cbv iota zeta.
  by rewrite sum_extracted.
Qed.

Lemma total_by_heuristic (code : str) :
  total_savings (optimizations (analyze code solidity))
  = 2100 * Z.of_nat (length (_detect_storage_in_loops code))
    + 20 * Z.of_nat (length (_detect_poor_storage_packing code))
    + 200 * Z.of_nat (length (_detect_public_functions code))
    + 5 * Z.of_nat (length (_detect_redundant_initialization code))
    + 1000 * Z.of_nat (length (_detect_string_usage code))
    + 100 * Z.of_nat (length (_detect_array_length_in_loops code)).
Proof.
  rewrite analyze_solidity. cbv zeta. cbn [optimizations].
  rewrite !total_savings_app.
  rewrite (total_savings_const _ _ (storage_savings code)),
    (total_savings_const _ _ (packing_savings code)),
    (total_savings_const _ _ (public_savings code)),
    (total_savings_const _ _ (redundant_savings code)),
    (total_savings_const _ _ (string_savings code)),
    (total_savings_const _ _ (length_savings code)). lia.
Qed.

(** X18: the potential savings of a report count the entries of each
    heuristic with a fixed number, the first one written in its savings
    text: 2100 for a storage read in a loop, 20 for storage packing, 200
    for a public function, 5 for a redundant initialisation, 1000 for a
    string field and 100 for an array length in a loop condition.  The
    report says [N/A] exactly when it has no entry. *)
Theorem gas_savings_by_heuristic (code : str) :
  let report := analyze code solidity in
  sum (map (λ opt, _extract_gas_value (savings opt)) (optimizations report))
  = 2100 * Z.of_nat (length (_detect_storage_in_loops code))
    + 20 * Z.of_nat (length (_detect_poor_storage_packing code))
    + 200 * Z.of_nat (length (_detect_public_functions code))
    + 5 * Z.of_nat (length (_detect_redundant_initialization code))
    + 1000 * Z.of_nat (length (_detect_string_usage code))
    + 100 * Z.of_nat (length (_detect_array_length_in_loops code))
  ∧ (potential_savings report = txt "N/A" ↔ optimizations report = []).
Proof.
  intros report. subst report. rewrite sum_extracted.
  pose proof (total_by_heuristic code) as Htotal.
  split; [exact Htotal|].
  rewrite analyze_solidity in *. cbv zeta in *. cbn [optimizations potential_savings] in *.
  set (os := _ ++ _) in *. split.
  - destruct (0 <? total_savings os) eqn:E.
    + intros H. apply (f_equal length) in H. rewrite length_app in H.
      simpl in H. lia.
    + intros _. apply Z.ltb_ge in E. rewrite Htotal in E.
      assert (length os = 0%nat) as Hlen; [|by destruct os].
      unfold os. rewrite !length_app. lia.
  - intros Hos. rewrite Hos. done.
Qed.

Lemma enumerate_flat_map_elem {B} (g : nat → str → list B) (lines : list str) :
  ∀ k x,
    x ∈ flat_map (λ '(j, l), g j l) (enumerate_from k lines)
    ↔ ∃ i text, lines !! i = Some text ∧ x ∈ g (k + i)%nat text.
Proof.
  induction lines as [|l lines IH]; intros k x; simpl.
  - split; [by intros ?%elem_of_nil|]. by intros (i & text & ? & _).
  - rewrite elem_of_app, IH. split.
    + intros [H|(i & text & Hi & H)].
      * exists 0%nat, l. by rewrite Nat.add_0_r.
      * exists (S i), text. split; [done|].
        by replace (k + S i)%nat with (S k + i)%nat by lia.
    + intros ([|i] & text & Hi & H); simpl in Hi.
      * simplify_eq. left. by rewrite Nat.add_0_r in H.
      * right. exists i, text. split; [done|].
        by replace (S k + i)%nat with (k + S i)%nat by lia.
Qed.

(** X19: line [i + 1] gets a storage-in-loop entry exactly when line [i] holds
    [for(] or [for (] and one of the fourteen lines below it has an indexed
    read or the word [storage]; it gets at most one. *)
Theorem storage_in_loops_iff (code : str) (i : nat) (text : str) :
  split_lines code !! i = Some text →
  ((∃ o, o ∈ _detect_storage_in_loops code ∧ line o = Some (i + 1)%nat)
   ↔ ((contains (txt "for(") text = true ∨ contains (txt "for (") text = true)
      ∧ ∃ j l, (i < j < i + 15)%nat ∧ split_lines code !! j = Some l
               ∧ reads_storage l = true))
  ∧ (length (filter (λ o, line o = Some (i + 1)%nat)
               (_detect_storage_in_loops code)) ≤ 1)%nat.
Proof.
  intros Hi. unfold _detect_storage_in_loops. cbv zeta.
  set (lines := split_lines code) in *.
  set (g := λ (i : nat) (text : str),
         if contains (txt "for(") text || contains (txt "for (") text then
           if existsb reads_storage
                (UncheckedCall.lines_in_range lines (i + 1)
                   (Nat.min (i + 15) (length lines)))
           then [mkOpt (txt "Storage read inside loop") (Some (i + 1)%nat)
                   (replicate 2100 "n"%char ++ txt " gas (SLOAD per iteration)")
                   (txt "2100 gas (single SLOAD)")
                   (txt "2100 * (n-1) gas")]
           else []
         else []).
  change (flat_map _ (enumerate lines))
    with (flat_map (λ '(j, l), g j l) (enumerate lines)).
  assert (Hg : ∀ j l o, o ∈ g j l → line o = Some (j + 1)%nat).
  { intros j l o. unfold g. repeat case_match; try by intros ?%elem_of_nil.
    by intros ->%list_elem_of_singleton. }
  assert (Hread : ∀ j, existsb reads_storage
                         (UncheckedCall.lines_in_range lines (j + 1)
                            (Nat.min (j + 15) (length lines))) = true
                       ↔ ∃ k l, (j < k < j + 15)%nat ∧ lines !! k = Some l
                                ∧ reads_storage l = true).
  { intros j. rewrite existsb_exists. split.
    - intros (l & Hl & Hr). apply list_elem_of_In in Hl.
      apply UncheckedCallFacts.lines_in_range_elem in Hl as (k & Hk & Hl).
      exists k, l. split; [lia|done].
    - intros (k & l & Hk & Hl & Hr). exists l. split; [|done].
      apply list_elem_of_In, UncheckedCallFacts.lines_in_range_elem.
      exists k. split; [|done]. apply lookup_lt_Some in Hl. lia. }
  split; [split|].
  - intros (o & Ho & Hline). unfold enumerate in Ho.
    apply enumerate_flat_map_elem in Ho as (i' & text' & Hi' & Ho).
    simpl in Ho. pose proof (Hg _ _ _ Ho) as Hline'.
    rewrite Hline in Hline'. assert (i' = i) as -> by (simplify_eq; lia).
    rewrite Hi in Hi'. simplify_eq. unfold g in Ho.
    destruct (_ || _) eqn:Hfor; [|by apply elem_of_nil in Ho].
    destruct (existsb _ _) eqn:Hex; [|by apply elem_of_nil in Ho].
    apply orb_true_iff in Hfor. split; [done|]. by apply Hread.
  - intros [Hfor Hbelow]. apply orb_true_iff in Hfor. apply Hread in Hbelow.
    eexists. split.
    + unfold enumerate. apply enumerate_flat_map_elem. exists i, text.
      split; [done|]. simpl. unfold g. rewrite Hfor, Hbelow. left.
    + done.
  - assert (Hat : ∀ (ls : list str) k,
               (length (filter (λ o, line o = Some (i + 1)%nat)
                          (flat_map (λ '(j, l), g j l) (enumerate_from k ls)))
                ≤ if decide (k ≤ i < k + length ls)%nat then 1 else 0)%nat).
    { induction ls as [|l ls IH]; intros k; simpl; [lia|].
      rewrite filter_app, length_app. specialize (IH (S k)).
      assert (length (filter (λ o, line o = Some (i + 1)%nat) (g k l))
              ≤ if decide (k = i) then 1 else 0)%nat.
      { destruct (decide (k = i)) as [->|Hne].
        - etrans; [apply length_filter|]. unfold g. repeat case_match; simpl; lia.
        - rewrite (filter_none _ (g k l)); [simpl; lia|].
          intros o Ho E. apply Hg in Ho. rewrite Ho in E. simplify_eq. lia. }
      repeat case_decide; lia. }
    specialize (Hat lines 0%nat). unfold enumerate. case_decide; lia.
Qed.

Lemma storage_in_loops_iff_witness :
  let code := txt "for (uint i = 0; i < n; i++) {
  total += balances[i];
}" in
  ∃ o, o ∈ _detect_storage_in_loops code ∧ line o = Some 1%nat.
Proof.
  intros code.
  apply (proj2 (proj1 (storage_in_loops_iff code 0
                         (txt "for (uint i = 0; i < n; i++) {") eq_refl))).
  split; [by right|]. exists 1%nat, (txt "  total += balances[i];").
  split; [lia|]. split; reflexivity.
Defined.

End GasAnalyzerMore.

(** ** Positions, fall-backs and malformed records in the normaliser *)

Module AIReasoningMore.
Import Text Base AIReasoning RegexFacts Samples AIReasoningFacts.

(** What one normalised record takes from a dict. *)
Lemma normalize_vuln_record (m : gmap str json) (done : nat) (nv : NormalizedVuln) :
  normalize_vuln (JObj m) done = Return nv →
  v_rule_id nv = default (JStr (txt "AI-" ++ of_nat (done + 1))) (m !! txt "rule_id")
  ∧ v_line_number nv
    = py_or (default JNull (m !! txt "line_number")) (default JNull (m !! txt "line"))
  ∧ v_function_name nv
    = py_or (default JNull (m !! txt "function_name"))
            (default JNull (m !! txt "function")).
Proof.
  intros H. unfold normalize_vuln in H. cbv [get mbind outcome_bind bind] in H.
  destruct (lower_of (default (JStr (txt "info")) (m !! txt "severity")))
    as [severity|]; [|discriminate].
  destruct (lower_of (default (JStr (txt "moderate")) (m !! txt "exploitability")))
    as [exploitability|]; [|discriminate].
  cbv [mbind outcome_bind bind mret outcome_ret] in H. by simplify_eq.
Qed.

Lemma normalize_vulns_positions (vs : list json) :
  ∀ acc out,
    normalize_vulns vs acc = Return out →
    ∃ nvs, out = acc ++ nvs ∧ length nvs = length vs
           ∧ ∀ j vuln, vs !! j = Some vuln →
                       ∃ nv, nvs !! j = Some nv
                             ∧ normalize_vuln vuln (length acc + j) = Return nv.
Proof.
  induction vs as [|vuln vs IH]; intros acc out H; simpl in H.
  - simplify_eq. exists []. rewrite app_nil_r. repeat split; done.
  - cbv [mbind outcome_bind bind] in H.
    destruct (normalize_vuln vuln (length acc)) as [nv|] eqn:E; [|discriminate].
    apply IH in H as (nvs & -> & Hlen & Hall).
    exists (nv :: nvs). rewrite <- app_assoc. split; [done|].
    split; [simpl; by rewrite Hlen|].
    intros [|j] v Hj; simpl in Hj.
    + simplify_eq. exists nv. by rewrite Nat.add_0_r.
    + destruct (Hall j v Hj) as (nv' & Hnv & Hn). exists nv'. split; [done|].
      rewrite length_app in Hn. simpl in Hn.
      by replace (length acc + S j)%nat with (length acc + 1 + j)%nat by lia.
Qed.

(** X20: on a response of the agreed shape the output has one record per
    record of the response, at the same position.  The record at position
    [j] (from 0) keeps the [rule_id] given and gets [AI-<j+1>] when none is
    given; its [line_number] is the one given unless that is missing,
    [None] or 0, and then it is the value under [line]; likewise
    [function_name] falls back on [function]. *)
Theorem normalize_response_positions (m : gmap str json) (vs : list json) :
  text_or_absent m "overall_risk" →
  m !! txt "vulnerabilities" = Some (JArr vs) →
  Forall well_formed_record vs →
  ∃ n, _normalize_response (JObj m) = Return n
       ∧ length (vulnerabilities n) = length vs
       ∧ ∀ j mv, vs !! j = Some (JObj mv) →
           ∃ nv, vulnerabilities n !! j = Some nv
                 ∧ v_rule_id nv
                   = default (JStr (txt "AI-" ++ of_nat (j + 1))) (mv !! txt "rule_id")
                 ∧ v_line_number nv
                   = py_or (default JNull (mv !! txt "line_number"))
                           (default JNull (mv !! txt "line"))
                 ∧ v_function_name nv
                   = py_or (default JNull (mv !! txt "function_name"))
                           (default JNull (mv !! txt "function")).
Proof.
  intros Hrisk Hvs Hwf.
  unfold _normalize_response. cbv [get mbind outcome_bind bind mret outcome_ret].
  assert (∃ risk, lower_of (default (JStr (txt "unknown")) (m !! txt "overall_risk"))
                  = Return risk) as [risk ->].
  { destruct Hrisk as [->|[s ->]]; simpl; eauto. }
  rewrite Hvs. cbn [default iterate id].
  destruct (normalize_vulns_total vs Hwf []) as [out Hout]. rewrite Hout.
  apply normalize_vulns_positions in Hout as (nvs & -> & Hlen & Hall).
  eexists. split; [done|]. cbn [vulnerabilities app]. split; [done|].
  intros j mv Hj. destruct (Hall j _ Hj) as (nv & Hnv & Hn).
  exists nv. split; [done|]. simpl in Hn. by apply normalize_vuln_record in Hn.
Qed.

Lemma normalize_response_positions_witness :
  let record := <[txt "line" := JInt 7]> (<[txt "line_number" := JInt 0]> ∅) in
  let m := <[txt "vulnerabilities" := JArr [JObj ∅; JObj record]]> ∅ in
  ∃ n, _normalize_response (JObj m) = Return n
       ∧ length (vulnerabilities n) = 2%nat.
Proof.
  intros record m.
  destruct (normalize_response_positions m [JObj ∅; JObj record])
    as (n & Hn & Hlen & _).
  - by left.
  - apply lookup_insert_eq.
  - repeat constructor; eexists; (split; [reflexivity|]); split; by left.
  - exists n. done.
Defined.

Lemma lower_of_raises (v : json) (e : exn) :
  lower_of v = Raise e → e = Exception "AttributeError".
Proof. destruct v; simpl; intros H; by simplify_eq. Qed.

Lemma normalize_vuln_raises (vuln : json) (done : nat) (e : exn) :
  normalize_vuln vuln done = Raise e → e = Exception "AttributeError".
Proof.
  destruct vuln as [| | | | |m];
    try (intros H; unfold normalize_vuln in H;
         cbv [get mbind outcome_bind bind] in H; by simplify_eq).
  intros H. unfold normalize_vuln in H. cbv [get mbind outcome_bind bind] in H.
  destruct (lower_of (default (JStr (txt "info")) (m !! txt "severity")))
    as [severity|e1] eqn:E1; [|simplify_eq; by eapply lower_of_raises].
  destruct (lower_of (default (JStr (txt "moderate")) (m !! txt "exploitability")))
    as [exploitability|e2] eqn:E2; [|simplify_eq; by eapply lower_of_raises].
  cbv [mbind outcome_bind bind mret outcome_ret] in H. discriminate.
Qed.

Lemma normalize_vulns_bad (vs : list json) (bad : json) :
  bad ∈ vs → (∀ done nv, normalize_vuln bad done ≠ Return nv) →
  ∀ acc, normalize_vulns vs acc = Raise (Exception "AttributeError").
Proof.
  intros Hin Hbad. induction vs as [|vuln vs IH]; intros acc;
    [by apply elem_of_nil in Hin|].
  simpl. cbv [mbind outcome_bind bind].
  destruct (normalize_vuln vuln (length acc)) as [nv|e] eqn:E.
  - apply elem_of_cons in Hin as [->|Hin]; [by apply Hbad in E|]. by apply IH.
  - by apply normalize_vuln_raises in E as ->.
Qed.

(** X21: nothing is salvaged from a response with one malformed record: when a
    record of the list is no dict, or has a [severity] or an
    [exploitability] that is no string, the normaliser raises
    [AttributeError], whatever the other records are; a [vulnerabilities]
    entry that is [None], a number or a truth value makes it raise
    [TypeError]. *)
Theorem normalize_response_rejects (m : gmap str json) :
  text_or_absent m "overall_risk" →
  (∀ vs bad,
     m !! txt "vulnerabilities" = Some (JArr vs) →
     bad ∈ vs → ¬ well_formed_record bad →
     _normalize_response (JObj m) = Raise (Exception "AttributeError"))
  ∧ (∀ v,
       m !! txt "vulnerabilities" = Some v →
       (v = JNull ∨ (∃ b, v = JBool b) ∨ ∃ z, v = JInt z) →
       _normalize_response (JObj m) = Raise (Exception "TypeError")).
Proof.
  intros Hrisk.
  assert (∃ risk, lower_of (default (JStr (txt "unknown")) (m !! txt "overall_risk"))
                  = Return risk) as [risk Hr].
  { destruct Hrisk as [->|[s ->]]; simpl; eauto. }
  split.
  - intros vs bad Hvs Hin Hbad.
    unfold _normalize_response. cbv [get mbind outcome_bind bind mret outcome_ret].
    rewrite Hr, Hvs. cbn [default iterate id].
    rewrite (normalize_vulns_bad vs bad Hin); [done|].
    intros done nv H. apply Hbad.
    destruct (normalize_vuln_fields _ _ _ H) as (mv & -> & _).
    exists mv. split; [done|].
    unfold normalize_vuln in H. cbv [get mbind outcome_bind bind] in H.
    destruct (lower_of (default (JStr (txt "info")) (mv !! txt "severity")))
      as [severity|] eqn:E1; [|discriminate].
    destruct (lower_of (default (JStr (txt "moderate")) (mv !! txt "exploitability")))
      as [exploitability|] eqn:E2; [|discriminate].
    apply lower_of_lower in E1 as (s1 & E1 & _), E2 as (s2 & E2 & _).
    unfold text_or_absent. split.
    + destruct (mv !! txt "severity") as [x|]; [|by left].
      right. exists s1. by rewrite <- E1.
    + destruct (mv !! txt "exploitability") as [x|]; [|by left].
      right. exists s2. by rewrite <- E2.
  - intros v Hv Hcase.
    unfold _normalize_response. cbv [get mbind outcome_bind bind mret outcome_ret].
    rewrite Hr, Hv. cbn [default id].
    destruct Hcase as [->|[[b ->]|[z ->]]]; reflexivity.
Qed.

Lemma normalize_response_rejects_witness :
  let m := <[txt "vulnerabilities" := JArr [JObj ∅; JStr (txt "see summary")]]> ∅ in
  _normalize_response (JObj m) = Raise (Exception "AttributeError").
Proof.
  intros m.
  assert (text_or_absent m "overall_risk") as Hrisk by (by left).
  apply (proj1 (normalize_response_rejects m Hrisk)
           [JObj ∅; JStr (txt "see summary")] (JStr (txt "see summary"))).
  - apply lookup_insert_eq.
  - right. left.
  - intros (mv & H & _). discriminate.
Defined.

End AIReasoningMore.

(** ** The contract type guessed for the prompt *)

Module ContractTypeFacts.
Import Text Base AIReasoning RegexFacts Samples.

Lemma lower_app (a b : str) : lower (a ++ b) = lower a ++ lower b.
Proof. apply map_app. Qed.

(** [keyword in code.lower()], for a keyword in lower case. *)
Lemma contains_lower (keyword : string) (code : str) :
  contains (txt keyword) (lower code) = true ↔ mentions keyword code.
Proof.
  rewrite contains_spec. unfold mentions. split.
  - intros (pre & post & H). unfold lower in H.
    apply map_eq_app in H as (pre' & rest & -> & Hpre & H).
    apply map_eq_app in H as (w & post' & -> & Hw & Hpost).
    exists pre', w, post'. done.
  - intros (pre & w & post & -> & Hw).
    exists (lower pre), (lower post). by rewrite !lower_app, Hw.
Qed.

Lemma contains_lower_false (keyword : string) (code : str) :
  contains (txt keyword) (lower code) = false ↔ ¬ mentions keyword code.
Proof. rewrite <- contains_lower. destruct (contains _ _); split; done. Qed.

Lemma either_mentioned (k1 k2 : string) (code : str) :
  contains (txt k1) (lower code) || contains (txt k2) (lower code) = true
  ↔ mentions k1 code ∨ mentions k2 code.
Proof. by rewrite orb_true_iff, !contains_lower. Qed.

Lemma neither_mentioned (k1 k2 : string) (code : str) :
  contains (txt k1) (lower code) || contains (txt k2) (lower code) = false
  ↔ ¬ mentions k1 code ∧ ¬ mentions k2 code.
Proof. by rewrite orb_false_iff, !contains_lower_false. Qed.

Ltac by_keywords code k1 k2 E :=
  destruct (contains (txt k1) (lower code) || contains (txt k2) (lower code)) eqn:E.

Ltac by_keyword code k E :=
  destruct (contains (txt k) (lower code)) eqn:E.

Ltac wrong_label := let Heq := fresh in intros Heq; by vm_compute in Heq.

(** X22: the answer is one of eight labels.  A source that mentions [erc20] or
    [totalSupply], in any mix of cases, is an ERC20 token whatever else it
    mentions; without these, one that mentions [erc721] or [nft] is an NFT;
    and the answer is [Generic Contract] exactly when none of the thirteen
    keywords occurs. *)
Theorem detect_contract_type_priority (code : str) :
  _detect_contract_type code ∈ contract_types
  ∧ (mentions "erc20" code ∨ mentions "totalsupply" code ↔
     _detect_contract_type code = txt "ERC20 Token")
  ∧ (¬ mentions "erc20" code → ¬ mentions "totalsupply" code →
     mentions "erc721" code ∨ mentions "nft" code →
     _detect_contract_type code = txt "NFT/ERC721")
  ∧ (_detect_contract_type code = txt "Generic Contract"
     ↔ ∀ keyword, keyword ∈ contract_keywords → ¬ mentions keyword code).
Proof.
  unfold _detect_contract_type. cbv zeta.
  by_keywords code "erc20"%string "totalsupply"%string E1.
  { apply either_mentioned in E1.
    split; [left|]. split; [done|]. split; [by intros ? ? _; destruct E1|].
    split; [wrong_label|]. intros Hall. exfalso.
    destruct E1 as [E1|E1]; revert E1; apply Hall; repeat constructor. }
  apply neither_mentioned in E1 as [E1 E1'].
  split; [|split; [|split]].
  - unfold contract_types. right.
    by_keywords code "erc721"%string "nft"%string E2; [left|right].
    by_keyword code "erc1155"%string E3; [left|right].
    by_keywords code "swap"%string "liquidity"%string E4; [left|right].
    by_keywords code "stake"%string "reward"%string E5; [left|right].
    by_keywords code "governance"%string "vote"%string E6; [left|right].
    by_keywords code "proxy"%string "upgradeable"%string E7; [left|right; left].
  - split; [by intros [?|?]|]. intros Heq. exfalso. revert Heq.
    by_keywords code "erc721"%string "nft"%string E2; [wrong_label|].
    by_keyword code "erc1155"%string E3; [wrong_label|].
    by_keywords code "swap"%string "liquidity"%string E4; [wrong_label|].
    by_keywords code "stake"%string "reward"%string E5; [wrong_label|].
    by_keywords code "governance"%string "vote"%string E6; [wrong_label|].
    by_keywords code "proxy"%string "upgradeable"%string E7; wrong_label.
  - intros _ _ H3. apply either_mentioned in H3. by rewrite H3.
  - split.
    + by_keywords code "erc721"%string "nft"%string E2; [wrong_label|].
      by_keyword code "erc1155"%string E3; [wrong_label|].
      by_keywords code "swap"%string "liquidity"%string E4; [wrong_label|].
      by_keywords code "stake"%string "reward"%string E5; [wrong_label|].
      by_keywords code "governance"%string "vote"%string E6; [wrong_label|].
      by_keywords code "proxy"%string "upgradeable"%string E7; [wrong_label|].
      apply neither_mentioned in E2 as [? ?], E4 as [? ?],
        E5 as [? ?], E6 as [? ?], E7 as [? ?].
      apply contains_lower_false in E3.
      intros _ keyword Hk. unfold contract_keywords in Hk.
      repeat (apply elem_of_cons in Hk as [->|Hk]; [done|]).
      by apply elem_of_nil in Hk.
    + intros Hall.
      assert (Hno : ∀ keyword, keyword ∈ contract_keywords →
                contains (txt keyword) (lower code) = false).
      { intros keyword Hk. by apply contains_lower_false, Hall. }
      rewrite !Hno by (unfold contract_keywords; repeat constructor). done.
Qed.

Lemma detect_contract_type_priority_witness :
  _detect_contract_type (txt "contract Art is ERC721 { uint public totalSupply; }")
  = txt "ERC20 Token".
Proof.
  apply (proj1 (proj1 (proj2 (detect_contract_type_priority
    (txt "contract Art is ERC721 { uint public totalSupply; }"))))).
  right.
  exists (txt "contract Art is ERC721 { uint public "), (txt "totalSupply"), (txt "; }").
  split; reflexivity.
Defined.

End ContractTypeFacts.

(** ** What the code-structure extractors list *)

Module AstUtilsFacts.
Import Text Regex Base AstUtils RegexFacts RegexMore BaseFacts Samples TextMore.
Import DetectorsMore.

(** The text a match spans and the line its start is on. *)
Lemma match_span (code pre w post : str) (mt : Match) :
  code = pre ++ w ++ post →
  m_start mt = length pre → m_end mt = (length pre + length w)%nat →
  take (m_end mt - m_start mt) (drop (m_start mt) code) = w
  ∧ line_at code (m_start mt) = (count_nl pre + 1)%nat.
Proof.
  intros -> -> ->. unfold line_at.
  rewrite drop_app_length, take_app_length.
  replace (length pre + length w - length pre)%nat with (length w) by lia.
  by rewrite take_app_length.
Qed.




Ltac call_marker Hp :=
  let H1 := fresh in
  let H2 := fresh in
  pose proof (f_equal fst Hp) as H1; pose proof (f_equal snd Hp) as H2;
  cbn [fst snd] in H1, H2; rewrite H1, H2;
  eexists; split; [reflexivity|];
  split; [unfold call_markers; repeat constructor|];
  split; [reflexivity|];
  split; [by apply (bool_decide_unpack _)|repeat constructor].

(** X25: every call [find_external_calls] lists is on a line of the source that
    holds a dot, the name of the call kind and an opening bracket or
    brace; its context is the snippet around that line. *)
Theorem find_external_calls_sound (code language : str) (c : CallInfo) :
  c ∈ find_external_calls code language →
  language = txt "solidity"
  ∧ call_type c ∈ [txt "call"; txt "delegatecall"; txt "send"; txt "transfer"]
  ∧ ∃ i text marker,
      split_lines code !! i = Some text
      ∧ call_line c = (i + 1)%nat
      ∧ marker ∈ call_markers
      ∧ startswith ("."%char :: call_type c) marker = true
      ∧ contains marker text = true
      ∧ call_context c = get_line_context code (i + 1) 3.
Proof.
  unfold find_external_calls, is_solidity. case_bool_decide as Hl;
    [|by intros ?%elem_of_nil].
  intros Hc. split; [done|].
  apply list_elem_of_In, in_flat_map in Hc as ([pattern ct] & Hp & Hc).
  apply in_map_iff in Hc as (mt & <- & Hmt). apply list_elem_of_In in Hmt.
  cbn [call_type call_line call_context].
  assert (∃ marker, pattern = Lit marker ∧ marker ∈ call_markers
                    ∧ startswith ("."%char :: ct) marker = true
                    ∧ (nl ∉ marker)
                    ∧ ct ∈ [txt "call"; txt "delegatecall"; txt "send"; txt "transfer"])
    as (marker & -> & Hmarker & Hstart & Hnl & Hct).
  { apply list_elem_of_In in Hp. unfold call_patterns in Hp.
    repeat (apply elem_of_cons in Hp as [Hp|Hp]; [call_marker Hp|]).
    by apply elem_of_nil in Hp. }
  split; [done|].
  destruct (finditer_sound _ _ _ Hmt) as (pre & w & post & Hcode & L & _ & Hs & He).
  apply lang_Lit in L as ->.
  destruct (match_span code pre marker post mt Hcode Hs He) as [_ Hline].
  rewrite Hline.
  exists (count_nl pre), (last_line pre ++ marker ++ first_line post), marker.
  split; [|split; [done|split; [done|split; [done|split; [|done]]]]].
  - rewrite Hcode, split_lines_at_offset. by rewrite first_line_app.
  - apply contains_spec. eauto.
Qed.

Lemma find_external_calls_sound_witness :
  let code := txt "function pay() public {
  to.send(1);
}" in
  ∃ c, c ∈ find_external_calls code solidity ∧ call_line c = 2%nat
       ∧ call_type c ∈ [txt "call"; txt "delegatecall"; txt "send"; txt "transfer"].
Proof.
  intros code.
  exists (mkCallInfo (txt "send") 2 code).
  assert (mkCallInfo (txt "send") 2 code ∈ find_external_calls code solidity) as Hin.
  { vm_compute. left. }
  split; [exact Hin|]. split; [reflexivity|].
  apply (find_external_calls_sound code solidity _ Hin).
Defined.




End AstUtilsFacts.

(** ** The score of the static findings; the Slither levels *)

Module AuditFacts.
Import Scoring Text Regex Base StaticAnalyzer Pipeline Samples.
Import ScoringMore PipelineFacts OrchestratorMore.

Lemma risk_score_of_formula (severities : list string) :
  risk_score_of severities
  = Z.max 0 (100 - (25 * occurrences "critical" severities
                    + 15 * occurrences "high" severities
                    + 8 * occurrences "medium" severities
                    + 3 * occurrences "low" severities
                    + 1 * occurrences "info" severities)).
Proof.
  unfold risk_score_of. rewrite score_penalty. unfold penalty.
  rewrite !count_severities_level by (unfold levels; repeat constructor). done.
Qed.

Lemma severity_text (level : string) (f : Finding) :
  string_of_list_ascii (severity f) = level ↔ severity f = txt level.
Proof.
  unfold txt. split.
  - intros <-. by rewrite list_ascii_of_string_of_list_ascii.
  - intros ->. by rewrite string_of_list_ascii_of_string.
Qed.

Lemma occurrences_severity (level : string) (fs : list Finding) :
  occurrences level (severities_of fs) = severity_count level fs.
Proof.
  unfold occurrences, severity_count, severities_of. f_equal.
  induction fs as [|f fs IH]; [done|]. cbn [map].
  destruct (decide (severity f = txt level)) as [E|E].
  - rewrite !filter_cons_True by (done || by apply severity_text).
    simpl. by rewrite IH.
  - rewrite !filter_cons_False by (done || by rewrite severity_text). done.
Qed.

Lemma severity_count_cons (level : string) (f : Finding) (fs : list Finding) :
  severity_count level (f :: fs)
  = (if decide (severity f = txt level) then 1 else 0) + severity_count level fs.
Proof.
  unfold severity_count. destruct (decide (severity f = txt level)).
  - rewrite filter_cons_True by done. simpl length. lia.
  - rewrite filter_cons_False by done. lia.
Qed.

Lemma static_counts (code : str) (fs : list Finding) :
  (∀ f, f ∈ fs → static_finding code f) →
  severity_count "low" fs = 0 ∧ severity_count "info" fs = 0
  ∧ severity_count "critical" fs + severity_count "high" fs
    + severity_count "medium" fs = Z.of_nat (length fs).
Proof.
  induction fs as [|f fs IH]; intros Hall; [done|].
  destruct IH as (IH1 & IH2 & IH3); [intros; apply Hall; by right|].
  destruct (Hall f) as (_ & _ & _ & _ & Hs & _); [left|].
  rewrite !severity_count_cons, IH1, IH2. simpl length.
  repeat (apply elem_of_cons in Hs as [->|Hs]);
    [| | |by apply elem_of_nil in Hs];
    repeat case_decide;
    first [ lia
          | exfalso;
            match goal with H : txt _ = txt _ |- _ => by vm_compute in H end
          | exfalso; done ].
Qed.

(** X17: an audit that has the static findings only scores
    [max(0, 100 - 25 critical - 15 high - 8 medium)]: the built-in
    detectors report no [low] and no [info] finding, so every finding
    costs at least 8 points, and three critical findings give an F. *)
Theorem static_audit_score (code : str) (compiler_version : option str) :
  ∃ fs,
    analyze init code solidity compiler_version = Return fs
    ∧ severity_count "critical" fs + severity_count "high" fs
      + severity_count "medium" fs = Z.of_nat (length fs)
    ∧ risk_score_of (severities_of fs)
      = Z.max 0 (100 - (25 * severity_count "critical" fs
                        + 15 * severity_count "high" fs
                        + 8 * severity_count "medium" fs))
    ∧ risk_score_of (severities_of fs) ≤ Z.max 0 (100 - 8 * Z.of_nat (length fs))
    ∧ (3 ≤ severity_count "critical" fs →
       security_rating_of (severities_of fs) = "F"%string).
Proof.
  destruct (analyze_builtin_static code solidity compiler_version) as (fs & Ha & Hall).
  exists fs. split; [done|].
  destruct (static_counts code fs Hall) as (Hlow & Hinfo & Hsum).
  assert (risk_score_of (severities_of fs)
          = Z.max 0 (100 - (25 * severity_count "critical" fs
                            + 15 * severity_count "high" fs
                            + 8 * severity_count "medium" fs))) as Hscore.
  { rewrite risk_score_of_formula, !occurrences_severity, Hlow, Hinfo. f_equal. lia. }
  assert (0 ≤ severity_count "critical" fs ∧ 0 ≤ severity_count "high" fs
          ∧ 0 ≤ severity_count "medium" fs) as (? & ? & ?)
    by (unfold severity_count; lia).
  split; [done|]. split; [done|]. split; [rewrite Hscore; lia|].
  intros H3. unfold security_rating_of. rewrite Hscore.
  unfold calculate_security_rating. repeat case_match; lia || done.
Qed.

End AuditFacts.

Module SlitherFacts.
Import StaticAnalyzer.

(** The mapping of Slither's levels never fails and never gives [low]:
    each impact is raised by one level, an impact it does not know counts
    as [medium] and a confidence it does not know as 75. *)
Theorem slither_mapping_range (impact confidence : string) :
  _map_slither_severity impact ∈ ["critical"; "high"; "medium"; "info"]%string
  ∧ (_map_slither_severity impact = "critical"%string ↔ impact = "High"%string)
  ∧ (_map_slither_severity impact = "info"%string ↔ impact = "Informational"%string)
  ∧ (impact ∉ ["High"; "Medium"; "Low"; "Informational"]%string →
     _map_slither_severity impact = "medium"%string)
  ∧ _map_slither_confidence confidence ∈ [95; 75; 50]
  ∧ (_map_slither_confidence confidence = 50 ↔ confidence = "Low"%string).
Proof.
  unfold _map_slither_severity, _map_slither_confidence. cbv zeta.
  rewrite !lookup_insert, !lookup_empty.
  repeat case_decide; subst; cbn [default id];
    (split; [repeat constructor|]);
    (split; [split; intros; done|]);
    (split; [split; intros; done|]);
    (split; [first [done | intros Hn; exfalso; apply Hn; repeat constructor]|]);
    (split; [repeat constructor|]);
    split; intros; done.
Qed.

End SlitherFacts.

(** ** The function a finding is attributed to *)

Module EnclosingFunctionFacts.
Import Text Regex Base RegexFacts RegexMore BaseFacts Samples.





End EnclosingFunctionFacts.

(** ** The text handed to the JSON parser *)

Module ResponseTextFacts.
Import Text Base AIReasoning RegexFacts Samples.

Section Find.
(** Looking for a text that starts with [c] where [c] does not occur. *)
Variables (sub : str) (c : ascii) (sub' : str).
Hypothesis sub_eq : sub = c :: sub'.

Lemma startswith_other (x : ascii) (s : str) :
  x ≠ c → startswith sub (x :: s) = false.
Proof.
  intros Hx. rewrite sub_eq. simpl.
  destruct (Ascii.eqb c x) eqn:E; [|done]. apply Ascii.eqb_eq in E. by subst.
Qed.

Lemma find_aux_skip (pre rest : str) :
  c ∉ pre → ∀ pos, find_aux sub (pre ++ sub ++ rest) pos = Some (pos + length pre)%nat.
Proof.
  induction pre as [|x pre IH]; intros Hpre pos.
  - assert (startswith sub (sub ++ rest) = true) as Hs
      by (apply startswith_spec; eauto).
    simpl app. rewrite sub_eq in *. simpl app in *.
    cbn [find_aux]. rewrite Hs. f_equal. simpl. lia.
  - simpl app. cbn [find_aux]. rewrite startswith_other.
    + rewrite IH by (intros ?; apply Hpre; by right). f_equal. simpl. lia.
    + intros ->. apply Hpre. left.
Qed.

Lemma find_aux_absent (s : str) :
  c ∉ s → ∀ pos, find_aux sub s pos = None.
Proof.
  induction s as [|x s IH]; intros Hs pos.
  - simpl. by rewrite sub_eq.
  - cbn [find_aux]. rewrite startswith_other.
    + apply IH. intros ?. apply Hs. by right.
    + intros ->. apply Hs. left.
Qed.

Lemma find_after (a pre rest : str) :
  c ∉ pre →
  Text.find sub (a ++ pre ++ sub ++ rest) (length a)
  = Z.of_nat (length a + length pre).
Proof.
  intros Hpre. unfold Text.find.
  assert ((length (a ++ pre ++ sub ++ rest) <? length a)%nat = false) as ->.
  { apply Nat.ltb_ge. rewrite length_app. lia. }
  by rewrite drop_app_length, find_aux_skip.
Qed.

Lemma find_after_absent (a s : str) :
  c ∉ s → Text.find sub (a ++ s) (length a) = -1.
Proof.
  intros Hs. unfold Text.find.
  assert ((length (a ++ s) <? length a)%nat = false) as ->.
  { apply Nat.ltb_ge. rewrite length_app. lia. }
  by rewrite drop_app_length, find_aux_absent.
Qed.

Lemma contains_absent (s : str) : c ∉ s → contains sub s = false.
Proof. intros Hs. unfold contains. by rewrite find_aux_absent. Qed.
End Find.

Lemma slice_middle (a b c : str) :
  slice (a ++ b ++ c) (Z.of_nat (length a)) (Z.of_nat (length a + length b)) = b.
Proof.
  unfold slice, clamp.
  assert ((Z.of_nat (length a) <? 0) = false) as -> by (apply Z.ltb_ge; lia).
  assert ((Z.of_nat (length a + length b) <? 0) = false) as ->
    by (apply Z.ltb_ge; lia).
  rewrite !Nat2Z.id, !length_app.
  rewrite !Nat.min_r by lia. rewrite drop_app_length.
  replace (length a + length b - length a)%nat with (length b) by lia.
  by rewrite take_app_length.
Qed.

Lemma slice_to_last (a b : str) :
  slice (a ++ b) (Z.of_nat (length a)) (-1) = removelast b.
Proof.
  unfold slice, clamp.
  assert ((Z.of_nat (length a) <? 0) = false) as -> by (apply Z.ltb_ge; lia).
  change (-1 <? 0) with true. cbv iota.
  rewrite !Nat2Z.id, !length_app.
  rewrite Nat.min_r by lia. rewrite drop_app_length.
  replace (Z.to_nat (Z.max 0 (Z.of_nat (length a + length b) + -1)) - length a)%nat
    with (pred (length b)) by lia.
  symmetry. apply removelast_firstn_len.
Qed.

(** X23: what is parsed of a response whose text before the fence and between
    the fences has no backtick: the text between the fences, stripped, for
    a fence tagged [json] and for a plain one; the whole text when there is
    no fence.  When the closing fence is missing, the last character of
    the response is lost. *)
Theorem unwrap_response_fenced (pre body post : str) :
  "`"%char ∉ pre → "`"%char ∉ body →
  unwrap_response (pre ++ json_fence ++ body ++ fence ++ post) = strip body
  ∧ (contains json_fence (pre ++ fence ++ body ++ fence ++ post) = false →
     unwrap_response (pre ++ fence ++ body ++ fence ++ post) = strip body)
  ∧ unwrap_response (pre ++ json_fence ++ body) = strip (removelast body)
  ∧ unwrap_response pre = pre.
Proof.
  intros Hpre Hbody.
  assert (Hj : json_fence = "`"%char :: txt "``json") by done.
  assert (Hf : fence = "`"%char :: txt "``") by done.
  assert (Hopen : ∀ opening rest,
            opening = json_fence ∨ opening = fence →
            Text.find opening (pre ++ opening ++ rest) 0 = Z.of_nat (length pre)).
  { intros opening rest Ho.
    destruct Ho as [-> | ->];
      [pose proof (find_after _ _ _ Hj [] pre rest Hpre) as H
      |pose proof (find_after _ _ _ Hf [] pre rest Hpre) as H];
      simpl in H; exact H. }
  assert (Hbetween : ∀ opening skip rest,
            opening = json_fence ∨ opening = fence →
            skip = Z.of_nat (length opening) →
            between_fences (pre ++ opening ++ body ++ fence ++ rest) opening skip
            = strip body).
  { intros opening skip rest Ho ->. unfold between_fences. cbv zeta.
    rewrite Hopen by done. rewrite <- Nat2Z.inj_add, Nat2Z.id.
    f_equal.
    replace (pre ++ opening ++ body ++ fence ++ rest)
      with ((pre ++ opening) ++ body ++ fence ++ rest) by (by rewrite <- app_assoc).
    rewrite <- (length_app pre opening).
    rewrite (find_after _ _ _ Hf (pre ++ opening) body rest Hbody).
    apply slice_middle. }
  split; [|split; [|split]].
  - unfold unwrap_response.
    assert (contains json_fence (pre ++ json_fence ++ body ++ fence ++ post) = true)
      as -> by (apply contains_spec; eauto).
    apply Hbetween; [by left|done].
  - intros Hno. unfold unwrap_response. rewrite Hno.
    assert (contains fence (pre ++ fence ++ body ++ fence ++ post) = true)
      as -> by (apply contains_spec; eauto).
    apply Hbetween; [by right|done].
  - unfold unwrap_response.
    assert (contains json_fence (pre ++ json_fence ++ body) = true)
      as -> by (apply contains_spec; eauto).
    unfold between_fences. cbv zeta. rewrite Hopen by (by left).
    change 7 with (Z.of_nat (length json_fence)).
    rewrite <- Nat2Z.inj_add, Nat2Z.id. f_equal.
    rewrite (app_assoc pre json_fence body), <- (length_app pre json_fence).
    rewrite (find_after_absent _ _ _ Hf _ _ Hbody).
    apply slice_to_last.
  - unfold unwrap_response.
    by rewrite (contains_absent _ _ _ Hj _ Hpre), (contains_absent _ _ _ Hf _ Hpre).
Qed.

Lemma unwrap_response_fenced_witness :
  unwrap_response (txt "Result: ```json {} ``` done") = txt "{}".
Proof.
  apply (proj1 (unwrap_response_fenced (txt "Result: ") (txt " {} ") (txt " done")
                  ltac:(by apply (bool_decide_unpack _))
                  ltac:(by apply (bool_decide_unpack _)))).
Defined.

End ResponseTextFacts.

(** ** Matches and reports in source order *)

Module MatchOrderFacts.
Import Text Regex Base AstUtils RegexFacts RegexMore BaseFacts Samples TextMore.
Import DetectorsMore.

(** The matches of [re.finditer] come from left to right and do not
    overlap. *)
Lemma finditer_aux_sorted (r : re) (s : str) :
  ∀ prev pos skip,
    StronglySorted (λ a b, m_end a ≤ m_start b)%nat (finditer_aux r prev s pos skip)
    ∧ Forall (λ mt, pos + skip ≤ m_start mt ∧ m_start mt ≤ m_end mt)%nat
             (finditer_aux r prev s pos skip).
Proof.
  induction s as [|c s IH]; intros prev pos skip; simpl.
  - destruct skip; [|split; constructor].
    destruct (match_here r prev []) as [[n caps]|]; [|split; constructor].
    split; repeat constructor; simpl; lia.
  - destruct skip as [|j].
    + destruct (match_here r prev (c :: s)) as [[n caps]|].
      * destruct (IH (Some c) (S pos) (n - 1)%nat) as [Hs Hb]. split.
        -- constructor; [done|]. eapply Forall_impl; [exact Hb|].
           intros mt ?. simpl in *. lia.
        -- constructor; [simpl; lia|]. eapply Forall_impl; [exact Hb|].
           intros mt ?. simpl in *. lia.
      * destruct (IH (Some c) (S pos) 0%nat) as [Hs Hb]. split; [done|].
        eapply Forall_impl; [exact Hb|]. intros mt ?. simpl in *. lia.
    + destruct (IH (Some c) (S pos) j) as [Hs Hb]. split; [done|].
      eapply Forall_impl; [exact Hb|]. intros mt ?. simpl in *. lia.
Qed.

Lemma sorted_with {A} (P : A → Prop) (R : A → A → Prop) (l : list A) :
  StronglySorted R l → Forall P l → StronglySorted (λ a b, P a ∧ R a b) l.
Proof.
  induction 1 as [|a l Hs IH Ha]; intros Hl; [constructor|].
  apply Forall_cons in Hl as [Hp Hl]. constructor; [by apply IH|].
  eapply Forall_impl; [exact Ha|]. done.
Qed.

Lemma finditer_sorted (r : re) (s : str) :
  StronglySorted (λ a b, m_start a ≤ m_end a ∧ m_end a ≤ m_start b)%nat
                 (finditer r s).
Proof.
  destruct (finditer_aux_sorted r s None 0 0) as [Hs Hb]. unfold finditer.
  apply (sorted_with (λ a, m_start a ≤ m_end a)%nat); [done|].
  eapply Forall_impl; [exact Hb|]. intros mt ?. simpl in *. lia.
Qed.

Lemma count_nl_take_mono (s : str) :
  ∀ a b, (a ≤ b)%nat → (count_nl (take a s) ≤ count_nl (take b s))%nat.
Proof.
  induction s as [|c s IH]; intros [|a] [|b] Hab; simpl; try lia.
  - unfold count_nl. simpl. lia.
  - rewrite !count_nl_cons. specialize (IH a b). lia.
Qed.

Lemma sorted_map {A B} (R : A → A → Prop) (R' : B → B → Prop) (f : A → B)
    (l : list A) :
  (∀ a b, R a b → R' (f a) (f b)) →
  StronglySorted R l → StronglySorted R' (map f l).
Proof.
  intros Hf. induction 1 as [|a l Hs IH Ha]; simpl; constructor; [done|].
  apply Forall_forall. intros y Hy.
  apply list_elem_of_In, in_map_iff in Hy as (x & <- & Hx).
  apply Hf. rewrite Forall_forall in Ha. by apply Ha, list_elem_of_In.
Qed.

Lemma sorted_weaken {A} (R R' : A → A → Prop) (l : list A) :
  (∀ a b, R a b → R' a b) → StronglySorted R l → StronglySorted R' l.
Proof.
  intros HR. induction 1 as [|a l Hs IH Ha]; constructor; [done|].
  eapply Forall_impl; [exact Ha|]. apply HR.
Qed.

Lemma sorted_after (n : nat) (l1 l2 : list nat) :
  Forall (λ x, x = n) l1 → Forall (λ x, n ≤ x)%nat l2 →
  StronglySorted le l2 → StronglySorted le (l1 ++ l2).
Proof.
  intros H1 H2 Hs. induction H1 as [|x l1 Hx Hl1 IH]; simpl; [done|].
  subst x. constructor; [done|]. apply Forall_app. split; [|done].
  eapply Forall_impl; [exact Hl1|]. intros ? ->. done.
Qed.

(** When each match reports under the key of its start, the reports of a
    scan over the matches come with keys that never decrease. *)
Lemma sorted_flat_map {B} (key : B → nat) (k : Match → nat) (g : Match → list B)
    (ms : list Match) :
  (∀ mt x, x ∈ g mt → key x = k mt) →
  StronglySorted (λ a b, k a ≤ k b)%nat ms →
  StronglySorted le (map key (flat_map g ms)).
Proof.
  intros Hg. induction 1 as [|mt ms Hs IH Hm]; simpl; [constructor|].
  rewrite map_app. apply (sorted_after (k mt)); [| |done].
  - apply Forall_forall. intros n Hn.
    apply list_elem_of_In, in_map_iff in Hn as (x & <- & Hx).
    apply list_elem_of_In in Hx. by apply Hg.
  - apply Forall_forall. intros n Hn.
    apply list_elem_of_In, in_map_iff in Hn as (x & <- & Hx).
    apply in_flat_map in Hx as (mt' & Hmt' & Hx).
    apply list_elem_of_In in Hmt', Hx. rewrite (Hg _ _ Hx).
    rewrite Forall_forall in Hm. by apply Hm.
Qed.

Lemma finditer_lines_sorted (r : re) (code : str) :
  StronglySorted (λ a b, line_at code (m_start a) ≤ line_at code (m_start b))%nat
                 (finditer r code).
Proof.
  eapply sorted_weaken; [|apply finditer_sorted].
  intros a b [H1 H2]. unfold line_at.
  pose proof (count_nl_take_mono code (m_start a) (m_start b)). lia.
Qed.


Lemma line_numbers_all (fs : list Finding) :
  (∀ f, f ∈ fs → is_Some (line_number f)) →
  line_numbers fs = map (λ f, default 0%nat (line_number f)) fs.
Proof.
  unfold line_numbers. induction fs as [|f fs IH]; intros Hall; [done|]. simpl.
  destruct (Hall f) as [n Hn]; [left|]. rewrite Hn. simpl. f_equal.
  apply IH. intros; apply Hall; by right.
Qed.

(** X29: the extractors and the access-control detector report in source
    order: the line numbers of the functions, of the state variables and
    of the access-control findings never decrease along the list. *)
Theorem reports_in_source_order (code language : str) :
  StronglySorted le (map fn_line (extract_functions code language))
  ∧ StronglySorted le (map var_line (extract_state_variables code language))
  ∧ StronglySorted le (line_numbers (AccessControl.detect code language)).
Proof.
  split; [|split].
  - unfold extract_functions. destruct (is_solidity language); [|constructor].
    rewrite map_map. cbn [fn_line].
    eapply (sorted_map _ _ (λ mt, line_at code (m_start mt)));
      [|apply (finditer_lines_sorted _ code)]. done.
  - unfold extract_state_variables. destruct (is_solidity language); [|constructor].
    rewrite map_map. cbn [var_line].
    eapply (sorted_map _ _ (λ mt, line_at code (m_start mt)));
      [|apply (finditer_lines_sorted _ code)]. done.
  - unfold AccessControl.detect. destruct (negb (is_solidity language)); [constructor|].
    assert (Hline : ∀ mt f, f ∈ AccessControl.scan_function code mt →
                      line_number f = Some (line_at code (m_start mt))).
    { intros mt f. unfold AccessControl.scan_function.
      destruct (_ || _); [by intros ?%elem_of_nil|].
      intros [Hf|Hf]%elem_of_app;
        (destruct (_ && _); [|by apply elem_of_nil in Hf]);
        by apply list_elem_of_singleton in Hf as ->. }
    rewrite line_numbers_all.
    + apply (sorted_flat_map _ (λ mt, line_at code (m_start mt)));
        [|apply finditer_lines_sorted].
      intros mt f Hf. by rewrite (Hline _ _ Hf).
    + intros f Hf. apply list_elem_of_In, in_flat_map in Hf as (mt & _ & Hf).
      apply list_elem_of_In in Hf. rewrite (Hline _ _ Hf). eauto.
Qed.

End MatchOrderFacts.

(** ** Which requests the validator lets through *)

Module SchemasFacts.
Import Text Base Schemas Pipeline Samples TextMore.

Lemma lstrip_nil (s : str) :
  lstrip s = [] ↔ Forall (λ c, is_space c = true) s.
Proof.
  induction s as [|c s IH]; simpl; [done|].
  destruct (is_space c) eqn:E.
  - rewrite IH. split; [by constructor|]. by intros [_ ?]%Forall_cons.
  - split; [done|]. intros [Hc _]%Forall_cons. congruence.
Qed.

Lemma lstrip_blank (s : str) :
  Forall (λ c, is_space c = true) (lstrip s) → lstrip s = [].
Proof.
  induction s as [|c s IH]; simpl; [done|].
  destruct (is_space c) eqn:E; [done|].
  intros [Hc _]%Forall_cons. congruence.
Qed.

(** [s.strip()] is empty exactly when [s] is white space only. *)
Lemma strip_nil (s : str) :
  strip s = [] ↔ Forall (λ c, is_space c = true) s.
Proof.
  unfold strip. rewrite <- lstrip_nil. split.
  - intros H. apply lstrip_blank, Forall_reverse, lstrip_nil.
    apply (f_equal reverse) in H. rewrite reverse_involutive in H. exact H.
  - intros ->. done.
Qed.

(** X30: the validator returns the code unchanged, and it accepts exactly
    the codes that have a character that is no white space and at most
    10 MB of characters; every code it accepts has at least one line. *)
Theorem validate_code_accepts (v : str) :
  (validate_code v = Return v
   ↔ (∃ c, c ∈ v ∧ is_space c = false) ∧ Z.of_nat (length v) ≤ 10485760)
  ∧ (∀ out, validate_code v = Return out → out = v ∧ (1 ≤ total_lines out)%nat)
  ∧ (Forall (λ c, is_space c = true) v →
     validate_code v = Raise (Exception "ValueError")).
Proof.
  unfold validate_code.
  assert (Hblank : (length (strip v) =? 0)%nat = true
                   ↔ Forall (λ c, is_space c = true) v).
  { rewrite Nat.eqb_eq, <- strip_nil. by destruct (strip v). }
  assert (Hsome : (∃ c, c ∈ v ∧ is_space c = false)
                  ↔ ¬ Forall (λ c, is_space c = true) v).
  { split.
    - intros (c & Hin & Hc) H. rewrite Forall_forall in H.
      specialize (H c Hin). congruence.
    - intros Hn. apply not_Forall_Exists in Hn; [|intros x; apply _].
      apply Exists_exists in Hn as (c & Hin & Hc). exists c. split; [done|].
      simpl in Hc. by destruct (is_space c). }
  destruct (length (strip v) =? 0)%nat eqn:E.
  - assert (Forall (λ c, is_space c = true) v) as Hall by (by apply Hblank).
    split; [|split; [done|done]].
    split; [done|]. intros [Hc _]. by apply Hsome in Hc.
  - assert (¬ Forall (λ c, is_space c = true) v) as Hnot.
    { intros H. apply Hblank in H. discriminate. }
    destruct (10 * 1024 * 1024 <? Z.of_nat (length v)) eqn:E2.
    + apply Z.ltb_lt in E2. split; [|split; [done|done]].
      split; [done|]. intros [_ ?]. lia.
    + apply Z.ltb_ge in E2. split; [|split; [|done]].
      * split; [|done]. intros _. split; [by apply Hsome|lia].
      * intros out [= <-]. split; [done|].
        unfold total_lines. rewrite length_split_lines. lia.
Qed.

Lemma validate_code_accepts_witness :
  validate_code (txt "  	
 ") = Raise (Exception "ValueError").
Proof.
  apply (proj2 (proj2 (validate_code_accepts _))). repeat constructor.
Defined.

End SchemasFacts.
